(** * Trial matcher: the criterion pipeline, its reducer and its collaborators

    A shallow embedding of the orchestration code of [trialmatcher]:
    - [utils/schemas.py]: [Criterion], [TrialMatcherState] and the
      branch-merge reducer [active_criterion_reducer];
    - [langgraph/langgraph_main.py]: the pre-pass of
      [run_langgraph_trial_matcher] over vacuous and human-review criteria;
    - [langgraph/node_*.py], [router_check_if_done.py] and
      [construct_graph.py]: the pipeline stages and the graph that links them;
    - [utils/retry_with_backoff.py]: the retry decorator;
    - [utils/redis_manager.py]: the append-only store of AI outputs.

    Python values are modelled as follows.  [Optional[T]] is [option T];
    [Dict[str, str]] is [gmap string string] (dict equality ignores insertion
    order, as map equality does); lists are lists; [int] is [Z]; a call that
    may raise returns a [result]. *)

From stdpp Require Import base option list gmap strings pretty sorting.
From Stdlib Require Import ZArith Lia Ascii.

Set Default Proof Using "Type".
Open Scope Z_scope.

(** ** Exceptions and fallible results *)

Inductive exn :=
  | AssertionError
  | AttributeError
  | IndexError
  | OverflowError
  | TypeError
  | ValueError
  | ValidationError
  | ResponseError
  | RateLimitError (tag : Z)
  | OtherError (tag : Z).

#[global] Instance exn_eq_dec : EqDecision exn.
Proof. solve_decision. Defined.

Inductive result (A : Type) :=
  | Ok (a : A)
  | Raise (e : exn).
Arguments Ok {A} a.
Arguments Raise {A} e.

#[global] Instance result_ret : MRet result := λ A a, Ok a.
#[global] Instance result_bind : MBind result := λ A B k r,
  match r with
  | Ok a => k a
  | Raise e => Raise e
  end.

Definition is_ok {A} (r : result A) : Prop :=
  match r with Ok _ => True | Raise _ => False end.

(** ** Data model ([utils/schemas.py]) *)

Inductive CriterionType := inclusion | exclusion.
Inductive Determination := met | not_met | unable_to_determine.
Inductive Eligibility := eligible | ineligible.

#[global] Instance CriterionType_eq_dec : EqDecision CriterionType.
Proof. solve_decision. Defined.
#[global] Instance Determination_eq_dec : EqDecision Determination.
Proof. solve_decision. Defined.
#[global] Instance Eligibility_eq_dec : EqDecision Eligibility.
Proof. solve_decision. Defined.

(** A retrieved evidence snippet ([langchain_core.documents.Document]):
    an optional identity, the text and the metadata. *)
Record Document := mkDocument {
  doc_id : option string;
  page_content : string;
  metadata : gmap string string
}.

#[global] Instance Document_eq_dec : EqDecision Document.
Proof. solve_decision. Defined.

(** [answered_by: Optional[str | List]] *)
Inductive AnsweredBy :=
  | by_name (name : string)
  | by_list (names : list string).

#[global] Instance AnsweredBy_eq_dec : EqDecision AnsweredBy.
Proof. solve_decision. Defined.

Record Criterion := mkCriterion {
  id : string;
  criterion_text : string;
  criterion_type : CriterionType;
  vacuous : option bool;
  requires_human_review : option bool;
  determination : option Determination;
  explanation : option (gmap string string);
  answered_by : option AnsweredBy;
  rag_docs : option (list Document)
}.

#[global] Instance Criterion_eq_dec : EqDecision Criterion.
Proof. solve_decision. Defined.

(** Attribute assignment [c.field = v]. *)
Definition set_determination (v : option Determination) (c : Criterion) : Criterion :=
  mkCriterion (id c) (criterion_text c) (criterion_type c) (vacuous c)
    (requires_human_review c) v (explanation c) (answered_by c) (rag_docs c).

Definition set_explanation (v : option (gmap string string)) (c : Criterion) : Criterion :=
  mkCriterion (id c) (criterion_text c) (criterion_type c) (vacuous c)
    (requires_human_review c) (determination c) v (answered_by c) (rag_docs c).

Definition set_answered_by (v : option AnsweredBy) (c : Criterion) : Criterion :=
  mkCriterion (id c) (criterion_text c) (criterion_type c) (vacuous c)
    (requires_human_review c) (determination c) (explanation c) v (rag_docs c).

Definition set_rag_docs (v : option (list Document)) (c : Criterion) : Criterion :=
  mkCriterion (id c) (criterion_text c) (criterion_type c) (vacuous c)
    (requires_human_review c) (determination c) (explanation c) (answered_by c) v.

(** Python truthiness of the values the code tests with [if x:]. *)
Definition truthy_flag (b : option bool) : bool :=
  match b with Some true => true | _ => false end.

Definition truthy_dict (d : option (gmap string string)) : bool :=
  match d with
  | Some m => bool_decide (m ≠ ∅)
  | None => false
  end.

Definition is_None {A} (o : option A) : bool :=
  match o with None => true | Some _ => false end.

(** [a | b] on dicts: the keys of both, the values of [b] where both have
    the key.  stdpp's union keeps the left value, hence the swap. *)
Definition dict_or (a b : gmap string string) : gmap string string := b ∪ a.

(** ** The branch-merge reducer ([active_criterion_reducer]) *)

(** The reducer's [current] is the channel value and may be [None]; the test
    [update and current.id == update.id] reads [current.id] only when
    [update] is not [None].  The merge branch assigns the merged explanation
    to [current] and then iterates over both [rag_docs]. *)
Definition active_criterion_reducer (current update : option Criterion)
    : result (option Criterion) :=
  match update with
  | None => Ok None
  | Some u =>
    match current with
    | None => Raise AttributeError
    | Some c =>
      if decide (id c = id u) then
        if decide (explanation c = explanation u) then Ok (Some c)
        else if truthy_dict (explanation c) && is_None (explanation u) then Ok (Some c)
        else if truthy_dict (explanation u) && is_None (explanation c) then Ok (Some u)
        else if truthy_dict (explanation c) && truthy_dict (explanation u) then
          match explanation c, explanation u with
          | Some ec, Some eu =>
            let c1 := set_explanation (Some (dict_or ec eu)) c in
            match rag_docs c1 with
            | None => Raise TypeError
            | Some cdocs =>
              let current_rag_ids := doc_id <$> cdocs in
              match rag_docs u with
              | None => Raise TypeError
              | Some udocs =>
                let update_rag_docs := filter (λ doc, doc_id doc ∉ current_rag_ids) udocs in
                Ok (Some (set_rag_docs (Some (cdocs ++ update_rag_docs)) c1))
              end
            end
          | _, _ => Raise ValueError
          end
        else Raise ValueError
      else Ok (Some u)
    end
  end.

(** Fan-in: the channel applies the reducer to the fragments of one step,
    one after the other. *)
Definition fan_in (current : option Criterion) (updates : list Criterion)
    : result (option Criterion) :=
  foldl (λ acc u, cur ← acc; active_criterion_reducer cur (Some u)) (Ok current) updates.

(** ** Run configuration and run state *)

Inductive FinalDeterminationMethod := rule_based | single_prompt | chain_of_thought.

(** The options of [TrialMatcherConfig] that the orchestration reads. *)
Record TrialMatcherConfig := mkConfig {
  max_retries : Z;
  base_wait : Z;
  final_determination_method : option FinalDeterminationMethod;
  check_explanations : option bool;
  debug_first_n : option Z;
  split_vectorstore_by_agent : option (gmap string (list string))
}.

(** [TrialMatcherState].  Token counters, cost, dates and timestamps are left
    out: no stage reads them to decide what happens to a criterion. *)
Record TrialMatcherState := mkState {
  trial_id : string;
  mrn : string;
  final_determination : option Eligibility;
  uncompleted_criteria : list Criterion;
  active_criterion : option Criterion;
  n_total_criteria : option Z;
  completed_criteria : list Criterion;
  run_config : TrialMatcherConfig
}.

Definition set_final_determination (v : option Eligibility) (s : TrialMatcherState)
    : TrialMatcherState :=
  mkState (trial_id s) (mrn s) v (uncompleted_criteria s) (active_criterion s)
    (n_total_criteria s) (completed_criteria s) (run_config s).

Definition set_active_criterion (v : option Criterion) (s : TrialMatcherState)
    : TrialMatcherState :=
  mkState (trial_id s) (mrn s) (final_determination s) (uncompleted_criteria s) v
    (n_total_criteria s) (completed_criteria s) (run_config s).

Definition set_uncompleted_criteria (v : list Criterion) (s : TrialMatcherState)
    : TrialMatcherState :=
  mkState (trial_id s) (mrn s) (final_determination s) v (active_criterion s)
    (n_total_criteria s) (completed_criteria s) (run_config s).

Definition set_completed_criteria (v : list Criterion) (s : TrialMatcherState)
    : TrialMatcherState :=
  mkState (trial_id s) (mrn s) (final_determination s) (uncompleted_criteria s)
    (active_criterion s) (n_total_criteria s) v (run_config s).

(** The partial update a stage returns: a dict with some of the state's
    keys.  [None] is a key that is absent. *)
Record StateUpdate := mkUpdate {
  upd_uncompleted_criteria : option (list Criterion);
  upd_active_criterion : option (option Criterion);
  upd_completed_criteria : option (list Criterion)
}.

Definition no_update : StateUpdate := mkUpdate None None None.

Definition active_update (c : option Criterion) : StateUpdate :=
  mkUpdate None (Some c) None.

(** Merging an update into the state: [active_criterion] is annotated with
    [active_criterion_reducer], the two lists are overwritten. *)
Definition apply_update (s : TrialMatcherState) (u : StateUpdate)
    : result TrialMatcherState :=
  active ← match upd_active_criterion u with
           | None => Ok (active_criterion s)
           | Some a => active_criterion_reducer (active_criterion s) a
           end;
  Ok (mkState (trial_id s) (mrn s) (final_determination s)
        (default (uncompleted_criteria s) (upd_uncompleted_criteria u))
        active
        (n_total_criteria s)
        (default (completed_criteria s) (upd_completed_criteria u))
        (run_config s)).

(** The fragments of the experts of one fan-out reach the channel in turn. *)
Definition apply_updates (s : TrialMatcherState) (us : list StateUpdate)
    : result TrialMatcherState :=
  foldl (λ acc u, s' ← acc; apply_update s' u) (Ok s) us.

(** The bucket-conservation sum
    [len(uncompleted) + (1 if active else 0) + len(completed)]. *)
Definition bucket_count (s : TrialMatcherState) : Z :=
  Z.of_nat (length (uncompleted_criteria s))
  + (if active_criterion s is Some _ then 1 else 0)
  + Z.of_nat (length (completed_criteria s)).

Definition bucket_conservation (s : TrialMatcherState) : Prop :=
  n_total_criteria s = Some (bucket_count s).

(** ** Rule-based final determination ([node_make_final_determination.py]) *)

(** The loop over [state.completed_criteria]. *)
Fixpoint rule_based_verdict (completed : list Criterion) : Eligibility :=
  match completed with
  | [] => eligible
  | crit :: rest =>
    if decide (determination crit = Some unable_to_determine) then rule_based_verdict rest
    else if decide (criterion_type crit = inclusion ∧ determination crit = Some not_met)
      then ineligible
    else if decide (criterion_type crit = exclusion ∧ determination crit = Some met)
      then ineligible
    else rule_based_verdict rest
  end.

Definition final_determination_rule_based (state : TrialMatcherState)
    : result TrialMatcherState :=
  let n := Z.of_nat (length (completed_criteria state))
           + Z.of_nat (length (uncompleted_criteria state)) in
  let n := if active_criterion state is Some _ then n + 1 else n in
  if decide (Some n = n_total_criteria state) then
    Ok (set_final_determination
          (Some (rule_based_verdict (completed_criteria state))) state)
  else Raise AssertionError.

(** The two prompt-based strategies write the verdict the model answers
    with. *)
Definition final_determination_single_prompt (answer : Eligibility)
    (state : TrialMatcherState) : result TrialMatcherState :=
  Ok (set_final_determination (Some answer) state).

Definition final_determination_COT (answer : Eligibility)
    (state : TrialMatcherState) : result TrialMatcherState :=
  Ok (set_final_determination (Some answer) state).

Definition get_final_determination_node (method : option FinalDeterminationMethod)
    : result (Eligibility → TrialMatcherState → result TrialMatcherState) :=
  match method with
  | Some rule_based => Ok (λ _, final_determination_rule_based)
  | Some single_prompt => Ok final_determination_single_prompt
  | Some chain_of_thought => Ok final_determination_COT
  | None => Raise ValueError
  end.

(** What makes a completed criterion disqualifying. *)
Definition disqualifying (c : Criterion) : Prop :=
  (criterion_type c = inclusion ∧ determination c = Some not_met)
  ∨ (criterion_type c = exclusion ∧ determination c = Some met).

#[global] Instance disqualifying_dec c : Decision (disqualifying c).
Proof. unfold disqualifying. apply _. Defined.

(** ** The pre-pass of [run_langgraph_trial_matcher] ([langgraph_main.py])

    The loop assigns to attributes of the criterion objects it iterates over
    and removes them from [initial_uncomplete] with [list.remove], which
    takes out the first element that compares equal.  The objects are shared
    between the snapshot [initial_uncomplete[:]] and the list, so the model
    keeps an object store: an address is a position in the trial's criteria
    list, and the two work lists hold addresses. *)

Abbreviation heap := (list Criterion).

(** [initial_uncomplete.remove(c)] for the object at address [a]: the first
    element equal to it goes; [None] is the [ValueError] of a missing one. *)
Fixpoint list_remove (h : heap) (a : nat) (l : list nat) : option (list nat) :=
  match l with
  | [] => None
  | b :: rest =>
    if decide (h !! b = h !! a) then Some rest
    else cons b <$> list_remove h a rest
  end.

Definition vacuous_explanation : gmap string string :=
  {[ "rule" := "Vacuous criterion" ]}.
Definition human_review_explanation : gmap string string :=
  {[ "rule" := "Requires human review" ]}.

Definition resolve_vacuous (c : Criterion) : Criterion :=
  set_explanation (Some vacuous_explanation) (set_determination (Some met) c).

Definition resolve_human_review (c : Criterion) : Criterion :=
  set_explanation (Some human_review_explanation)
    (set_determination (Some unable_to_determine) c).

Record prepass_state := mkPrepass {
  objects : heap;
  initial_uncomplete : list nat;
  initial_complete : list nat
}.

(** One iteration of [for c in initial_uncomplete[:]]. *)
Definition prepass_body (st : prepass_state) (a : nat) : result prepass_state :=
  match objects st !! a with
  | None => Raise IndexError
  | Some c =>
    if truthy_flag (vacuous c) then
      let h := <[a := resolve_vacuous c]> (objects st) in
      match list_remove h a (initial_uncomplete st) with
      | None => Raise ValueError
      | Some unc => Ok (mkPrepass h unc (initial_complete st ++ [a]))
      end
    else if truthy_flag (requires_human_review c) then
      let h := <[a := resolve_human_review c]> (objects st) in
      match list_remove h a (initial_uncomplete st) with
      | None => Raise ValueError
      | Some unc => Ok (mkPrepass h unc (initial_complete st ++ [a]))
      end
    else Ok st
  end.

Fixpoint prepass_loop (snapshot : list nat) (st : prepass_state) : result prepass_state :=
  match snapshot with
  | [] => Ok st
  | a :: rest => st' ← prepass_body st a; prepass_loop rest st'
  end.

(** Reading a work list back as criteria. *)
Definition deref (h : heap) (l : list nat) : list Criterion :=
  omap (λ a, h !! a) l.

(** The pre-pass on a trial's criteria: the pair
    [(initial_uncomplete, initial_complete)] it leaves. *)
Definition prepass (trial_criteria : list Criterion)
    : result (list Criterion * list Criterion) :=
  let addrs := seq 0 (length trial_criteria) in
  st ← prepass_loop addrs (mkPrepass trial_criteria addrs []);
  Ok (deref (objects st) (initial_uncomplete st),
      deref (objects st) (initial_complete st)).

(** The assertion that follows the pre-pass. *)
Definition assert_all_handled (n_total : nat) (unc comp : list Criterion) : result unit :=
  if decide (length unc + length comp = n_total)%nat then Ok () else Raise AssertionError.

(** [trial_criteria[: debug_first_n]], a negative bound counting from the
    end of the list. *)
Definition slice_to (n : Z) (l : list Criterion) : list Criterion :=
  if decide (0 ≤ n) then take (Z.to_nat n) l
  else take (length l - Z.to_nat (- n)) l.

(** The construction of the initial state: lookup of the trial, debug
    truncation, pre-pass, assertion, and the pop of the first criterion.
    (The function returns early when the output file of the pair exists,
    and prepares the vector store before it builds the graph; neither
    touches the criteria.) *)
Definition initial_state (all_trial_criteria : gmap string (list Criterion))
    (mrn_ trial_id_ : string) (cfg : TrialMatcherConfig) : result TrialMatcherState :=
  match all_trial_criteria !! trial_id_ with
  | None => Raise AssertionError
  | Some criteria =>
    let trial_criteria :=
      match debug_first_n cfg with
      | Some n => if decide (n = 0) then criteria else slice_to n criteria
      | None => criteria
      end in
    let n_total := length trial_criteria in
    '(unc, comp) ← prepass trial_criteria;
    _ ← assert_all_handled n_total unc comp;
    match unc with
    | [] => Raise IndexError
    | initial_active :: rest =>
      Ok (mkState trial_id_ mrn_ None rest (Some initial_active)
            (Some (Z.of_nat n_total)) comp cfg)
    end
  end.

(** ** Ordering of the persisted criteria ([node_save_results.py])

    Criterion ids are ASCII text.  [x.id.split()] cuts the id at runs of
    whitespace, [[-1]] takes the last piece, [int] reads it. *)

(** [str.isspace] on the ASCII range: tab to carriage return, the four
    separators 28 to 31, and the space. *)
Definition is_space (c : ascii) : bool :=
  let n := nat_of_ascii c in
  ((9 <=? n) && (n <=? 13) || (28 <=? n) && (n <=? 32))%nat.

Fixpoint split_go (cs tok : list ascii) (acc : list (list ascii)) : list (list ascii) :=
  match cs with
  | [] => if tok is [] then acc else acc ++ [tok]
  | c :: rest =>
    if is_space c
    then split_go rest [] (if tok is [] then acc else acc ++ [tok])
    else split_go rest (tok ++ [c]) acc
  end.

Definition split (s : string) : list (list ascii) :=
  split_go (String.list_ascii_of_string s) [] [].

Definition digit_of (c : ascii) : option Z :=
  let n := nat_of_ascii c in
  if ((48 <=? n) && (n <=? 57))%nat then Some (Z.of_nat n - 48) else None.

(** Decimal digits, single underscores allowed between two digits. *)
Fixpoint parse_digits (cs : list ascii) (acc : Z) (after_digit : bool) : option Z :=
  match cs with
  | [] => if after_digit then Some acc else None
  | c :: rest =>
    match digit_of c with
    | Some d => parse_digits rest (10 * acc + d) true
    | None =>
      if decide (c = "_"%char) then
        if after_digit then parse_digits rest acc false else None
      else None
    end
  end.

(** [int(tok)]: an optional sign, then the digits; [ValueError] otherwise. *)
Definition python_int (tok : list ascii) : result Z :=
  let '(neg, body) :=
    match tok with
    | c :: rest =>
      if decide (c = "-"%char) then (true, rest)
      else if decide (c = "+"%char) then (false, rest)
      else (false, tok)
    | [] => (false, tok)
    end in
  match parse_digits body 0 false with
  | Some n => Ok (if neg then - n else n)
  | None => Raise ValueError
  end.

(** [int(x.id.split()[-1])] *)
Definition numeric_suffix (ident : string) : result Z :=
  match last (split ident) with
  | None => Raise IndexError
  | Some tok => python_int tok
  end.

(** The sort key [(-1 if x.criterion_type == "inclusion" else 0, int(...))]. *)
Definition sort_key (x : Criterion) : result (Z * Z) :=
  n ← numeric_suffix (id x);
  Ok (if decide (criterion_type x = inclusion) then -1 else 0, n).

(** Tuples compare lexicographically. *)
Definition key_lt (k1 k2 : Z * Z) : bool :=
  (k1.1 <? k2.1) || ((k1.1 =? k2.1) && (k1.2 <? k2.2)).

(** [sorted] is stable: elements with equal keys keep their order, which
    fixes its result.  Insertion from the right computes that result (an
    element goes in front of the first one that is not smaller than it);
    that it orders, permutes and is stable is proved below. *)
Fixpoint insert_by_key (x : (Z * Z) * Criterion) (l : list ((Z * Z) * Criterion))
    : list ((Z * Z) * Criterion) :=
  match l with
  | [] => [x]
  | y :: rest =>
    if key_lt y.1 x.1 then y :: insert_by_key x rest else x :: y :: rest
  end.

Definition sorted_by_key (l : list ((Z * Z) * Criterion)) : list ((Z * Z) * Criterion) :=
  foldr insert_by_key [] l.

(** The keys are computed for every element before the list is ordered. *)
Fixpoint sort_keys (l : list Criterion) : result (list ((Z * Z) * Criterion)) :=
  match l with
  | [] => Ok []
  | x :: rest =>
    k ← sort_key x;
    ks ← sort_keys rest;
    Ok ((k, x) :: ks)
  end.

Definition sorted_completed_criteria (l : list Criterion) : result (list Criterion) :=
  ks ← sort_keys l;
  Ok ((sorted_by_key ks).*2).

(** [save_results]: the state as it is serialised.  Where the document goes
    (file or store) is the collaborator's side. *)
Definition save_results (state : TrialMatcherState) : result TrialMatcherState :=
  sorted ← sorted_completed_criteria (completed_criteria state);
  Ok (set_completed_criteria sorted state).

(** ** Pipeline stages

    What the language model or the retriever answers is an argument of the
    stage; a call that raises ends the run, so a stage is described for the
    calls that return.  A stage that assigns to an attribute of
    [state.active_criterion] changes the object the channel holds: such a
    stage returns the state after the assignment together with its update. *)

Definition trial_coordinator (state : TrialMatcherState) : result StateUpdate :=
  match active_criterion state with
  | None => Raise AttributeError
  | Some _ => Ok no_update
  end.

(** [consult_agent]: works on a copy of the active criterion; the retrieved
    documents are attached while the chain runs, the answer afterwards. *)
Definition consult_agent (agent_name : string) (docs : list Document) (answer : string)
    (state : TrialMatcherState) : result StateUpdate :=
  match active_criterion state with
  | None => Raise AttributeError
  | Some c =>
    let active := set_rag_docs (Some docs) c in
    let active := set_explanation (Some {[ agent_name := answer ]}) active in
    Ok (active_update (Some active))
  end.

Definition principal_investigator (verdict : Determination) (state : TrialMatcherState)
    : result (TrialMatcherState * StateUpdate) :=
  match active_criterion state with
  | None => Raise AttributeError
  | Some c =>
    let current_criterion := set_determination (Some verdict) c in
    Ok (set_active_criterion (Some current_criterion) state,
        active_update (Some current_criterion))
  end.

Inductive CheckExplanation :=
  | next_continue
  | next_query_and_refine (revised_explanation : string).

(** [check_explanation]: the refinement writes the key "revised" into the
    explanation dict in place; the update names no state key that exists. *)
Definition check_explanation (check : CheckExplanation) (state : TrialMatcherState)
    : result (TrialMatcherState * StateUpdate) :=
  match active_criterion state with
  | None => Raise AttributeError
  | Some c =>
    match check with
    | next_continue => Ok (state, no_update)
    | next_query_and_refine revised =>
      match explanation c with
      | None => Raise TypeError
      | Some e =>
        Ok (set_active_criterion
              (Some (set_explanation (Some (<[ "revised" := revised ]> e)) c)) state,
            no_update)
      end
    end
  end.

(** [update_current_criterion].  [completed_criteria] is a list of criteria:
    with no active criterion the list built here would hold [None], which
    the state's validation rejects. *)
Definition update_current_criterion (state : TrialMatcherState)
    : result (TrialMatcherState * StateUpdate) :=
  match active_criterion state with
  | None => Raise ValidationError
  | Some current_criterion =>
    let '(new_active, rest) :=
      match uncompleted_criteria state with
      | [] => (None, [])
      | c :: rest => (Some c, rest)
      end in
    let new_completed := completed_criteria state ++ [current_criterion] in
    Ok (set_uncompleted_criteria rest state,
        mkUpdate (Some rest) (Some new_active) (Some new_completed))
  end.

Inductive Node :=
  | trial_coordinator_node
  | consult_expert_node
  | expert_nodes (names : list string)
  | principal_investigator_node
  | check_explanation_node
  | update_current_criterion_node
  | make_final_determination_node
  | save_results_node
  | END.

Definition check_if_done (state : TrialMatcherState) : Node :=
  if active_criterion state is Some _ then trial_coordinator_node
  else make_final_determination_node.

(** ** The multi-expert router ([construct_graph.py]) *)

(** [list(set(val))]: the distinct names, in the order the set yields. *)
Definition make_unique (val : list string) : list string :=
  elements (list_to_set val : gset string).

(** Validation of the model's answer against [ExpertChoice]: every name is
    one of [expert_choices], then the validator [make_unique] runs. *)
Definition ExpertChoice (expert_choices val : list string) : result (list string) :=
  if decide (Forall (λ e, e ∈ expert_choices) val) then Ok (make_unique val)
  else Raise ValidationError.

Definition consult_expert (expert_choices answer : list string)
    (state : TrialMatcherState) : result (TrialMatcherState * StateUpdate) :=
  match active_criterion state with
  | None => Raise AttributeError
  | Some c =>
    parsed ← ExpertChoice expert_choices answer;
    let next_expert :=
      match parsed with
      | [] => if decide ("generalist" ∈ expert_choices) then ["generalist"]
              else expert_choices
      | _ => parsed
      end in
    let active := set_answered_by (Some (by_list next_expert)) c in
    Ok (set_active_criterion (Some active) state, active_update (Some active))
  end.

(** The conditional edge out of the router: the nodes to run next. *)
Definition route_consult_expert (state : TrialMatcherState) : result (list string) :=
  match active_criterion state with
  | None => Raise AttributeError
  | Some c =>
    match answered_by c with
    | Some (by_list names) => Ok names
    | Some (by_name name) => Ok [name]
    | None => Raise ValueError
    end
  end.

(** ** The graph ([construct_graph.py]) *)

Inductive Topology :=
  | single_rag
  | multi_expert_branching (expert_choices : list string).

Record Graph := mkGraph {
  topology : Topology;
  checks_explanations : bool;
  final_determination_node : Eligibility → TrialMatcherState → result TrialMatcherState
}.

(** A vector store: its documents by id. *)
Abbreviation Vectorstore := (gmap string Document).

Definition _build_graph_single_rag (cfg : TrialMatcherConfig) : result Graph :=
  node ← get_final_determination_node (final_determination_method cfg);
  Ok (mkGraph single_rag (truthy_flag (check_explanations cfg)) node).

(** [agent_name_to_vectorstores] is what [split_vectorstore_by_agent] made
    of the patient's store; [expert_choices] are its keys. *)
Definition _build_graph_multi_expert_branching (cfg : TrialMatcherConfig)
    (agent_name_to_vectorstores : gmap string Vectorstore) : result Graph :=
  if decide (agent_name_to_vectorstores = ∅) then Raise ValueError
  else
    let expert_choices := (map_to_list agent_name_to_vectorstores).*1 in
    node ← get_final_determination_node (final_determination_method cfg);
    Ok (mkGraph (multi_expert_branching expert_choices)
          (truthy_flag (check_explanations cfg)) node).

Definition build_graph (cfg : TrialMatcherConfig)
    (agent_name_to_vectorstores : gmap string Vectorstore) : result Graph :=
  match split_vectorstore_by_agent cfg with
  | Some keywords =>
    if decide (keywords = ∅) then _build_graph_single_rag cfg
    else
      match _build_graph_multi_expert_branching cfg agent_name_to_vectorstores with
      | Ok graph => Ok graph
      | Raise _ => _build_graph_single_rag cfg
      end
  | None => _build_graph_single_rag cfg
  end.

(** The fragments of a fan-out: every expert named is consulted on the same
    state, each with what its own retriever and model call gave. *)
Fixpoint consult_agents (names : list string) (answers : list (list Document * string))
    (state : TrialMatcherState) : result (list StateUpdate) :=
  match names, answers with
  | [], [] => Ok []
  | name :: names', (docs, answer) :: answers' =>
    u ← consult_agent name docs answer state;
    us ← consult_agents names' answers' state;
    Ok (u :: us)
  | _, _ => Raise ResponseError
  end.

(** A stage as the graph runs it: the update it returns is merged into the
    state it leaves. *)
Definition run_stage (r : result (TrialMatcherState * StateUpdate))
    : result TrialMatcherState :=
  '(s1, u) ← r; apply_update s1 u.

(** One edge of the graph.  The answers of the model and of the retriever
    are arbitrary. *)
Inductive step (g : Graph) : Node * TrialMatcherState → Node * TrialMatcherState → Prop :=
  | step_coordinator_single s u s' :
      topology g = single_rag →
      trial_coordinator s = Ok u →
      apply_update s u = Ok s' →
      step g (trial_coordinator_node, s) (expert_nodes ["expert"], s')
  | step_coordinator_multi expert_choices s u s' :
      topology g = multi_expert_branching expert_choices →
      trial_coordinator s = Ok u →
      apply_update s u = Ok s' →
      step g (trial_coordinator_node, s) (consult_expert_node, s')
  | step_consult_expert expert_choices answer s s' names :
      topology g = multi_expert_branching expert_choices →
      run_stage (consult_expert expert_choices answer s) = Ok s' →
      route_consult_expert s' = Ok names →
      step g (consult_expert_node, s) (expert_nodes names, s')
  | step_experts names answers s us s' :
      consult_agents names answers s = Ok us →
      apply_updates s us = Ok s' →
      step g (expert_nodes names, s) (principal_investigator_node, s')
  | step_principal_investigator verdict s s' :
      run_stage (principal_investigator verdict s) = Ok s' →
      step g (principal_investigator_node, s)
        (if checks_explanations g then check_explanation_node
         else update_current_criterion_node, s')
  | step_check_explanation check s s' :
      run_stage (check_explanation check s) = Ok s' →
      step g (check_explanation_node, s) (update_current_criterion_node, s')
  | step_update_current_criterion s s' :
      run_stage (update_current_criterion s) = Ok s' →
      step g (update_current_criterion_node, s) (check_if_done s', s')
  | step_make_final_determination verdict s s' :
      final_determination_node g verdict s = Ok s' →
      step g (make_final_determination_node, s) (save_results_node, s')
  | step_save_results s document :
      save_results s = Ok document →
      step g (save_results_node, s) (END, s).

(** The stage boundaries of a run that starts in [s0]. *)
Inductive reachable (g : Graph) (s0 : TrialMatcherState)
    : Node → TrialMatcherState → Prop :=
  | reachable_start : reachable g s0 trial_coordinator_node s0
  | reachable_step n s n' s' :
      reachable g s0 n s → step g (n, s) (n', s') → reachable g s0 n' s'.

(** ** Retry with exponential backoff ([utils/retry_with_backoff.py])

    The wrapped function is a source of outcomes: what its [n]-th call
    does.  The wrapper's effects are the calls it makes and the waits it
    sleeps. *)

Inductive outcome (A : Type) :=
  | Returns (v : A)
  | Raises (e : exn).
Arguments Returns {A} v.
Arguments Raises {A} e.

Record effects := mkEffects {
  calls : nat;
  sleeps : list Z
}.

Inductive wrapper_result (A : Type) :=
  | Returned (v : A)
  | ReturnedNone
  | Raised (e : exn)
  | OutOfFuel.
Arguments Returned {A} v.
Arguments ReturnedNone {A}.
Arguments Raised {A} e.
Arguments OutOfFuel {A}.

Definition is_rate_limit (e : exn) : bool :=
  match e with RateLimitError _ => true | _ => false end.

(** [time.sleep(secs)] for an int.  The length is kept as a signed 64-bit
    count of nanoseconds: a number of seconds beyond [sleep_max] either way
    does not fit and raises [OverflowError]; a negative length that fits
    raises [ValueError]. *)
Definition sleep_max : Z := 9223372036.

Definition time_sleep (secs : Z) : result unit :=
  if decide (secs < - sleep_max ∨ sleep_max < secs) then Raise OverflowError
  else if decide (secs < 0) then Raise ValueError
  else Ok ().

(** The [while attempt <= max_retries] loop.  An exception of [time.sleep]
    is raised inside the handler and ends the wrapper. *)
Fixpoint retry_loop {A} (fuel : nat) (max_retries_ base_wait_ : Z) (func : nat → outcome A)
    (attempt : Z) (eff : effects) : wrapper_result A * effects :=
  match fuel with
  | O => (OutOfFuel, eff)
  | S fuel' =>
    if decide (attempt ≤ max_retries_) then
      let eff1 := mkEffects (S (calls eff)) (sleeps eff) in
      match func (calls eff) with
      | Returns v => (Returned v, eff1)
      | Raises e =>
        if is_rate_limit e then
          let attempt := attempt + 1 in
          if decide (attempt > max_retries_) then (Raised e, eff1)
          else
            let wait_time := base_wait_ * 2 ^ (attempt - 1) in
            match time_sleep wait_time with
            | Raise x => (Raised x, eff1)
            | Ok _ =>
              retry_loop fuel' max_retries_ base_wait_ func attempt
                (mkEffects (calls eff1) (sleeps eff1 ++ [wait_time]))
            end
        else (Raised e, eff1)
      end
    else (ReturnedNone, eff)
  end.

(** The decorated function.  The loop runs at most [max_retries + 1] times,
    so the fuel below is never used up. *)
Definition retry_with_exponential_backoff {A} (max_retries_ base_wait_ : Z)
    (func : nat → outcome A) : wrapper_result A * effects :=
  retry_loop (S (Z.to_nat (max_retries_ + 1))) max_retries_ base_wait_ func 0
    (mkEffects 0 []).

(** ** The store of AI outputs ([utils/redis_manager.py]) *)

(** What a Redis key holds.  The fields of the hashes this module writes are
    integers (Redis keeps their decimal text). *)
Inductive redis_value :=
  | RString (s : string)
  | RHash (h : gmap string Z)
  | RList (l : list string).

Abbreviation redis := (gmap string redis_value).

Definition _master_key (mrn_ protocol : string) : string :=
  "master:" +:+ mrn_ +:+ "_" +:+ protocol.

Definition _ai_key (mrn_ protocol : string) (index : Z) : string :=
  mrn_ +:+ "_" +:+ protocol +:+ "_output_" +:+ pretty index.

(** [EXISTS key] *)
Definition redis_exists (db : redis) (key : string) : bool :=
  bool_decide (is_Some (db !! key)).

(** [HSET key mapping]: the key must be free or hold a hash. *)
Definition redis_hset (db : redis) (key : string) (mapping : gmap string Z) : result redis :=
  match db !! key with
  | None => Ok (<[ key := RHash mapping ]> db)
  | Some (RHash h) => Ok (<[ key := RHash (mapping ∪ h) ]> db)
  | Some _ => Raise ResponseError
  end.

(** [HINCRBY key field amount]: a missing key or field counts from 0. *)
Definition redis_hincrby (db : redis) (key field : string) (amount : Z) : result (Z * redis) :=
  match db !! key with
  | None => Ok (amount, <[ key := RHash {[ field := amount ]} ]> db)
  | Some (RHash h) =>
    let v := default 0 (h !! field) + amount in
    Ok (v, <[ key := RHash (<[ field := v ]> h) ]> db)
  | Some _ => Raise ResponseError
  end.

(** [SET key value] overwrites whatever the key held. *)
Definition redis_set (db : redis) (key value : string) : redis :=
  <[ key := RString value ]> db.

Definition _initialize_master_key (db : redis) (master_key : string) : result redis :=
  if redis_exists db master_key then Ok db
  else redis_hset db master_key {[ "ai_count" := -1; "human_count" := -1 ]}.

Definition add_ai_output (db : redis) (mrn_ protocol result_ : string) : result (Z * redis) :=
  let master_key := _master_key mrn_ protocol in
  db ← _initialize_master_key db master_key;
  '(index, db) ← redis_hincrby db master_key "ai_count" 1;
  let output_key := _ai_key mrn_ protocol index in
  Ok (index, redis_set db output_key result_).

(** A sequence of calls for one pair: the indices returned and the store
    they leave. *)
Fixpoint add_ai_outputs (db : redis) (mrn_ protocol : string) (results : list string)
    : result (list Z * redis) :=
  match results with
  | [] => Ok ([], db)
  | r :: rest =>
    '(index, db) ← add_ai_output db mrn_ protocol r;
    '(indices, db) ← add_ai_outputs db mrn_ protocol rest;
    Ok (index :: indices, db)
  end.


(** ** The store: human outputs, feedback and experiment results
    ([utils/redis_manager.py]) *)

Definition _human_key (mrn_ protocol : string) (index : Z) : string :=
  mrn_ +:+ "_" +:+ protocol +:+ "_human_" +:+ pretty index.

(** [GET key]: [None] for a missing key, an error for a key that holds no
    string. *)
Definition redis_get (db : redis) (key : string) : result (option string) :=
  match db !! key with
  | None => Ok None
  | Some (RString s) => Ok (Some s)
  | Some _ => Raise ResponseError
  end.

(** [HGET key field]: [None] for a missing key or field. *)
Definition redis_hget (db : redis) (key field : string) : result (option Z) :=
  match db !! key with
  | None => Ok None
  | Some (RHash h) => Ok (h !! field)
  | Some _ => Raise ResponseError
  end.

(** [RPUSH key value]: a missing key starts a list. *)
Definition redis_rpush (db : redis) (key value : string) : result redis :=
  match db !! key with
  | None => Ok (<[ key := RList [value] ]> db)
  | Some (RList l) => Ok (<[ key := RList (l ++ [value]) ]> db)
  | Some _ => Raise ResponseError
  end.

(** The elements [start .. stop] of a list, both ends included, a negative
    index counting from the end and both ends clamped to the list. *)
Definition lrange (l : list string) (start stop : Z) : list string :=
  let len := Z.of_nat (length l) in
  let start := if decide (start < 0) then Z.max (len + start) 0 else start in
  let stop := if decide (stop < 0) then len + stop else Z.min stop (len - 1) in
  if decide (start ≤ stop) then
    take (Z.to_nat (stop - start + 1)) (drop (Z.to_nat start) l)
  else [].

(** [LRANGE key start stop]: the empty list for a missing key. *)
Definition redis_lrange (db : redis) (key : string) (start stop : Z)
    : result (list string) :=
  match db !! key with
  | None => Ok []
  | Some (RList l) => Ok (lrange l start stop)
  | Some _ => Raise ResponseError
  end.

(** [int(x)] of what [HGET] answered: [int(None)] is a [TypeError]. *)
Definition int_of_reply (reply : option Z) : result Z :=
  match reply with
  | Some n => Ok n
  | None => Raise TypeError
  end.

Definition add_human_output (db : redis) (mrn_ protocol result_ : string)
    : result (Z * redis) :=
  let master_key := _master_key mrn_ protocol in
  db ← _initialize_master_key db master_key;
  '(index, db) ← redis_hincrby db master_key "human_count" 1;
  let output_key := _human_key mrn_ protocol index in
  Ok (index, redis_set db output_key result_).

Definition get_most_recent_outputs (db : redis) (mrn_ protocol : string)
    : result (option string * option string) :=
  let master_key := _master_key mrn_ protocol in
  if negb (redis_exists db master_key) then Ok (None, None)
  else
    reply ← redis_hget db master_key "ai_count";
    ai_count ← int_of_reply reply;
    if decide (ai_count < 0) then Ok (None, None)
    else
      ai_output ← redis_get db (_ai_key mrn_ protocol ai_count);
      human_output ← redis_get db (_human_key mrn_ protocol ai_count);
      Ok (ai_output, human_output).

Definition get_latest_ai_output (db : redis) (mrn_ protocol : string)
    : result (option string) :=
  let master_key := _master_key mrn_ protocol in
  if negb (redis_exists db master_key) then Ok None
  else
    reply ← redis_hget db master_key "ai_count";
    ai_count ← int_of_reply reply;
    if decide (ai_count < 0) then Ok None
    else redis_get db (_ai_key mrn_ protocol ai_count).

Definition get_latest_human_output (db : redis) (mrn_ protocol : string)
    : result (option string) :=
  let master_key := _master_key mrn_ protocol in
  if negb (redis_exists db master_key) then Ok None
  else
    reply ← redis_hget db master_key "human_count";
    human_count ← int_of_reply reply;
    if decide (human_count < 0) then Ok None
    else redis_get db (_human_key mrn_ protocol human_count).

(** The loop [for i in range(count + 1)] of the two [get_all_*] methods:
    the outputs found under the keys of [indices], in turn. *)
Fixpoint collect_outputs (db : redis) (key_of : Z → string) (indices : list Z)
    : result (list string) :=
  match indices with
  | [] => Ok []
  | i :: rest =>
    output ← redis_get db (key_of i);
    outputs ← collect_outputs db key_of rest;
    Ok (match output with Some o => o :: outputs | None => outputs end)
  end.

(** [range(n)] *)
Definition range (n : Z) : list Z := Z.of_nat <$> seq 0 (Z.to_nat n).

Definition get_all_ai_outputs (db : redis) (mrn_ protocol : string)
    : result (list string) :=
  let master_key := _master_key mrn_ protocol in
  if negb (redis_exists db master_key) then Ok []
  else
    reply ← redis_hget db master_key "ai_count";
    ai_count ← int_of_reply reply;
    collect_outputs db (_ai_key mrn_ protocol) (range (ai_count + 1)).

Definition get_all_human_outputs (db : redis) (mrn_ protocol : string)
    : result (list string) :=
  let master_key := _master_key mrn_ protocol in
  if negb (redis_exists db master_key) then Ok []
  else
    reply ← redis_hget db master_key "human_count";
    human_count ← int_of_reply reply;
    collect_outputs db (_human_key mrn_ protocol) (range (human_count + 1)).

Definition add_human_feedback (db : redis) (feedback : string) : result redis :=
  redis_rpush db "human_feedback" feedback.

Definition get_human_feedback (db : redis) : result (list string) :=
  redis_lrange db "human_feedback" 0 (-1).

Definition experiment_key (experiment_name mrn_ protocol : string) : string :=
  "experiment:" +:+ experiment_name +:+ ":" +:+ mrn_ +:+ "_" +:+ protocol +:+ "_results".

Definition add_experiment_result (db : redis)
    (experiment_name mrn_ protocol result_ : string) : result redis :=
  redis_rpush db (experiment_key experiment_name mrn_ protocol) result_.

(** [lrange(key, 0, 0)[0]] *)
Definition get_experiment_results (db : redis)
    (experiment_name mrn_ protocol : string) : result string :=
  first ← redis_lrange db (experiment_key experiment_name mrn_ protocol) 0 0;
  match first with
  | r :: _ => Ok r
  | [] => Raise IndexError
  end.

(** ** Status counts ([utils/count_criteria_statuses.py]) *)

(** [counts[key] += 1]; the three keys are in the dict from the start, so
    the lookup never fails. *)
Definition dict_incr (key : string) (counts : gmap string Z) : gmap string Z :=
  <[ key := default 0 (counts !! key) + 1 ]> counts.

(** The body of the loop: three independent tests. *)
Definition count_criterion (counts : gmap string Z) (crit : Criterion)
    : gmap string Z :=
  let counts :=
    if decide (determination crit = Some unable_to_determine)
    then dict_incr "unable to determine" counts else counts in
  let counts :=
    if decide ((criterion_type crit = inclusion ∧ determination crit = Some not_met)
               ∨ (criterion_type crit = exclusion ∧ determination crit = Some met))
    then dict_incr "disqualifying" counts else counts in
  let counts :=
    if decide ((criterion_type crit = inclusion ∧ determination crit = Some met)
               ∨ (criterion_type crit = exclusion ∧ determination crit = Some not_met))
    then dict_incr "qualifying" counts else counts in
  counts.

(** [count_criteria_statuses] on a state object. *)
Definition count_criteria_statuses (state : TrialMatcherState) : gmap string Z :=
  foldl count_criterion
    {[ "qualifying" := 0; "disqualifying" := 0; "unable to determine" := 0 ]}
    (completed_criteria state).

(** ** The model client ([utils/azure_client.py]) *)

(** [AzureClient.chat_completions_parse]: the call to the model, decorated
    with the retry parameters of the run configuration. *)
Definition chat_completions_parse {A} (run_config_ : TrialMatcherConfig)
    (parse : nat → outcome A) : wrapper_result A * effects :=
  retry_with_exponential_backoff (max_retries run_config_) (base_wait run_config_) parse.

(** ** The criteria of the trials ([trials/__init__.py])

    The module builds [all_trial_criteria] when it is imported: for every
    trial the inclusion texts, numbered from 1, then the exclusion texts,
    numbered from 1.  A criterion is flagged when its text is a key of
    [vacuous_criteria] or of [requires_human_review], whatever trial the
    entry names. *)

Definition type_name (type : CriterionType) : string :=
  match type with inclusion => "inclusion" | exclusion => "exclusion" end.

(** The body of the two loops, for the text at position [c]. *)
Definition build_criterion (vacuous_criteria requires_human_review_ : gmap string string)
    (type : CriterionType) (c : Z) (text : string) : Criterion :=
  let crit :=
    mkCriterion (type_name type +:+ " criterion " +:+ pretty c) text type
      (Some false) (Some false) None None None None in
  let crit :=
    if decide (is_Some (vacuous_criteria !! text))
    then mkCriterion (id crit) (criterion_text crit) (criterion_type crit) (Some true)
           (requires_human_review crit) (determination crit) (explanation crit)
           (answered_by crit) (rag_docs crit)
    else crit in
  let crit :=
    if decide (is_Some (requires_human_review_ !! text))
    then mkCriterion (id crit) (criterion_text crit) (criterion_type crit) (vacuous crit)
           (Some true) (determination crit) (explanation crit)
           (answered_by crit) (rag_docs crit)
    else crit in
  crit.

(** [enumerate(texts, start=1)] *)
Definition enumerate_from_1 (texts : list string) : list (Z * string) :=
  imap (λ i text, (Z.of_nat i + 1, text)) texts.

(** The texts of a trial: [{"inclusion": [...], "exclusion": [...]}]. *)
Record TrialTexts := mkTrialTexts {
  inclusion_texts : list string;
  exclusion_texts : list string
}.

Definition build_trial (vacuous_criteria requires_human_review_ : gmap string string)
    (trialcrit : TrialTexts) : list Criterion :=
  let inc :=
    (λ p, build_criterion vacuous_criteria requires_human_review_ inclusion p.1 p.2)
      <$> enumerate_from_1 (inclusion_texts trialcrit) in
  let exc :=
    (λ p, build_criterion vacuous_criteria requires_human_review_ exclusion p.1 p.2)
      <$> enumerate_from_1 (exclusion_texts trialcrit) in
  inc ++ exc.

Definition build_all_trial_criteria
    (vacuous_criteria requires_human_review_ : gmap string string)
    (_trial_criteria : gmap string TrialTexts) : gmap string (list Criterion) :=
  build_trial vacuous_criteria requires_human_review_ <$> _trial_criteria.

(** ** The store: outputs that wait for a human ([utils/redis_manager.py]) *)

(** [s[n:]] *)
Fixpoint string_drop (n : nat) (s : string) : string :=
  match n, s with
  | O, _ => s
  | S n', String _ rest => string_drop n' rest
  | S _, EmptyString => EmptyString
  end.

(** [suffix.split("_", 1)] for a suffix that holds an underscore: the text
    before the first underscore and the text after it; [None] when "_" is
    not in the suffix. *)
Fixpoint split_once (suffix : string) : option (string * string) :=
  match suffix with
  | EmptyString => None
  | String c rest =>
    if decide (c = "_"%char) then Some (EmptyString, rest)
    else '(before, after) ← split_once rest; Some (String c before, after)
  end.

(** [range(start, stop)] *)
Definition range_from (start stop : Z) : list Z :=
  (λ i, start + Z.of_nat i) <$> seq 0 (Z.to_nat (stop - start)).

(** A task: [(mrn, protocol, task_epoch)]. *)
Abbreviation Task := (string * string * Z)%type.

Section unannotated.

(** [TrialMatcherState.model_validate_json] as far as the generator reads
    its result: the final determination and the ground truth of the
    state it parses. *)
Variable model_validate_json : string → result (option Eligibility * option Eligibility).

(** One round of the loop over the epochs: whether the epoch is yielded.
    Validation of a missing output ([None]) fails. *)
Definition epoch_task (db : redis) (incorrect_only : bool) (iteration : option Z)
    (mrn_ protocol : string) (task_epoch : Z) : result bool :=
  if match iteration with
     | Some it => bool_decide (task_epoch ≠ it)
     | None => false
     end
  then Ok false
  else
    human ← redis_get db (_human_key mrn_ protocol task_epoch);
    if human is Some _ then Ok false
    else if incorrect_only then
      output ← redis_get db (_ai_key mrn_ protocol task_epoch);
      match output with
      | None => Raise ValidationError
      | Some json =>
        '(final, truth) ← model_validate_json json;
        match final, truth with
        | Some f, Some t => if decide (f = t) then Ok false else Ok true
        | _, _ => Ok false
        end
      end
    else Ok true.

(** The generator is lazy: what it yields, and the exception that ends it
    if one is raised. *)
Fixpoint epoch_tasks (db : redis) (incorrect_only : bool) (iteration : option Z)
    (mrn_ protocol : string) (epochs : list Z) : list Task * option exn :=
  match epochs with
  | [] => ([], None)
  | task_epoch :: rest =>
    match epoch_task db incorrect_only iteration mrn_ protocol task_epoch with
    | Raise e => ([], Some e)
    | Ok false => epoch_tasks db incorrect_only iteration mrn_ protocol rest
    | Ok true =>
      let '(tasks, e) := epoch_tasks db incorrect_only iteration mrn_ protocol rest in
      ((mrn_, protocol, task_epoch) :: tasks, e)
    end
  end.

(** The body of the loop over the master keys. *)
Definition master_key_tasks (db : redis) (incorrect_only : bool)
    (iteration : option Z) (master_key : string) : list Task * option exn :=
  match redis_hget db master_key "ai_count" with
  | Raise e => ([], Some e)
  | Ok ai_count_str =>
    match redis_hget db master_key "human_count" with
    | Raise e => ([], Some e)
    | Ok human_count_str =>
      match ai_count_str, human_count_str with
      | Some ai_count, Some human_count =>
        if decide (ai_count > human_count) then
          let suffix := string_drop 7 master_key in
          match split_once suffix with
          | None => ([], None)
          | Some (mrn_, protocol) =>
            epoch_tasks db incorrect_only iteration mrn_ protocol
              (range_from (human_count + 1) (ai_count + 1))
          end
        else ([], None)
      | _, _ => ([], None)
      end
    end
  end.

(** [master_keys] is the reply of [KEYS master:*]; Redis does not fix its
    order. *)
Fixpoint _unannotated_task_generator (db : redis) (master_keys : list string)
    (incorrect_only : bool) (iteration : option Z) : list Task * option exn :=
  match master_keys with
  | [] => ([], None)
  | master_key :: rest =>
    match master_key_tasks db incorrect_only iteration master_key with
    | (tasks, Some e) => (tasks, Some e)
    | (tasks, None) =>
      let '(tasks', e) := _unannotated_task_generator db rest incorrect_only iteration in
      (tasks ++ tasks', e)
    end
  end.

(** [list(generator)] *)
Definition unannotated_tasks (db : redis) (master_keys : list string)
    (incorrect_only : bool) (iteration : option Z) : result (list Task) :=
  match _unannotated_task_generator db master_keys incorrect_only iteration with
  | (tasks, None) => Ok tasks
  | (_, Some e) => Raise e
  end.

(** The first task the generator yields, [None] when it ends without
    one. *)
Definition get_next_unannotated_task (db : redis) (master_keys : list string)
    (incorrect_only : bool) (iteration : option Z) : result (option Task) :=
  match _unannotated_task_generator db master_keys incorrect_only iteration with
  | (task :: _, _) => Ok (Some task)
  | ([], None) => Ok None
  | ([], Some e) => Raise e
  end.

End unannotated.
(** ** Vocabulary of the statements *)

Definition key_le (k1 k2 : Z * Z) : Prop := key_lt k2 k1 = false.

(** The order of the keyed list. *)
Definition keyed_le (p q : (Z * Z) * Criterion) : Prop := key_le p.1 q.1.

(** The order of the criteria a sorted keyed list holds. *)
Definition criterion_le (a b : Criterion) : Prop :=
  ∃ ka kb, sort_key a = Ok ka ∧ sort_key b = Ok kb ∧ key_le ka kb.

(** Ascending numeric suffix of the id. *)
Definition suffix_le (a b : Criterion) : Prop :=
  ∃ m n, numeric_suffix (id a) = Ok m ∧ numeric_suffix (id b) = Ok n ∧ m ≤ n.

(** A criterion the pre-pass leaves for the pipeline. *)
Definition ordinary (c : Criterion) : Prop :=
  truthy_flag (vacuous c) = false ∧ truthy_flag (requires_human_review c) = false.

#[global] Instance ordinary_dec c : Decision (ordinary c).
Proof. unfold ordinary. apply _. Defined.

(** What the pre-pass makes of a criterion. *)
Definition resolved (c : Criterion) : Criterion :=
  if truthy_flag (vacuous c) then resolve_vacuous c
  else if truthy_flag (requires_human_review c) then resolve_human_review c
  else c.

(** The addresses, from [i] on, of the criteria that stay and of those that
    move. *)
Fixpoint kept (i : nat) (l : list Criterion) : list nat :=
  match l with
  | [] => []
  | c :: rest => if decide (ordinary c) then i :: kept (S i) rest else kept (S i) rest
  end.

Fixpoint moved (i : nat) (l : list Criterion) : list nat :=
  match l with
  | [] => []
  | c :: rest => if decide (ordinary c) then moved (S i) rest else i :: moved (S i) rest
  end.

(** Two states with the same queue, the same completed list and the same
    total. *)
Definition same_buckets (s s' : TrialMatcherState) : Prop :=
  uncompleted_criteria s' = uncompleted_criteria s
  ∧ completed_criteria s' = completed_criteria s
  ∧ n_total_criteria s' = n_total_criteria s.

(** The criteria still to be consulted on are ordinary ones. *)
Definition queue_ordinary (s : TrialMatcherState) : Prop :=
  Forall ordinary (uncompleted_criteria s)
  ∧ ∀ c, active_criterion s = Some c → ordinary c.

(** A criterion is active up to the terminal check and none is after it. *)
Definition active_at (n : Node) (s : TrialMatcherState) : Prop :=
  match n with
  | make_final_determination_node | save_results_node | END =>
    active_criterion s = None
  | _ => is_Some (active_criterion s)
  end.

Definition stage_invariant (n : Node) (s : TrialMatcherState) : Prop :=
  bucket_conservation s ∧ queue_ordinary s ∧ active_at n s.

(** The experts [consult_expert] chooses from a validated answer. *)
Definition next_expert (expert_choices parsed : list string) : list string :=
  match parsed with
  | [] => if decide ("generalist" ∈ expert_choices) then ["generalist"]
          else expert_choices
  | _ => parsed
  end.

(** The waits after the failures [n], [n + 1], ... ([len] of them): the
    failure of the [k]-th call (counting from 1) is followed by
    [base_wait * 2 ^ (k - 1)]. *)
Definition waits (base_wait_ : Z) (n len : nat) : list Z :=
  (λ j, base_wait_ * 2 ^ Z.of_nat j) <$> seq n len.

(** The per-pair counter: no master key before the first call, and
    [ai_count = n - 1] after [n] calls. *)
Definition counter_at (db : redis) (mrn_ protocol : string) (n : nat) : Prop :=
  match n with
  | O => db !! _master_key mrn_ protocol = None
  | S m => ∃ h, db !! _master_key mrn_ protocol = Some (RHash h)
                ∧ h !! "ai_count" = Some (Z.of_nat m)
  end.


(** A call that adds an output for a pair, of either kind. *)
Inductive output :=
  | ai_output (result_ : string)
  | human_output (result_ : string).

Definition add_output (db : redis) (mrn_ protocol : string) (o : output)
    : result (Z * redis) :=
  match o with
  | ai_output r => add_ai_output db mrn_ protocol r
  | human_output r => add_human_output db mrn_ protocol r
  end.

(** A sequence of such calls, in any interleaving. *)
Fixpoint add_outputs (db : redis) (mrn_ protocol : string) (os : list output)
    : result (list Z * redis) :=
  match os with
  | [] => Ok ([], db)
  | o :: rest =>
    '(index, db) ← add_output db mrn_ protocol o;
    '(indices, db) ← add_outputs db mrn_ protocol rest;
    Ok (index :: indices, db)
  end.

Definition ai_results (os : list output) : list string :=
  omap (λ o, match o with ai_output r => Some r | human_output _ => None end) os.

Definition human_results (os : list output) : list string :=
  omap (λ o, match o with human_output r => Some r | ai_output _ => None end) os.

(** The index each call is expected to return: the number of earlier calls
    of its kind, on top of [a] AI and [h] human outputs. *)
Fixpoint own_counts (a h : nat) (os : list output) : list Z :=
  match os with
  | [] => []
  | ai_output _ :: rest => Z.of_nat a :: own_counts (S a) h rest
  | human_output _ :: rest => Z.of_nat h :: own_counts a (S h) rest
  end.

(** The master hash of a pair after [n] AI and [m] human outputs. *)
Definition master_state (db : redis) (mrn_ protocol : string) (n m : nat) : Prop :=
  (n = 0%nat ∧ m = 0%nat ∧ db !! _master_key mrn_ protocol = None)
  ∨ ∃ h, db !! _master_key mrn_ protocol = Some (RHash h)
         ∧ h !! "ai_count" = Some (Z.of_nat n - 1)
         ∧ h !! "human_count" = Some (Z.of_nat m - 1).

(** The store [db] holds the AI outputs [ais] and the human outputs
    [humans] of a pair on top of [db0]. *)
Definition pair_state (db0 db : redis) (mrn_ protocol : string)
    (ais humans : list string) : Prop :=
  master_state db mrn_ protocol (length ais) (length humans)
  ∧ (∀ i r, ais !! i = Some r →
       db !! _ai_key mrn_ protocol (Z.of_nat i) = Some (RString r))
  ∧ (∀ i r, humans !! i = Some r →
       db !! _human_key mrn_ protocol (Z.of_nat i) = Some (RString r))
  ∧ (∀ key, key ≠ _master_key mrn_ protocol →
       (∀ i, (i < length ais)%nat → key ≠ _ai_key mrn_ protocol (Z.of_nat i)) →
       (∀ i, (i < length humans)%nat → key ≠ _human_key mrn_ protocol (Z.of_nat i)) →
       db !! key = db0 !! key).

(** A sequence of calls of [add_human_feedback]. *)
Fixpoint add_human_feedbacks (db : redis) (feedbacks : list string) : result redis :=
  match feedbacks with
  | [] => Ok db
  | f :: rest => db ← add_human_feedback db f; add_human_feedbacks db rest
  end.

(** A sequence of calls of [add_experiment_result] for one combination. *)
Fixpoint add_experiment_results (db : redis)
    (experiment_name mrn_ protocol : string) (results : list string) : result redis :=
  match results with
  | [] => Ok db
  | r :: rest =>
    db ← add_experiment_result db experiment_name mrn_ protocol r;
    add_experiment_results db experiment_name mrn_ protocol rest
  end.

(** What a list key holds, an absent key being the empty list. *)
Definition list_at (db : redis) (key : string) (l : list string) : Prop :=
  match db !! key with
  | None => l = []
  | Some (RList l') => l' = l
  | Some _ => False
  end.

(** What makes a completed criterion qualifying, and what makes it
    undecided. *)
Definition qualifying (c : Criterion) : Prop :=
  (criterion_type c = inclusion ∧ determination c = Some met)
  ∨ (criterion_type c = exclusion ∧ determination c = Some not_met).

#[global] Instance qualifying_dec c : Decision (qualifying c).
Proof. unfold qualifying. apply _. Defined.

Definition undecided (c : Criterion) : Prop :=
  determination c = Some unable_to_determine.

#[global] Instance undecided_dec c : Decision (undecided c).
Proof. unfold undecided. apply _. Defined.

Definition determined (c : Criterion) : Prop := determination c ≠ None.

#[global] Instance determined_dec c : Decision (determined c).
Proof. unfold determined. apply _. Defined.

(** The number of elements of a list with a property. *)
Definition count_of (P : Criterion → Prop) `{∀ c, Decision (P c)}
    (l : list Criterion) : Z :=
  Z.of_nat (length (filter P l)).

(** The fragment an expert returns for the criterion [c]. *)
Definition expert_fragment (c : Criterion)
    (p : string * (list Document * string)) : StateUpdate :=
  active_update
    (Some (set_explanation (Some {[ p.1 := p.2.2 ]}) (set_rag_docs (Some p.2.1) c))).

(** Merging the answers of further experts into an explanation, and their
    documents into a list of documents. *)
Definition merged_explanation (E : gmap string string)
    (pairs : list (string * (list Document * string))) : gmap string string :=
  foldl (λ E p, dict_or E {[ p.1 := p.2.2 ]}) E pairs.

Definition merged_docs (D : list Document)
    (pairs : list (string * (list Document * string))) : list Document :=
  foldl (λ D p, D ++ filter (λ doc, doc_id doc ∉ doc_id <$> D) p.2.1) D pairs.

(** What a criterion is, as opposed to what a run finds out about it. *)
Definition static (c : Criterion)
    : string * string * CriterionType * option bool * option bool :=
  (id c, criterion_text c, criterion_type c, vacuous c, requires_human_review c).

(** All the criteria of a state: the completed ones, the active one, the
    queue. *)
Definition all_criteria (s : TrialMatcherState) : list Criterion :=
  completed_criteria s ++ option_list (active_criterion s) ++ uncompleted_criteria s.

(** The active criterion before and after a stage that works on it. *)
Definition same_static (a a' : option Criterion) : Prop :=
  match a, a' with
  | Some c, Some c' => static c' = static c
  | None, None => True
  | _, _ => False
  end.

(** How far a node is from the end of its round, and a measure of what is
    left of a run: six stages at most for each queued criterion. *)
Definition rank (n : Node) : nat :=
  match n with
  | trial_coordinator_node => 8
  | consult_expert_node => 7
  | expert_nodes _ => 6
  | principal_investigator_node => 5
  | check_explanation_node => 4
  | update_current_criterion_node => 3
  | make_final_determination_node => 2
  | save_results_node => 1
  | END => 0
  end.

Definition potential (n : Node) (s : TrialMatcherState) : nat :=
  6 * length (uncompleted_criteria s) + rank n.

(** The criteria a run works on: the trial's list, cut to
    [debug_first_n] when that option is set and not zero. *)
Definition debug_slice (cfg : TrialMatcherConfig) (criteria : list Criterion)
    : list Criterion :=
  match debug_first_n cfg with
  | Some n => if decide (n = 0) then criteria else slice_to n criteria
  | None => criteria
  end.

(** Whether the configuration asks for several experts. *)
Definition asks_for_experts (cfg : TrialMatcherConfig) : Prop :=
  match split_vectorstore_by_agent cfg with
  | Some keywords => keywords ≠ ∅
  | None => False
  end.

#[global] Instance asks_for_experts_dec cfg : Decision (asks_for_experts cfg).
Proof. unfold asks_for_experts. destruct (split_vectorstore_by_agent cfg); apply _. Defined.

(** What holds at the stage boundaries of a run under the configuration
    [cfg]: the completed criteria have a determination, and so has the
    active one once the principal investigator has judged it; at the final
    nodes nothing is queued or active; after the final determination a
    verdict is there, the rule-based one when that method is configured. *)
Definition verdict_invariant (cfg : TrialMatcherConfig) (n : Node)
    (s : TrialMatcherState) : Prop :=
  Forall determined (completed_criteria s)
  ∧ (n = check_explanation_node ∨ n = update_current_criterion_node →
     ∃ c, active_criterion s = Some c ∧ determined c)
  ∧ ((rank n ≤ 2)%nat → uncompleted_criteria s = [] ∧ active_criterion s = None)
  ∧ ((rank n ≤ 1)%nat →
     ∃ e, final_determination s = Some e
          ∧ (final_determination_method cfg = Some rule_based →
             e = rule_based_verdict (completed_criteria s))).

(** The time a wrapper has slept, in seconds. *)
Definition total_sleep (eff : effects) : Z := foldr Z.add 0 (sleeps eff).

(** The sort key of [save_results] as a function of what a criterion is:
    [sort_key] reads the id and the type only. *)
Definition static_key
    (st : string * string * CriterionType * option bool * option bool) : Z * Z :=
  (if decide (st.1.1.2 = inclusion) then -1 else 0,
   match numeric_suffix st.1.1.1.1 with Ok n => n | Raise _ => 0 end).

(** Strictly ascending keys, and ascending keys. *)
Definition static_lt
    (a b : string * string * CriterionType * option bool * option bool) : Prop :=
  key_lt (static_key a) (static_key b) = true.

Definition static_le
    (a b : string * string * CriterionType * option bool * option bool) : Prop :=
  key_le (static_key a) (static_key b).

(** What makes the generator yield the epoch [e] of the pair [(m, p)] read
    from the master key [master_key]. *)
Definition waits_for_human
    (model_validate_json : string → result (option Eligibility * option Eligibility))
    (db : redis) (incorrect_only : bool) (iteration : option Z)
    (master_key : string) (task : Task) : Prop :=
  let '(m, p, e) := task in
  ∃ h ai_count human_count,
    db !! master_key = Some (RHash h)
    ∧ h !! "ai_count" = Some ai_count ∧ h !! "human_count" = Some human_count
    ∧ human_count < e ≤ ai_count
    ∧ split_once (string_drop 7 master_key) = Some (m, p)
    ∧ db !! _human_key m p e = None
    ∧ (∀ it, iteration = Some it → e = it)
    ∧ (incorrect_only = true →
       ∃ json final truth,
         db !! _ai_key m p e = Some (RString json)
         ∧ model_validate_json json = Ok (Some final, Some truth)
         ∧ final ≠ truth).

(** Whether an epoch is the one asked for. *)
Definition requested (iteration : option Z) (e : Z) : Prop :=
  match iteration with
  | Some it => e = it
  | None => True
  end.

#[global] Instance requested_dec iteration e : Decision (requested iteration e).
Proof. unfold requested. destruct iteration; apply _. Defined.
(** ** Example inputs *)

Definition scenario_state : TrialMatcherState :=
  mkState "19-410" "1234" None [] None (Some 3)
    [ mkCriterion "inclusion criterion 1" "a" inclusion (Some false) (Some false)
        (Some met) None None None;
      mkCriterion "exclusion criterion 1" "b" exclusion (Some false) (Some false)
        (Some unable_to_determine) None None None;
      mkCriterion "exclusion criterion 2" "c" exclusion (Some false) (Some false)
        (Some met) None None None ]
    (mkConfig 5 1 (Some rule_based) (Some true) None None).


Definition snippet (name : string) : Document :=
  mkDocument (Some name) ("text of " +:+ name) {[ "type" := "note" ]}.

(** A fragment of an expert for "inclusion criterion 1". *)
Definition fragment (expert answer : string) (docs : option (list Document)) : Criterion :=
  mkCriterion "inclusion criterion 1" "Patient's age must be >= 35 years." inclusion
    (Some false) (Some false) None (Some {[ expert := answer ]}) None docs.

Definition cardiology_fragment : Criterion :=
  fragment "cardiology" "no cardiac history" (Some [snippet "n1"; snippet "n2"]).
Definition oncology_fragment : Criterion :=
  fragment "oncology" "stage II" (Some [snippet "n2"; snippet "n3"]).

(** An expert's answer whose documents were never attached. *)
Definition bare_fragment : Criterion :=
  fragment "oncology" "stage II" None.

(** An expert's answer that lists one document twice. *)
Definition repeated_fragment : Criterion :=
  fragment "oncology" "stage II" (Some [snippet "n3"; snippet "n3"]).

(** Two fragments that answer under the same name. *)
Definition first_opinion : Criterion :=
  fragment "expert" "met" (Some [snippet "n1"]).
Definition second_opinion : Criterion :=
  fragment "expert" "not met" (Some [snippet "n2"]).

Definition next_criterion : Criterion :=
  mkCriterion "inclusion criterion 2" "ECOG 0, 1 or 2." inclusion
    (Some false) (Some false) None None None None.

Definition completed (ident : string) (type : CriterionType) : Criterion :=
  mkCriterion ident "criterion" type (Some false) (Some false) (Some met)
    (Some {[ "expert" := "explained" ]}) None (Some []).

(** A run whose completed criteria are out of order. *)
Definition unordered_state : TrialMatcherState :=
  mkState "19-410" "1234" (Some eligible) [] None (Some 4)
    [ completed "exclusion criterion 2" exclusion;
      completed "inclusion criterion 10" inclusion;
      completed "exclusion criterion 1" exclusion;
      completed "inclusion criterion 9" inclusion ]
    (mkConfig 5 1 (Some rule_based) (Some true) None None).

(** A short trial: one ordinary criterion, one vacuous, one for human
    review, one exclusion. *)
Definition short_trial : list Criterion :=
  [ mkCriterion "inclusion criterion 1" "Patient's age must be >= 35 years." inclusion
      (Some false) (Some false) None None None None;
    mkCriterion "inclusion criterion 2" "Patients with T3N0 disease are eligible."
      inclusion (Some true) (Some false) None None None None;
    mkCriterion "inclusion criterion 3" "Able to provide informed consent." inclusion
      (Some false) (Some true) None None None None;
    mkCriterion "exclusion criterion 1" "Patients who are pregnant." exclusion
      (Some false) (Some false) None None None None ].

(** A criterion that carries both flags. *)
Definition both_flags : Criterion :=
  mkCriterion "inclusion criterion 1" "Consented to 12-245" inclusion
    (Some true) (Some true) None None None None.

Definition trials : gmap string (list Criterion) := {[ "19-410" := short_trial ]}.

Definition single_expert_config : TrialMatcherConfig :=
  mkConfig 5 1 (Some rule_based) (Some false) None None.

(** The stores of three experts. *)
Definition expert_stores : gmap string Vectorstore :=
  {[ "cardiology" := {[ "n1" := snippet "n1" ]};
     "oncology" := {[ "n2" := snippet "n2" ]};
     "generalist" := {[ "n3" := snippet "n3" ]} ]}.

Definition multi_expert_config : TrialMatcherConfig :=
  mkConfig 5 1 (Some rule_based) (Some true) None
    (Some {[ "cardiology" := ["cardio"]; "oncology" := ["onc"] ]}).

Definition awaiting_routing : TrialMatcherState :=
  mkState "19-410" "1234" None [next_criterion]
    (Some (mkCriterion "inclusion criterion 1" "Patient's age must be >= 35 years."
             inclusion (Some false) (Some false) None None None None))
    (Some 2) [] multi_expert_config.

(** A call that is rate-limited twice and then answers 5. *)
Definition flaky : nat → outcome Z :=
  λ n, if (n <? 2)%nat then Raises (RateLimitError 429) else Returns 5.

(** A call that is always rate-limited. *)
Definition throttled : nat → outcome Z := λ _, Raises (RateLimitError 429).

(** A store that already holds the outputs of another patient. *)
Definition other_patient_db : redis :=
  {[ "master:9999_19-410" := RHash {[ "ai_count" := 0; "human_count" := -1 ]};
     "9999_19-410_output_0" := RString "{}" ]}.

(** Completed criteria with a given determination. *)
Definition decided (ident : string) (type : CriterionType) (d : Determination) : Criterion :=
  mkCriterion ident "criterion" type (Some false) (Some false) (Some d)
    (Some {[ "expert" := "explained" ]}) None (Some []).

(** A state at the end of the loop: one criterion met, one exclusion
    criterion met, one undecided. *)
Definition judged_state : TrialMatcherState :=
  mkState "19-410" "1234" None [] None (Some 3)
    [decided "inclusion criterion 1" inclusion met;
     decided "exclusion criterion 1" exclusion met;
     decided "exclusion criterion 2" exclusion unable_to_determine]
    single_expert_config.

(** The graph of the single-expert configuration. *)
Definition single_expert_graph : Graph :=
  mkGraph single_rag false (λ _, final_determination_rule_based).

(** The state [awaiting_routing] after the bookkeeping stage: its active
    criterion is completed and the queued one is active. *)
Definition moved_on : TrialMatcherState :=
  mkState "19-410" "1234" None [] (Some next_criterion) (Some 2)
    [mkCriterion "inclusion criterion 1" "Patient's age must be >= 35 years."
       inclusion (Some false) (Some false) None None None None]
    multi_expert_config.

(** The end of a run on [short_trial] with a single expert: the two
    criteria the pre-pass settled, then the two the pipeline judged. *)
Definition finished : TrialMatcherState :=
  mkState "19-410" "1234" (Some ineligible) [] None (Some 4)
    [ mkCriterion "inclusion criterion 2" "Patients with T3N0 disease are eligible."
        inclusion (Some true) (Some false) (Some met)
        (Some {[ "rule" := "Vacuous criterion" ]}) None None;
      mkCriterion "inclusion criterion 3" "Able to provide informed consent." inclusion
        (Some false) (Some true) (Some unable_to_determine)
        (Some {[ "rule" := "Requires human review" ]}) None None;
      mkCriterion "inclusion criterion 1" "Patient's age must be >= 35 years." inclusion
        (Some false) (Some false) (Some met)
        (Some {[ "expert" := "aged 61" ]}) None (Some [snippet "n1"]);
      mkCriterion "exclusion criterion 1" "Patients who are pregnant." exclusion
        (Some false) (Some false) (Some met)
        (Some {[ "expert" := "pregnant" ]}) None (Some [snippet "n2"]) ]
    single_expert_config.

(** The texts of a small trial and the texts that are vacuous. *)
Definition example_texts : TrialTexts :=
  mkTrialTexts
    ["Patient's age must be >= 35 years."; "Patients with T3N0 disease are eligible."]
    ["Patients who are pregnant."].

Definition example_vacuous : gmap string string :=
  {[ "Patients with T3N0 disease are eligible." := "19-410" ]}.

(** A finished run on that trial: the vacuous criterion was completed
    first. *)
Definition saved_out_of_order : TrialMatcherState :=
  mkState "19-410" "1234" (Some eligible) [] None (Some 3)
    [ mkCriterion "inclusion criterion 2" "Patients with T3N0 disease are eligible."
        inclusion (Some true) (Some false) (Some met)
        (Some {[ "rule" := "Vacuous criterion" ]}) None None;
      mkCriterion "inclusion criterion 1" "Patient's age must be >= 35 years." inclusion
        (Some false) (Some false) (Some met)
        (Some {[ "expert" := "aged 61" ]}) None (Some [snippet "n1"]);
      mkCriterion "exclusion criterion 1" "Patients who are pregnant." exclusion
        (Some false) (Some false) (Some not_met)
        (Some {[ "expert" := "not pregnant" ]}) None (Some [snippet "n2"]) ]
    single_expert_config.

Definition example_trials : gmap string TrialTexts := {[ "19-410" := example_texts ]}.
(** * Properties *)

(** ** Rule-based final determination *)

Lemma rule_based_verdict_ineligible (completed : list Criterion) :
  rule_based_verdict completed = ineligible ↔ Exists disqualifying completed.
Proof.
  induction completed as [|crit rest IH]; simpl.
  - split; [discriminate | intros H; inversion H].
  - rewrite Exists_cons.
    destruct (decide (determination crit = Some unable_to_determine)) as [Hu|Hu].
    + rewrite IH. unfold disqualifying. rewrite Hu. intuition congruence.
    + destruct (decide (criterion_type crit = inclusion
                        ∧ determination crit = Some not_met)) as [Hi|Hi].
      { unfold disqualifying. tauto. }
      destruct (decide (criterion_type crit = exclusion
                        ∧ determination crit = Some met)) as [He|He].
      { unfold disqualifying. tauto. }
      rewrite IH. unfold disqualifying. tauto.
Qed.

Lemma rule_based_verdict_eligible (completed : list Criterion) :
  rule_based_verdict completed = eligible ↔ ¬ Exists disqualifying completed.
Proof.
  rewrite <- rule_based_verdict_ineligible.
  destruct (rule_based_verdict completed); intuition congruence.
Qed.

(** Criteria that are "unable to determine" take no part in the verdict. *)
Lemma rule_based_verdict_skips_unable (completed : list Criterion) :
  rule_based_verdict completed =
  rule_based_verdict
    (filter (λ c, determination c ≠ Some unable_to_determine) completed).
Proof.
  induction completed as [|crit rest IH]; [done|].
  destruct (decide (determination crit = Some unable_to_determine)) as [Hu|Hu].
  - rewrite filter_cons_False by (intros H; by apply H). simpl.
    by rewrite decide_True.
  - rewrite filter_cons_True by done. simpl.
    destruct (decide (determination crit = Some unable_to_determine)); [done|].
    by rewrite IH.
Qed.

Lemma bucket_count_alt (s : TrialMatcherState) :
  (let n := Z.of_nat (length (completed_criteria s))
            + Z.of_nat (length (uncompleted_criteria s)) in
   if active_criterion s is Some _ then n + 1 else n) = bucket_count s.
Proof. unfold bucket_count. destruct (active_criterion s); lia. Qed.

Lemma final_determination_rule_based_ok (state : TrialMatcherState) :
  bucket_conservation state →
  final_determination_rule_based state =
  Ok (set_final_determination
        (Some (rule_based_verdict (completed_criteria state))) state).
Proof.
  intros Hn. unfold final_determination_rule_based.
  rewrite bucket_count_alt. by rewrite decide_True.
Qed.

(** C1.  When the three buckets add up to [n_total_criteria], the rule-based
    final determination returns the state with a verdict that is
    "ineligible" exactly when some completed criterion is an inclusion
    criterion "not met" or an exclusion criterion "met", and "eligible"
    otherwise; criteria "unable to determine" are skipped (the verdict is
    that of the list without them).  The verdict is a function of the
    completed list alone: any state with the same list gets the same one,
    and running the stage again on its own result changes nothing. *)
Theorem final_determination_rule_based_spec (state : TrialMatcherState) :
  bucket_conservation state →
  ∃ verdict,
    final_determination_rule_based state
      = Ok (set_final_determination (Some verdict) state)
    ∧ (verdict = ineligible ↔
        ∃ c, c ∈ completed_criteria state ∧ disqualifying c)
    ∧ (verdict = eligible ↔
        ¬ ∃ c, c ∈ completed_criteria state ∧ disqualifying c)
    ∧ verdict = rule_based_verdict
        (filter (λ c, determination c ≠ Some unable_to_determine)
           (completed_criteria state))
    ∧ (∀ state', bucket_conservation state' →
        completed_criteria state' = completed_criteria state →
        final_determination_rule_based state'
          = Ok (set_final_determination (Some verdict) state'))
    ∧ final_determination_rule_based (set_final_determination (Some verdict) state)
        = Ok (set_final_determination (Some verdict) state).
Proof.
  intros Hn. exists (rule_based_verdict (completed_criteria state)).
  split; [by apply final_determination_rule_based_ok|].
  split; [by rewrite rule_based_verdict_ineligible, Exists_exists|].
  split; [by rewrite rule_based_verdict_eligible, Exists_exists|].
  split; [apply rule_based_verdict_skips_unable|].
  split.
  - intros state' Hn' Hc. rewrite <- Hc. by apply final_determination_rule_based_ok.
  - by rewrite final_determination_rule_based_ok.
Qed.

Lemma final_determination_rule_based_spec_witness :
  ∃ verdict,
    final_determination_rule_based scenario_state
      = Ok (set_final_determination (Some verdict) scenario_state)
    ∧ verdict = ineligible.
Proof.
  destruct (final_determination_rule_based_spec scenario_state)
    as (verdict & Hrun & Hinel & _).
  { reflexivity. }
  exists verdict. split; [exact Hrun|].
  apply Hinel.
  exists (mkCriterion "exclusion criterion 2" "c" exclusion (Some false) (Some false)
            (Some met) None None None).
  split; [|right; split; reflexivity].
  apply list_elem_of_lookup. by exists 2%nat.
Defined.

(** The scenarios of the rule: all inclusion criteria met and no exclusion
    criterion met; one inclusion criterion not met; one exclusion criterion
    met; a criterion that is "unable to determine", as either type. *)
Example rule_based_all_clear :
  rule_based_verdict
    [ decided "inclusion criterion 1" inclusion met;
      decided "inclusion criterion 2" inclusion met;
      decided "exclusion criterion 1" exclusion not_met ] = eligible.
Proof. reflexivity. Qed.

Example rule_based_inclusion_not_met :
  rule_based_verdict
    [ decided "inclusion criterion 1" inclusion met;
      decided "inclusion criterion 2" inclusion not_met;
      decided "exclusion criterion 1" exclusion not_met ] = ineligible.
Proof. reflexivity. Qed.

Example rule_based_exclusion_met :
  rule_based_verdict
    [ decided "inclusion criterion 1" inclusion met;
      decided "exclusion criterion 1" exclusion met ] = ineligible.
Proof. reflexivity. Qed.

Example rule_based_unable_either_type :
  rule_based_verdict
    [ decided "inclusion criterion 1" inclusion unable_to_determine;
      decided "inclusion criterion 2" inclusion met ]
  = rule_based_verdict
    [ decided "inclusion criterion 1" exclusion unable_to_determine;
      decided "inclusion criterion 2" inclusion met ].
Proof. reflexivity. Qed.

(** ** The branch-merge reducer *)

Lemma dict_or_lookup (a b : gmap string string) (k : string) :
  dict_or a b !! k = if b !! k is Some v then Some v else a !! k.
Proof.
  unfold dict_or. rewrite lookup_union.
  destruct (b !! k), (a !! k); reflexivity.
Qed.

Lemma dict_or_dom (a b : gmap string string) :
  dom (dict_or a b) = dom a ∪ dom b.
Proof. unfold dict_or. rewrite dom_union_L. set_solver. Qed.

Lemma truthy_dict_Some (m : gmap string string) :
  m ≠ ∅ → truthy_dict (Some m) = true.
Proof. intros H. simpl. by apply bool_decide_eq_true. Qed.

(** The merge branch, when both fragments carry documents. *)
Lemma reducer_merge (current update : Criterion) ec eu cdocs udocs :
  id current = id update →
  explanation current = Some ec → explanation update = Some eu →
  ec ≠ ∅ → eu ≠ ∅ → ec ≠ eu →
  rag_docs current = Some cdocs → rag_docs update = Some udocs →
  active_criterion_reducer (Some current) (Some update) =
  Ok (Some (set_rag_docs
              (Some (cdocs ++ filter (λ doc, doc_id doc ∉ doc_id <$> cdocs) udocs))
              (set_explanation (Some (dict_or ec eu)) current))).
Proof.
  intros Hid Hec Heu Hnc Hnu Hne Hcd Hud. unfold active_criterion_reducer.
  rewrite decide_True by done. rewrite Hec, Heu.
  rewrite decide_False by congruence.
  rewrite !truthy_dict_Some by done. simpl. by rewrite Hcd, Hud.
Qed.

(** The merge branch, when one of them carries none. *)
Lemma reducer_merge_no_docs (current update : Criterion) ec eu :
  id current = id update →
  explanation current = Some ec → explanation update = Some eu →
  ec ≠ ∅ → eu ≠ ∅ → ec ≠ eu →
  rag_docs current = None ∨ rag_docs update = None →
  active_criterion_reducer (Some current) (Some update) = Raise TypeError.
Proof.
  intros Hid Hec Heu Hnc Hnu Hne Hdocs. unfold active_criterion_reducer.
  rewrite decide_True by done. rewrite Hec, Heu.
  rewrite decide_False by congruence.
  rewrite !truthy_dict_Some by done. simpl.
  destruct (rag_docs current) as [cdocs|]; [|done].
  destruct Hdocs as [?|Hud]; [done|]. by rewrite Hud.
Qed.

Lemma reducer_replace (current update : Criterion) :
  id current ≠ id update →
  active_criterion_reducer (Some current) (Some update) = Ok (Some update).
Proof. intros Hid. unfold active_criterion_reducer. by rewrite decide_False. Qed.

Lemma merged_ids_NoDup (cdocs udocs : list Document) :
  NoDup (doc_id <$> cdocs) → NoDup (doc_id <$> udocs) →
  NoDup (doc_id <$> cdocs ++ filter (λ doc, doc_id doc ∉ doc_id <$> cdocs) udocs).
Proof.
  intros Hc Hu. rewrite fmap_app. apply NoDup_app. split; [done|]. split.
  - intros i Hi Hi'. apply list_elem_of_fmap in Hi' as (doc & -> & Hdoc).
    apply list_elem_of_filter in Hdoc as [Hnot _]. by apply Hnot.
  - clear Hc. induction udocs as [|doc udocs IH]; [constructor|].
    apply NoDup_cons in Hu as [Hdoc Hu]. rewrite filter_cons.
    destruct (decide (doc_id doc ∉ doc_id <$> cdocs)); [|by apply IH].
    rewrite fmap_cons. apply NoDup_cons. split; [|by apply IH].
    intros Hin. apply Hdoc. apply list_elem_of_fmap in Hin as (d & Hd & Hin).
    apply list_elem_of_filter in Hin as [_ Hin].
    apply list_elem_of_fmap. by exists d.
Qed.

(** C3, amended.  For fragments of the same id whose explanation maps are
    non-empty and unequal and which both carry a list of documents, the
    reducer returns [current] with the union of the two maps (a key of both
    takes the value of [update]) and with [current.rag_docs] followed by
    the documents of [update] whose id does not occur in [current.rag_docs]:
    no appended document repeats an identity of [current], and the result
    repeats none at all when neither list did.  For a fragment of another
    id the result is [update] itself. *)
Theorem active_criterion_reducer_spec (current update : Criterion) :
  (id update = id current →
   ∀ ec eu cdocs udocs,
     explanation current = Some ec → explanation update = Some eu →
     ec ≠ ∅ → eu ≠ ∅ → ec ≠ eu →
     rag_docs current = Some cdocs → rag_docs update = Some udocs →
     ∃ merged e docs,
       active_criterion_reducer (Some current) (Some update) = Ok (Some merged)
       ∧ merged = set_rag_docs (Some (cdocs ++ docs)) (set_explanation (Some e) current)
       ∧ dom e = dom ec ∪ dom eu
       ∧ (∀ k, e !! k = if eu !! k is Some v then Some v else ec !! k)
       ∧ docs = filter (λ doc, doc_id doc ∉ doc_id <$> cdocs) udocs
       ∧ (∀ doc, doc ∈ docs → doc ∈ udocs ∧ doc_id doc ∉ doc_id <$> cdocs)
       ∧ (NoDup (doc_id <$> cdocs) → NoDup (doc_id <$> udocs) →
          NoDup (doc_id <$> cdocs ++ docs)))
  ∧ (id update ≠ id current →
     active_criterion_reducer (Some current) (Some update) = Ok (Some update)).
Proof.
  split.
  - intros Hid ec eu cdocs udocs Hec Heu Hnc Hnu Hne Hcd Hud.
    eexists _, (dict_or ec eu), _.
    split; [by eapply reducer_merge|]. split; [reflexivity|].
    split; [apply dict_or_dom|]. split; [apply dict_or_lookup|].
    split; [reflexivity|]. split.
    + intros doc Hdoc. apply list_elem_of_filter in Hdoc. tauto.
    + apply merged_ids_NoDup.
  - intros Hid. by apply reducer_replace.
Qed.

Lemma singleton_ne_empty (k v : string) : ({[ k := v ]} : gmap string string) ≠ ∅.
Proof. apply insert_non_empty. Qed.

Lemma singleton_ne (k1 v1 k2 v2 : string) :
  (k1, v1) ≠ (k2, v2) →
  ({[ k1 := v1 ]} : gmap string string) ≠ {[ k2 := v2 ]}.
Proof.
  intros Hne Heq. apply Hne.
  assert (({[ k2 := v2 ]} : gmap string string) !! k1 = Some v1) as Hl.
  { rewrite <- Heq. apply lookup_singleton_eq. }
  apply lookup_singleton_Some in Hl as [-> ->]. done.
Qed.

Lemma active_criterion_reducer_spec_witness :
  (∃ merged,
     active_criterion_reducer (Some cardiology_fragment) (Some oncology_fragment)
       = Ok (Some merged)
     ∧ rag_docs merged = Some [snippet "n1"; snippet "n2"; snippet "n3"])
  ∧ active_criterion_reducer (Some cardiology_fragment) (Some next_criterion)
      = Ok (Some next_criterion).
Proof.
  split.
  - destruct (proj1 (active_criterion_reducer_spec cardiology_fragment oncology_fragment)
                eq_refl
                {[ "cardiology" := "no cardiac history" ]} {[ "oncology" := "stage II" ]}
                [snippet "n1"; snippet "n2"] [snippet "n2"; snippet "n3"])
      as (merged & e & docs & Hrun & -> & _ & _ & -> & _).
    + reflexivity.
    + reflexivity.
    + apply singleton_ne_empty.
    + apply singleton_ne_empty.
    + by apply singleton_ne.
    + reflexivity.
    + reflexivity.
    + eexists. split; [exact Hrun|]. vm_compute. reflexivity.
  - apply (proj2 (active_criterion_reducer_spec cardiology_fragment next_criterion)).
    discriminate.
Defined.

(** C3: the claim as stated fails.  On a fragment that carries no
    documents its hypotheses hold and the reducer raises instead of
    returning a result; and on a fragment that lists a new document twice
    the result repeats that document's identity. *)
Lemma active_criterion_reducer_limits :
  (id bare_fragment = id cardiology_fragment
   ∧ explanation cardiology_fragment = Some {[ "cardiology" := "no cardiac history" ]}
   ∧ explanation bare_fragment = Some {[ "oncology" := "stage II" ]}
   ∧ ({[ "cardiology" := "no cardiac history" ]} : gmap string string) ≠ ∅
   ∧ ({[ "oncology" := "stage II" ]} : gmap string string) ≠ ∅
   ∧ ({[ "cardiology" := "no cardiac history" ]} : gmap string string)
       ≠ {[ "oncology" := "stage II" ]}
   ∧ rag_docs bare_fragment = None
   ∧ active_criterion_reducer (Some cardiology_fragment) (Some bare_fragment)
       = Raise TypeError)
  ∧ (∃ merged,
       id repeated_fragment = id cardiology_fragment
       ∧ explanation repeated_fragment = Some {[ "oncology" := "stage II" ]}
       ∧ active_criterion_reducer (Some cardiology_fragment) (Some repeated_fragment)
           = Ok (Some merged)
       ∧ rag_docs merged
           = Some [snippet "n1"; snippet "n2"; snippet "n3"; snippet "n3"]
       ∧ ¬ NoDup (doc_id <$> [snippet "n1"; snippet "n2"; snippet "n3"; snippet "n3"])).
Proof.
  split.
  - repeat split; try reflexivity.
    + apply singleton_ne_empty.
    + apply singleton_ne_empty.
    + by apply singleton_ne.
  - eexists. split; [reflexivity|]. split; [reflexivity|].
    split; [vm_compute; reflexivity|]. split; [reflexivity|].
    intros Hnd. simpl in Hnd.
    apply NoDup_cons in Hnd as [_ Hnd]. apply NoDup_cons in Hnd as [_ Hnd].
    apply NoDup_cons in Hnd as [Hin _]. apply Hin. left.
Qed.

(** C10.  In the merge branch (same id, explanation maps non-empty and
    unequal) the reducer iterates over both [rag_docs]: it raises when
    either is [None], and it returns a merged criterion exactly when both
    fragments carry a list. *)
Theorem active_criterion_reducer_partial (current update : Criterion) ec eu :
  id current = id update →
  explanation current = Some ec → explanation update = Some eu →
  ec ≠ ∅ → eu ≠ ∅ → ec ≠ eu →
  (rag_docs current = None ∨ rag_docs update = None →
   active_criterion_reducer (Some current) (Some update) = Raise TypeError)
  ∧ (is_ok (active_criterion_reducer (Some current) (Some update)) ↔
     is_Some (rag_docs current) ∧ is_Some (rag_docs update)).
Proof.
  intros Hid Hec Heu Hnc Hnu Hne. split.
  - by eapply reducer_merge_no_docs.
  - split.
    + intros Hok.
      destruct (rag_docs current) as [cdocs|] eqn:Hcd;
        [destruct (rag_docs update) as [udocs|] eqn:Hud|].
      * split; by eexists.
      * rewrite (reducer_merge_no_docs current update ec eu) in Hok; auto. done.
      * rewrite (reducer_merge_no_docs current update ec eu) in Hok; auto. done.
    + intros [[cdocs Hcd] [udocs Hud]].
      by rewrite (reducer_merge current update ec eu cdocs udocs).
Qed.

Lemma active_criterion_reducer_partial_witness :
  active_criterion_reducer (Some bare_fragment) (Some cardiology_fragment)
    = Raise TypeError.
Proof.
  apply (active_criterion_reducer_partial bare_fragment cardiology_fragment
           {[ "oncology" := "stage II" ]} {[ "cardiology" := "no cardiac history" ]}).
  - reflexivity.
  - reflexivity.
  - reflexivity.
  - apply singleton_ne_empty.
  - apply singleton_ne_empty.
  - by apply singleton_ne.
  - by left.
Defined.

(** *** Order of the merge *)

Lemma dict_or_comm (a b : gmap string string) :
  (∀ k va vb, a !! k = Some va → b !! k = Some vb → va = vb) →
  dict_or a b = dict_or b a.
Proof.
  intros Hagree. apply map_eq. intros k. rewrite !dict_or_lookup.
  destruct (a !! k) as [va|] eqn:Ha, (b !! k) as [vb|] eqn:Hb; try done.
  f_equal. symmetry. by eapply Hagree.
Qed.

Lemma dict_or_subseteq_r (a b : gmap string string) : b ⊆ dict_or a b.
Proof. apply map_union_subseteq_l. Qed.

Lemma dict_or_subseteq_l (a b : gmap string string) :
  (∀ k va vb, a !! k = Some va → b !! k = Some vb → va = vb) →
  a ⊆ dict_or a b.
Proof. intros Hagree. rewrite dict_or_comm by done. apply dict_or_subseteq_r. Qed.

(** The explanation the reducer leaves for two fragments of one id that
    both carry documents. *)
Lemma reducer_same_id_explanation (A B : Criterion) ea eb :
  id A = id B →
  explanation A = Some ea → explanation B = Some eb →
  ea ≠ ∅ → eb ≠ ∅ →
  is_Some (rag_docs A) → is_Some (rag_docs B) →
  ∃ ab, active_criterion_reducer (Some A) (Some B) = Ok (Some ab)
        ∧ explanation ab = Some (dict_or ea eb).
Proof.
  intros Hid Hea Heb Hna Hnb [adocs Had] [bdocs Hbd].
  destruct (decide (ea = eb)) as [->|Hne].
  - exists A. split.
    + unfold active_criterion_reducer. rewrite decide_True by done.
      rewrite decide_True by congruence. done.
    + rewrite Hea. f_equal. unfold dict_or. by rewrite (idemp_L (∪)).
  - eexists. split; [by eapply reducer_merge|]. reflexivity.
Qed.

Lemma reducer_fresh_current (cur A : Criterion) ea :
  id cur = id A → explanation cur = None → explanation A = Some ea → ea ≠ ∅ →
  active_criterion_reducer (Some cur) (Some A) = Ok (Some A).
Proof.
  intros Hid Hcur Hea Hna. unfold active_criterion_reducer.
  rewrite decide_True by done. rewrite Hcur, Hea.
  rewrite decide_False by done. simpl.
  by rewrite bool_decide_eq_true_2.
Qed.

(** C4, amended.  For two fragments [A] and [B] of one criterion id, each
    with a non-empty explanation map and a list of documents, whose maps
    agree on every key they share (as the maps of two experts do, each
    keyed by its own name): merging [A] then [B] and merging [B] then [A]
    leave the same explanation map, it contains every key-value pair of
    both, and the same holds when the two reach a channel whose current
    criterion has no explanation yet. *)
Theorem explanation_merge_commutes (A B : Criterion) ea eb :
  id A = id B →
  explanation A = Some ea → explanation B = Some eb →
  ea ≠ ∅ → eb ≠ ∅ →
  is_Some (rag_docs A) → is_Some (rag_docs B) →
  (∀ k va vb, ea !! k = Some va → eb !! k = Some vb → va = vb) →
  ∃ ab ba e,
    active_criterion_reducer (Some A) (Some B) = Ok (Some ab)
    ∧ active_criterion_reducer (Some B) (Some A) = Ok (Some ba)
    ∧ explanation ab = Some e ∧ explanation ba = Some e
    ∧ ea ⊆ e ∧ eb ⊆ e
    ∧ (∀ cur, id cur = id A → explanation cur = None →
       ∃ r1 r2,
         fan_in (Some cur) [A; B] = Ok (Some r1)
         ∧ fan_in (Some cur) [B; A] = Ok (Some r2)
         ∧ explanation r1 = Some e ∧ explanation r2 = Some e).
Proof.
  intros Hid Hea Heb Hna Hnb Hda Hdb Hagree.
  destruct (reducer_same_id_explanation A B ea eb) as (ab & Hab & Heab); try done.
  destruct (reducer_same_id_explanation B A eb ea) as (ba & Hba & Heba); try done.
  assert (dict_or eb ea = dict_or ea eb) as Hcomm.
  { symmetry. by apply dict_or_comm. }
  rewrite Hcomm in Heba.
  exists ab, ba, (dict_or ea eb).
  split; [done|]. split; [done|]. split; [done|].
  split; [done|].
  split; [by apply dict_or_subseteq_l|]. split; [apply dict_or_subseteq_r|].
  intros cur Hcur Hnone. exists ab, ba.
  unfold fan_in. cbn [foldl mbind result_bind].
  rewrite (reducer_fresh_current cur A ea) by done.
  rewrite (reducer_fresh_current cur B eb) by congruence.
  cbn [mbind result_bind]. rewrite Hab, Hba. done.
Qed.

Lemma explanation_merge_commutes_witness :
  ∃ ab ba e,
    active_criterion_reducer (Some cardiology_fragment) (Some oncology_fragment)
      = Ok (Some ab)
    ∧ active_criterion_reducer (Some oncology_fragment) (Some cardiology_fragment)
      = Ok (Some ba)
    ∧ explanation ab = Some e ∧ explanation ba = Some e
    ∧ e !! "cardiology" = Some "no cardiac history"
    ∧ e !! "oncology" = Some "stage II".
Proof.
  destruct (explanation_merge_commutes cardiology_fragment oncology_fragment
              {[ "cardiology" := "no cardiac history" ]} {[ "oncology" := "stage II" ]})
    as (ab & ba & e & Hab & Hba & Heab & Heba & Hsa & Hsb & _).
  - reflexivity.
  - reflexivity.
  - reflexivity.
  - apply singleton_ne_empty.
  - apply singleton_ne_empty.
  - by eexists.
  - by eexists.
  - intros k va vb Ha Hb.
    apply lookup_singleton_Some in Ha as [<- _].
    apply lookup_singleton_Some in Hb as [Hk _]. discriminate Hk.
  - exists ab, ba, e. repeat split; try done.
    + eapply lookup_weaken; [|exact Hsa]. apply lookup_singleton_eq.
    + eapply lookup_weaken; [|exact Hsb]. apply lookup_singleton_eq.
Defined.

(** C4: the claim as stated fails for two fragments that answer under the
    same key: the explanation left depends on the order, and the entry of
    the first contributor is gone. *)
Lemma explanation_merge_order_matters :
  ∃ ab ba,
    active_criterion_reducer (Some first_opinion) (Some second_opinion) = Ok (Some ab)
    ∧ active_criterion_reducer (Some second_opinion) (Some first_opinion) = Ok (Some ba)
    ∧ explanation first_opinion = Some {[ "expert" := "met" ]}
    ∧ explanation ab = Some {[ "expert" := "not met" ]}
    ∧ explanation ba = Some {[ "expert" := "met" ]}
    ∧ explanation ab ≠ explanation ba.
Proof.
  eexists _, _.
  split; [vm_compute; reflexivity|]. split; [vm_compute; reflexivity|].
  split; [reflexivity|]. split; [vm_compute; reflexivity|].
  split; [vm_compute; reflexivity|].
  vm_compute. discriminate.
Qed.

(** ** Ordering of the persisted criteria *)

Lemma key_lt_spec (k1 k2 : Z * Z) :
  key_lt k1 k2 = true ↔ k1.1 < k2.1 ∨ (k1.1 = k2.1 ∧ k1.2 < k2.2).
Proof.
  unfold key_lt. rewrite orb_true_iff, andb_true_iff.
  rewrite !Z.ltb_lt, Z.eqb_eq. reflexivity.
Qed.

Lemma key_le_spec (k1 k2 : Z * Z) :
  key_le k1 k2 ↔ k1.1 < k2.1 ∨ (k1.1 = k2.1 ∧ k1.2 ≤ k2.2).
Proof.
  unfold key_le. rewrite <- not_true_iff_false, key_lt_spec. lia.
Qed.

Lemma key_lt_le (k1 k2 : Z * Z) : key_lt k1 k2 = true → key_le k1 k2.
Proof. rewrite key_lt_spec, key_le_spec. lia. Qed.

Lemma key_le_trans (k1 k2 k3 : Z * Z) : key_le k1 k2 → key_le k2 k3 → key_le k1 k3.
Proof. rewrite !key_le_spec. lia. Qed.

Lemma insert_by_key_Permutation x l : insert_by_key x l ≡ₚ x :: l.
Proof.
  induction l as [|y rest IH]; simpl; [done|].
  destruct (key_lt y.1 x.1); [|done].
  rewrite IH. apply Permutation_swap.
Qed.

Lemma insert_by_key_sorted x l :
  StronglySorted keyed_le l → StronglySorted keyed_le (insert_by_key x l).
Proof.
  induction l as [|y rest IH]; simpl; intros Hs.
  - repeat constructor.
  - apply StronglySorted_inv in Hs as [Hrest Hy].
    destruct (key_lt y.1 x.1) eqn:Hlt.
    + constructor; [by apply IH|].
      rewrite insert_by_key_Permutation. constructor; [|done].
      by apply key_lt_le.
    + constructor; [by constructor|].
      constructor; [exact Hlt|].
      eapply Forall_impl; [exact Hy|].
      intros z Hz. eapply key_le_trans; [exact Hlt|exact Hz].
Qed.

Lemma sorted_by_key_Permutation l : sorted_by_key l ≡ₚ l.
Proof.
  induction l as [|x rest IH]; simpl; [done|].
  by rewrite insert_by_key_Permutation, IH.
Qed.

Lemma sorted_by_key_sorted l : StronglySorted keyed_le (sorted_by_key l).
Proof.
  induction l as [|x rest IH]; simpl; [constructor|].
  by apply insert_by_key_sorted.
Qed.

(** The sort is stable: the elements of one key keep their order. *)
Lemma insert_by_key_stable (k : Z * Z) x l :
  filter (λ p, p.1 = k) (insert_by_key x l) = filter (λ p, p.1 = k) (x :: l).
Proof.
  induction l as [|y rest IH]; simpl; [done|].
  destruct (key_lt y.1 x.1) eqn:Hlt; [|done].
  rewrite filter_cons, IH, !filter_cons.
  destruct (decide (y.1 = k)) as [Hy|Hy]; [|done].
  destruct (decide (x.1 = k)) as [Hx|Hx]; [|done].
  apply key_lt_spec in Hlt. rewrite Hy, Hx in Hlt. lia.
Qed.

Lemma sorted_by_key_stable (k : Z * Z) l :
  filter (λ p, p.1 = k) (sorted_by_key l) = filter (λ p, p.1 = k) l.
Proof.
  induction l as [|x rest IH]; simpl; [done|].
  by rewrite insert_by_key_stable, !filter_cons, IH.
Qed.

Lemma sort_keys_ok (l : list Criterion) :
  Forall (λ c, is_ok (numeric_suffix (id c))) l →
  ∃ ks, sort_keys l = Ok ks ∧ ks.*2 = l
        ∧ Forall (λ p, sort_key p.2 = Ok p.1) ks.
Proof.
  induction l as [|x rest IH]; intros Hall.
  - exists []. by repeat split.
  - apply Forall_cons in Hall as [Hx Hrest].
    destruct (IH Hrest) as (ks & Hks & Hsnd & Hkeys).
    destruct (numeric_suffix (id x)) as [n|] eqn:Hn; [|done].
    eexists ((_, x) :: ks). simpl. unfold sort_key at 1. rewrite Hn. simpl.
    rewrite Hks. simpl. split; [reflexivity|]. split; [f_equal; exact Hsnd|].
    constructor; [|done]. simpl. unfold sort_key. by rewrite Hn.
Qed.

Lemma keyed_sorted_criteria (ks : list ((Z * Z) * Criterion)) :
  Forall (λ p, sort_key p.2 = Ok p.1) ks →
  StronglySorted keyed_le ks → StronglySorted criterion_le ks.*2.
Proof.
  induction ks as [|p ks IH]; intros Hkeys Hs; [constructor|].
  apply Forall_cons in Hkeys as [Hp Hkeys].
  apply StronglySorted_inv in Hs as [Hs Hle].
  rewrite fmap_cons. constructor; [by apply IH|].
  rewrite Forall_fmap. rewrite Forall_forall in Hkeys, Hle.
  apply Forall_forall. intros q Hq. exists p.1, q.1.
  split; [done|]. split; [by apply Hkeys|]. by apply Hle.
Qed.

(** A sorted list splits at the point where a property closed under the
    order sets in. *)
Lemma sorted_split {A} (R : relation A) (P : A → Prop) `{∀ x, Decision (P x)}
    (l : list A) :
  (∀ a b, R a b → ¬ P a → ¬ P b) →
  StronglySorted R l →
  l = filter P l ++ filter (λ x, ¬ P x) l.
Proof.
  intros Hup. induction l as [|a rest IH]; intros Hs; [done|].
  apply StronglySorted_inv in Hs as [Hrest Ha].
  destruct (decide (P a)) as [Hp|Hp].
  - rewrite filter_cons_True by done.
    rewrite (filter_cons_False (λ x, ¬ P x)) by tauto.
    simpl. f_equal. by apply IH.
  - rewrite filter_cons_False by done. rewrite filter_cons_True by done.
    assert (Forall (λ x, ¬ P x) rest) as Hnone.
    { eapply Forall_impl; [exact Ha|]. intros b Hb. by eapply Hup. }
    assert (filter P rest = []) as ->.
    { clear -Hnone. induction Hnone as [|b rest Hb _ IH]; [done|].
      by rewrite filter_cons_False. }
    simpl. f_equal.
    clear -Hnone. induction Hnone as [|b rest Hb _ IH]; [done|].
    rewrite filter_cons_True by done. by f_equal.
Qed.

Lemma StronglySorted_filter {A} (R : relation A) (P : A → Prop)
    `{∀ x, Decision (P x)} (l : list A) :
  StronglySorted R l → StronglySorted R (filter P l).
Proof.
  induction 1 as [|a rest Hs IH Ha]; [constructor|].
  rewrite filter_cons. destruct (decide (P a)); [|done].
  constructor; [done|].
  apply Forall_forall. intros b Hb. apply list_elem_of_filter in Hb as [_ Hb].
  rewrite Forall_forall in Ha. by apply Ha.
Qed.

Lemma StronglySorted_weaken {A} (R R' : relation A) (P : A → Prop) (l : list A) :
  (∀ a b, P a → P b → R a b → R' a b) →
  Forall P l → StronglySorted R l → StronglySorted R' l.
Proof.
  intros Hw Hall Hs. induction Hs as [|a rest Hs IH Ha]; [constructor|].
  apply Forall_cons in Hall as [Hpa Hall].
  constructor; [by apply IH|].
  rewrite Forall_forall in Ha, Hall. apply Forall_forall.
  intros b Hb. apply Hw; auto.
Qed.

Lemma sort_key_inv (c : Criterion) (k : Z * Z) :
  sort_key c = Ok k →
  numeric_suffix (id c) = Ok k.2
  ∧ k.1 = (if decide (criterion_type c = inclusion) then -1 else 0).
Proof.
  unfold sort_key. destruct (numeric_suffix (id c)) as [n|]; simpl; [|done].
  intros [= <-]. done.
Qed.

Lemma criterion_le_same_type (a b : Criterion) :
  criterion_type a = criterion_type b → criterion_le a b → suffix_le a b.
Proof.
  intros Ht (ka & kb & Ha & Hb & Hle).
  apply sort_key_inv in Ha as [Hna Hta]. apply sort_key_inv in Hb as [Hnb Htb].
  exists ka.2, kb.2. split; [done|]. split; [done|].
  apply key_le_spec in Hle. rewrite Hta, Htb, Ht in Hle. lia.
Qed.

Lemma criterion_le_exclusion_up (a b : Criterion) :
  criterion_le a b → criterion_type a ≠ inclusion → criterion_type b ≠ inclusion.
Proof.
  intros (ka & kb & Ha & Hb & Hle) Hna Hib.
  apply sort_key_inv in Ha as [_ Hta]. apply sort_key_inv in Hb as [_ Htb].
  apply key_le_spec in Hle.
  rewrite decide_False in Hta by done. rewrite decide_True in Htb by done. lia.
Qed.

Lemma sorted_completed_criteria_spec (l : list Criterion) :
  Forall (λ c, is_ok (numeric_suffix (id c))) l →
  ∃ sorted, sorted_completed_criteria l = Ok sorted
            ∧ sorted ≡ₚ l ∧ StronglySorted criterion_le sorted.
Proof.
  intros Hall. destruct (sort_keys_ok l Hall) as (ks & Hks & Hsnd & Hkeys).
  exists (sorted_by_key ks).*2. unfold sorted_completed_criteria.
  rewrite Hks. simpl. split; [done|]. split.
  - rewrite <- Hsnd. by rewrite sorted_by_key_Permutation.
  - apply keyed_sorted_criteria; [|apply sorted_by_key_sorted].
    by rewrite sorted_by_key_Permutation.
Qed.

(** Any list in the order of the keys is the inclusion criteria by
    ascending suffix followed by the exclusion criteria by ascending
    suffix, whichever way it was sorted. *)
Lemma key_order_layout (sorted : list Criterion) :
  StronglySorted criterion_le sorted →
  ∃ incs excs,
    sorted = incs ++ excs
    ∧ Forall (λ c, criterion_type c = inclusion) incs
    ∧ Forall (λ c, criterion_type c = exclusion) excs
    ∧ StronglySorted suffix_le incs
    ∧ StronglySorted suffix_le excs.
Proof.
  intros Hs.
  exists (filter (λ c, criterion_type c = inclusion) sorted),
         (filter (λ c, criterion_type c ≠ inclusion) sorted).
  split.
  { apply (sorted_split criterion_le (λ c, criterion_type c = inclusion));
      [intros a b; apply criterion_le_exclusion_up|done]. }
  assert (Forall (λ c, criterion_type c = inclusion)
            (filter (λ c, criterion_type c = inclusion) sorted)) as Hincs.
  { apply Forall_forall. intros c Hc. by apply list_elem_of_filter in Hc as [? _]. }
  assert (Forall (λ c, criterion_type c = exclusion)
            (filter (λ c, criterion_type c ≠ inclusion) sorted)) as Hexcs.
  { apply Forall_forall. intros c Hc. apply list_elem_of_filter in Hc as [Hc _].
    by destruct (criterion_type c). }
  split; [done|]. split; [done|]. split.
  - eapply StronglySorted_weaken; [|exact Hincs|by apply StronglySorted_filter].
    intros a b Ha Hb. apply criterion_le_same_type. congruence.
  - eapply StronglySorted_weaken; [|exact Hexcs|by apply StronglySorted_filter].
    intros a b Ha Hb. apply criterion_le_same_type. congruence.
Qed.

Example numeric_suffix_of_id : numeric_suffix "inclusion criterion 12" = Ok 12.
Proof. reflexivity. Qed.

Example numeric_suffix_missing : numeric_suffix "inclusion criterion" = Raise ValueError.
Proof. reflexivity. Qed.

Example numeric_suffix_empty : numeric_suffix "" = Raise IndexError.
Proof. reflexivity. Qed.

(** C5.  Whatever the order of the completed criteria, as long as every id
    ends in a numeric token, [save_results] serialises them as the
    inclusion criteria in ascending order of the numeric suffix of their
    id, followed by the exclusion criteria in ascending order of theirs;
    the list is a reordering of the input. *)
Theorem save_results_order (state : TrialMatcherState) :
  Forall (λ c, is_ok (numeric_suffix (id c))) (completed_criteria state) →
  ∃ incs excs,
    save_results state = Ok (set_completed_criteria (incs ++ excs) state)
    ∧ incs ++ excs ≡ₚ completed_criteria state
    ∧ Forall (λ c, criterion_type c = inclusion) incs
    ∧ Forall (λ c, criterion_type c = exclusion) excs
    ∧ StronglySorted suffix_le incs
    ∧ StronglySorted suffix_le excs.
Proof.
  intros Hall.
  destruct (sorted_completed_criteria_spec _ Hall) as (sorted & Hrun & Hperm & Hs).
  destruct (key_order_layout sorted Hs) as (incs & excs & -> & Hlayout).
  exists incs, excs.
  split; [unfold save_results; by rewrite Hrun|]. by split.
Qed.

Lemma save_results_order_witness :
  ∃ incs excs,
    save_results unordered_state
      = Ok (set_completed_criteria (incs ++ excs) unordered_state)
    ∧ incs ++ excs =
        [ completed "inclusion criterion 9" inclusion;
          completed "inclusion criterion 10" inclusion;
          completed "exclusion criterion 1" exclusion;
          completed "exclusion criterion 2" exclusion ].
Proof.
  destruct (save_results_order unordered_state) as (incs & excs & Hrun & _).
  { repeat constructor. }
  exists incs, excs. split; [exact Hrun|].
  vm_compute in Hrun. injection Hrun as Hl. symmetry. exact Hl.
Defined.

(** ** The pre-pass *)

Lemma resolved_ordinary (c : Criterion) : ordinary c → resolved c = c.
Proof. intros [Hv Hr]. unfold resolved. by rewrite Hv, Hr. Qed.

Lemma resolved_not_ordinary (c : Criterion) : ¬ ordinary c → ¬ ordinary (resolved c).
Proof.
  unfold ordinary, resolved. intros Hc.
  destruct (truthy_flag (vacuous c)) eqn:Hv; simpl; [rewrite Hv; intros [? _]; done|].
  destruct (truthy_flag (requires_human_review c)) eqn:Hr; simpl.
  - rewrite Hr. intros [_ ?]; done.
  - tauto.
Qed.

Lemma kept_cons_ordinary i c rest : ordinary c → kept i (c :: rest) = i :: kept (S i) rest.
Proof. intros Hc. simpl. by rewrite decide_True. Qed.

Lemma kept_cons_moved i c rest : ¬ ordinary c → kept i (c :: rest) = kept (S i) rest.
Proof. intros Hc. simpl. by rewrite decide_False. Qed.

Lemma moved_cons_ordinary i c rest : ordinary c → moved i (c :: rest) = moved (S i) rest.
Proof. intros Hc. simpl. by rewrite decide_True. Qed.

Lemma moved_cons_moved i c rest :
  ¬ ordinary c → moved i (c :: rest) = i :: moved (S i) rest.
Proof. intros Hc. simpl. by rewrite decide_False. Qed.

Lemma resolved_vacuous (c : Criterion) :
  truthy_flag (vacuous c) = true → resolved c = resolve_vacuous c.
Proof. intros Hv. unfold resolved. by rewrite Hv. Qed.

Lemma resolved_human_review (c : Criterion) :
  truthy_flag (vacuous c) = false → truthy_flag (requires_human_review c) = true →
  resolved c = resolve_human_review c.
Proof. intros Hv Hr. unfold resolved. by rewrite Hv, Hr. Qed.

(** [list.remove] passes over the objects that differ and takes the object
    itself. *)
Lemma list_remove_own (h : heap) (a : nat) (front back : list nat) :
  (∀ b, b ∈ front → h !! b ≠ h !! a) →
  list_remove h a (front ++ a :: back) = Some (front ++ back).
Proof.
  intros Hfront. induction front as [|b front IH]; simpl.
  - by rewrite decide_True.
  - rewrite decide_False by (apply Hfront; left).
    rewrite IH; [done|]. intros b' Hb'. apply Hfront. by right.
Qed.

Lemma prepass_body_moves (hd rest : list Criterion) (c c' : Criterion)
    (front back comp : list nat) :
  ¬ ordinary c' →
  (∀ b, b ∈ front → ∃ cb, hd !! b = Some cb ∧ ordinary cb) →
  list_remove (<[length hd := c']> (hd ++ c :: rest)) (length hd)
    (front ++ length hd :: back) = Some (front ++ back)
  ∧ <[length hd := c']> (hd ++ c :: rest) = (hd ++ [c']) ++ rest.
Proof.
  intros Hc' Hfront.
  assert (<[length hd := c']> (hd ++ c :: rest) = (hd ++ [c']) ++ rest) as Hins.
  { rewrite insert_app_r_alt by lia. rewrite Nat.sub_diag. simpl.
    by rewrite <- app_assoc. }
  split; [|done]. rewrite Hins. apply list_remove_own.
  intros b Hb. destruct (Hfront b Hb) as (cb & Hcb & Hord).
  rewrite <- app_assoc. simpl.
  rewrite (list_lookup_middle hd rest c' (length hd)) by done.
  rewrite lookup_app_l by (by eapply lookup_lt_Some).
  rewrite Hcb. intros [= ->]. done.
Qed.

Lemma prepass_loop_spec (rest hd : list Criterion) (front comp : list nat) :
  (∀ b, b ∈ front → ∃ cb, hd !! b = Some cb ∧ ordinary cb) →
  prepass_loop (seq (length hd) (length rest))
    (mkPrepass (hd ++ rest) (front ++ seq (length hd) (length rest)) comp)
  = Ok (mkPrepass (hd ++ (resolved <$> rest))
          (front ++ kept (length hd) rest) (comp ++ moved (length hd) rest)).
Proof.
  revert hd front comp. induction rest as [|c rest IH]; intros hd front comp Hfront.
  - simpl. by rewrite !app_nil_r.
  - cbn [length seq prepass_loop]. unfold prepass_body at 1.
    cbn [objects initial_uncomplete initial_complete].
    rewrite (list_lookup_middle hd rest c (length hd)) by done.
    assert (S (length hd) = length (hd ++ [c])) as Hlen.
    { rewrite length_app. simpl. lia. }
    assert (∀ c', S (length hd) = length (hd ++ [c'])) as Hlen'.
    { intros c'. rewrite length_app. simpl. lia. }
    assert (∀ c' b, b ∈ front → ∃ cb, (hd ++ [c']) !! b = Some cb ∧ ordinary cb)
      as Hfront'.
    { intros c' b Hb. destruct (Hfront b Hb) as (cb & Hcb & Hord).
      exists cb. split; [|done]. by apply lookup_app_l_Some. }
    destruct (truthy_flag (vacuous c)) eqn:Hv.
    + assert (¬ ordinary c) as Hc by (intros [? _]; congruence).
      assert (¬ ordinary (resolve_vacuous c)) as Hc'.
      { intros [Hv' _]. simpl in Hv'. congruence. }
      destruct (prepass_body_moves hd rest c (resolve_vacuous c) front
                  (seq (S (length hd)) (length rest)) comp Hc' Hfront) as [-> ->].
      cbn [mbind result_bind]. rewrite (Hlen' (resolve_vacuous c)).
      rewrite IH by apply Hfront'.
      rewrite <- (Hlen' (resolve_vacuous c)).
      rewrite kept_cons_moved, moved_cons_moved, fmap_cons by done.
      rewrite resolved_vacuous by done. by rewrite <- !app_assoc.
    + destruct (truthy_flag (requires_human_review c)) eqn:Hr.
      * assert (¬ ordinary c) as Hc by (intros [_ ?]; congruence).
        assert (¬ ordinary (resolve_human_review c)) as Hc'.
        { intros [_ Hr']. simpl in Hr'. congruence. }
        destruct (prepass_body_moves hd rest c (resolve_human_review c) front
                    (seq (S (length hd)) (length rest)) comp Hc' Hfront) as [-> ->].
        cbn [mbind result_bind]. rewrite (Hlen' (resolve_human_review c)).
        rewrite IH by apply Hfront'.
        rewrite <- (Hlen' (resolve_human_review c)).
        rewrite kept_cons_moved, moved_cons_moved, fmap_cons by done.
        rewrite resolved_human_review by done. by rewrite <- !app_assoc.
      * assert (ordinary c) as Hc by done.
        cbn [mbind result_bind].
        replace (hd ++ c :: rest) with ((hd ++ [c]) ++ rest)
          by (by rewrite <- app_assoc).
        replace (front ++ length hd :: seq (S (length hd)) (length rest))
          with ((front ++ [length hd]) ++ seq (S (length hd)) (length rest))
          by (by rewrite <- app_assoc).
        rewrite Hlen. rewrite IH.
        -- rewrite <- Hlen.
           rewrite kept_cons_ordinary, moved_cons_ordinary, fmap_cons by done.
           rewrite resolved_ordinary by done. by rewrite <- !app_assoc.
        -- intros b Hb. apply elem_of_app in Hb as [Hb|Hb].
           ++ by apply Hfront'.
           ++ apply list_elem_of_singleton in Hb as ->.
              exists c. split; [|done]. by apply list_lookup_middle.
Qed.

Lemma deref_cons (h : heap) (a : nat) (l : list nat) :
  deref h (a :: l) = match h !! a with Some c => c :: deref h l | None => deref h l end.
Proof. reflexivity. Qed.

Lemma deref_kept (hd rest : list Criterion) :
  deref (hd ++ (resolved <$> rest)) (kept (length hd) rest) = filter ordinary rest.
Proof.
  revert hd. induction rest as [|c rest IH]; intros hd; [done|].
  assert (hd ++ (resolved <$> c :: rest) = (hd ++ [resolved c]) ++ (resolved <$> rest))
    as Happ by (by rewrite <- app_assoc).
  assert (S (length hd) = length (hd ++ [resolved c])) as Hlen.
  { rewrite length_app. simpl. lia. }
  rewrite Happ. destruct (decide (ordinary c)) as [Hc|Hc].
  - rewrite kept_cons_ordinary, filter_cons_True by done.
    rewrite deref_cons.
    rewrite lookup_app_l by (rewrite <- Hlen; lia).
    rewrite (list_lookup_middle hd [] (resolved c) (length hd)) by done.
    rewrite (resolved_ordinary c) at 1 by done. f_equal.
    rewrite Hlen. apply IH.
  - rewrite kept_cons_moved, filter_cons_False by done.
    rewrite Hlen. apply IH.
Qed.

Lemma deref_moved (hd rest : list Criterion) :
  deref (hd ++ (resolved <$> rest)) (moved (length hd) rest)
  = resolved <$> filter (λ c, ¬ ordinary c) rest.
Proof.
  revert hd. induction rest as [|c rest IH]; intros hd; [done|].
  assert (hd ++ (resolved <$> c :: rest) = (hd ++ [resolved c]) ++ (resolved <$> rest))
    as Happ by (by rewrite <- app_assoc).
  assert (S (length hd) = length (hd ++ [resolved c])) as Hlen.
  { rewrite length_app. simpl. lia. }
  rewrite Happ. destruct (decide (ordinary c)) as [Hc|Hc].
  - rewrite moved_cons_ordinary by done.
    rewrite filter_cons_False by tauto.
    rewrite Hlen. apply IH.
  - rewrite moved_cons_moved, filter_cons_True by done.
    rewrite deref_cons.
    rewrite lookup_app_l by (rewrite <- Hlen; lia).
    rewrite (list_lookup_middle hd [] (resolved c) (length hd)) by done.
    rewrite fmap_cons. f_equal.
    rewrite Hlen. apply IH.
Qed.

(** The pre-pass as a partition of the trial's criteria. *)
Lemma prepass_partition (trial_criteria : list Criterion) :
  prepass trial_criteria
  = Ok (filter ordinary trial_criteria,
        resolved <$> filter (λ c, ¬ ordinary c) trial_criteria).
Proof.
  unfold prepass.
  pose proof (prepass_loop_spec trial_criteria [] [] []) as Hloop.
  simpl in Hloop. rewrite Hloop by (intros b Hb; inversion Hb).
  cbn [mbind result_bind objects initial_uncomplete initial_complete].
  pose proof (deref_kept [] trial_criteria) as Hk.
  pose proof (deref_moved [] trial_criteria) as Hm.
  simpl in Hk, Hm. by rewrite Hk, Hm.
Qed.

(** ** The pipeline *)

#[local] Arguments active_criterion_reducer : simpl never.

Lemma reducer_Some (c u : Criterion) (r : option Criterion) :
  active_criterion_reducer (Some c) (Some u) = Ok r →
  ∃ c', r = Some c' ∧ (ordinary c → ordinary u → ordinary c').
Proof.
  unfold active_criterion_reducer. intros Hr.
  repeat match type of Hr with
         | context [decide ?P] => destruct (decide P)
         | context [if ?b then _ else _] => destruct b
         | context [match ?o with Some _ => _ | None => _ end] => destruct o
         end; try discriminate; injection Hr as <-;
    (eexists; split; [reflexivity|]; unfold ordinary; simpl; tauto).
Qed.

Lemma apply_update_none (s : TrialMatcherState) : apply_update s no_update = Ok s.
Proof. by destruct s. Qed.

Lemma apply_update_active (s s' : TrialMatcherState) (c u : Criterion) :
  active_criterion s = Some c →
  apply_update s (active_update (Some u)) = Ok s' →
  ∃ c', active_criterion s' = Some c' ∧ same_buckets s s'
        ∧ (ordinary c → ordinary u → ordinary c').
Proof.
  intros Hc. unfold apply_update. simpl. rewrite Hc.
  destruct (active_criterion_reducer (Some c) (Some u)) as [r|] eqn:Hr;
    cbn [mbind result_bind]; [|done].
  apply reducer_Some in Hr as (c' & -> & Hord).
  intros [= <-]. exists c'. split; [done|]. split; [|done]. by split.
Qed.

Lemma reducer_refl (c : Criterion) :
  active_criterion_reducer (Some c) (Some c) = Ok (Some c).
Proof. unfold active_criterion_reducer. by rewrite !decide_True. Qed.

(** A stage that changed the active criterion in place and returns it. *)
Lemma run_stage_in_place (s : TrialMatcherState) (c : Criterion) :
  run_stage (Ok (set_active_criterion (Some c) s, active_update (Some c)))
  = Ok (set_active_criterion (Some c) s).
Proof.
  unfold run_stage, apply_update. simpl. by rewrite reducer_refl.
Qed.

Lemma stage_invariant_transfer (n n' : Node) (s s' : TrialMatcherState) (c c' : Criterion) :
  stage_invariant n s →
  active_criterion s = Some c → active_criterion s' = Some c' →
  same_buckets s s' → (ordinary c → ordinary c') →
  is_Some (active_criterion s') → active_at n' s' →
  stage_invariant n' s'.
Proof.
  intros (Hb & [Hq Ha] & _) Hc Hc' (Hu & Hd & Hn) Hord _ Hat.
  split; [|split; [split|done]].
  - unfold bucket_conservation, bucket_count in *.
    rewrite Hn, Hu, Hd, Hc'. by rewrite Hc in Hb.
  - by rewrite Hu.
  - rewrite Hc'. intros ? [= <-]. apply Hord. by apply Ha.
Qed.

Lemma stage_invariant_node (n n' : Node) (s : TrialMatcherState) :
  stage_invariant n s → active_at n' s → stage_invariant n' s.
Proof. intros (? & ? & _) ?. by split. Qed.

Lemma apply_updates_cons (s : TrialMatcherState) (u : StateUpdate) (us : list StateUpdate) :
  apply_updates s (u :: us) = (s1 ← apply_update s u; apply_updates s1 us).
Proof.
  unfold apply_updates. simpl. destruct (apply_update s u) as [s1|e]; [done|].
  simpl. induction us as [|u' us IH]; [done|]. simpl. exact IH.
Qed.

Lemma consult_agents_fragments (names : list string)
    (answers : list (list Document * string)) (s : TrialMatcherState)
    (us : list StateUpdate) (c : Criterion) :
  active_criterion s = Some c →
  consult_agents names answers s = Ok us →
  Forall (λ u, ∃ f, u = active_update (Some f) ∧ (ordinary c → ordinary f)) us.
Proof.
  intros Hc. revert answers us.
  induction names as [|name names IH]; intros [|[docs answer] answers] us; simpl;
    try discriminate.
  - intros [= <-]. constructor.
  - unfold consult_agent. rewrite Hc. simpl.
    destruct (consult_agents names answers s) as [us'|] eqn:Hus;
      cbn [mbind result_bind]; [|done].
    intros [= <-]. constructor; [|by eapply IH].
    eexists. split; [reflexivity|]. intros Hord. exact Hord.
Qed.

Lemma apply_updates_fragments (us : list StateUpdate) (s s' : TrialMatcherState)
    (c0 c : Criterion) :
  Forall (λ u, ∃ f, u = active_update (Some f) ∧ (ordinary c0 → ordinary f)) us →
  active_criterion s = Some c →
  (ordinary c0 → ordinary c) →
  apply_updates s us = Ok s' →
  ∃ c', active_criterion s' = Some c' ∧ same_buckets s s'
        ∧ (ordinary c0 → ordinary c').
Proof.
  intros Hus. revert s c. induction Hus as [|u us (f & -> & Hf) _ IH]; intros s c Hc Hord.
  - intros [= <-]. exists c. split; [done|]. split; [|done]. by split.
  - rewrite apply_updates_cons.
    destruct (apply_update s (active_update (Some f))) as [s1|] eqn:Hs1;
      cbn [mbind result_bind]; [|done].
    intros Hrest.
    destruct (apply_update_active s s1 c f Hc Hs1) as (c1 & Hc1 & (Hu1 & Hd1 & Hn1) & Hord1).
    destruct (IH s1 c1 Hc1) as (c' & Hc' & (Hu & Hd & Hn) & Hord'); [by auto|done|].
    exists c'. split; [done|]. split; [|done].
    repeat split; congruence.
Qed.

Lemma build_graph_final_node (cfg : TrialMatcherConfig)
    (stores : gmap string Vectorstore) (g : Graph) :
  build_graph cfg stores = Ok g →
  ∀ verdict s s', final_determination_node g verdict s = Ok s' →
  ∃ e, s' = set_final_determination (Some e) s.
Proof.
  assert (∀ node, get_final_determination_node (final_determination_method cfg) = Ok node →
          ∀ verdict s s', node verdict s = Ok s' →
          ∃ e, s' = set_final_determination (Some e) s) as Hnode.
  { intros node Hnode verdict s s'. unfold get_final_determination_node in Hnode.
    destruct (final_determination_method cfg) as [[]|]; try discriminate;
      injection Hnode as <-.
    - unfold final_determination_rule_based. case_decide; [|done].
      intros [= <-]. by eexists.
    - intros [= <-]. by eexists.
    - intros [= <-]. by eexists. }
  assert (∀ g, _build_graph_single_rag cfg = Ok g →
          ∀ verdict s s', final_determination_node g verdict s = Ok s' →
          ∃ e, s' = set_final_determination (Some e) s) as Hsingle.
  { intros g'. unfold _build_graph_single_rag.
    destruct (get_final_determination_node _) as [node|] eqn:Hn;
      cbn [mbind result_bind]; [|done].
    intros [= <-]. simpl. by apply Hnode. }
  assert (∀ g, _build_graph_multi_expert_branching cfg stores = Ok g →
          ∀ verdict s s', final_determination_node g verdict s = Ok s' →
          ∃ e, s' = set_final_determination (Some e) s) as Hmulti.
  { intros g'. unfold _build_graph_multi_expert_branching. case_decide; [done|].
    destruct (get_final_determination_node _) as [node|] eqn:Hn;
      cbn [mbind result_bind]; [|done].
    intros [= <-]. simpl. by apply Hnode. }
  unfold build_graph. destruct (split_vectorstore_by_agent cfg) as [kw|]; [|by apply Hsingle].
  case_decide; [by apply Hsingle|].
  destruct (_build_graph_multi_expert_branching cfg stores) as [g'|] eqn:Hg'.
  - intros [= <-]. by apply Hmulti.
  - by apply Hsingle.
Qed.

Lemma update_current_criterion_last (s : TrialMatcherState) (current : Criterion) :
  active_criterion s = Some current → uncompleted_criteria s = [] →
  run_stage (update_current_criterion s)
  = Ok (mkState (trial_id s) (mrn s) (final_determination s) [] None
          (n_total_criteria s) (completed_criteria s ++ [current]) (run_config s)).
Proof.
  intros Hc Hu. unfold run_stage, update_current_criterion. rewrite Hc, Hu. reflexivity.
Qed.

Lemma update_current_criterion_next (s : TrialMatcherState)
    (current next : Criterion) (rest : list Criterion) :
  active_criterion s = Some current → uncompleted_criteria s = next :: rest →
  id next ≠ id current →
  run_stage (update_current_criterion s)
  = Ok (mkState (trial_id s) (mrn s) (final_determination s) rest (Some next)
          (n_total_criteria s) (completed_criteria s ++ [current]) (run_config s)).
Proof.
  intros Hc Hu Hid. unfold run_stage, update_current_criterion. rewrite Hc, Hu.
  cbn [mbind result_bind]. unfold apply_update. simpl. rewrite Hc.
  rewrite reducer_replace by done. reflexivity.
Qed.

(** What the stage leaves whenever the merge of its update goes through. *)
Lemma update_current_criterion_inv (s s' : TrialMatcherState) (current : Criterion) :
  active_criterion s = Some current →
  run_stage (update_current_criterion s) = Ok s' →
  completed_criteria s' = completed_criteria s ++ [current]
  ∧ uncompleted_criteria s' = tail (uncompleted_criteria s)
  ∧ n_total_criteria s' = n_total_criteria s
  ∧ match uncompleted_criteria s with
    | [] => active_criterion s' = None
    | next :: _ =>
      ∃ c', active_criterion s' = Some c' ∧ (ordinary current → ordinary next → ordinary c')
    end.
Proof.
  intros Hc. unfold run_stage, update_current_criterion. rewrite Hc.
  destruct (uncompleted_criteria s) as [|next rest] eqn:Hu.
  - cbn [mbind result_bind]. unfold apply_update. simpl. intros [= <-]. simpl.
    split; [done|]. split; [done|]. by split.
  - cbn [mbind result_bind]. unfold apply_update. simpl. rewrite Hc.
    destruct (active_criterion_reducer (Some current) (Some next)) as [r|] eqn:Hr;
      cbn [mbind result_bind]; [|done].
    apply reducer_Some in Hr as (c' & -> & Hord). intros [= <-]. simpl.
    split; [done|]. split; [done|]. split; [done|]. eauto.
Qed.

Lemma update_current_criterion_bucket (s s' : TrialMatcherState) (current : Criterion) :
  bucket_conservation s →
  active_criterion s = Some current →
  run_stage (update_current_criterion s) = Ok s' →
  bucket_conservation s'.
Proof.
  intros Hb Hc Hrun.
  destruct (update_current_criterion_inv s s' current Hc Hrun) as (Hd & Hu & Hn & Ha).
  unfold bucket_conservation, bucket_count in *.
  rewrite Hn, Hb, Hc, Hd, Hu, length_app. f_equal.
  destruct (uncompleted_criteria s) as [|next rest]; simpl.
  - rewrite Ha. lia.
  - destruct Ha as (c' & -> & _). lia.
Qed.

Lemma step_preserves (cfg : TrialMatcherConfig) (stores : gmap string Vectorstore)
    (g : Graph) (n n' : Node) (s s' : TrialMatcherState) :
  build_graph cfg stores = Ok g →
  stage_invariant n s → step g (n, s) (n', s') → stage_invariant n' s'.
Proof.
  intros Hg Hinv Hstep. inversion Hstep; subst; clear Hstep.
  - (* coordinator, one expert *)
    match goal with H : trial_coordinator _ = Ok _ |- _ =>
      unfold trial_coordinator in H; destruct (active_criterion s) eqn:Hc; [|done];
      injection H as <- end.
    rewrite apply_update_none in *. simplify_eq.
    eapply stage_invariant_node; [exact Hinv|]. simpl. rewrite Hc. by eexists.
  - (* coordinator, router *)
    match goal with H : trial_coordinator _ = Ok _ |- _ =>
      unfold trial_coordinator in H; destruct (active_criterion s) eqn:Hc; [|done];
      injection H as <- end.
    rewrite apply_update_none in *. simplify_eq.
    eapply stage_invariant_node; [exact Hinv|]. simpl. rewrite Hc. by eexists.
  - (* router *)
    match goal with H : run_stage (consult_expert _ _ _) = Ok _ |- _ =>
      unfold consult_expert in H; destruct (active_criterion s) as [c|] eqn:Hc; [|done];
      destruct (ExpertChoice _ _) as [parsed|]; [|done];
      cbn [mbind result_bind] in H; rewrite run_stage_in_place in H; injection H as <- end.
    eapply (stage_invariant_transfer _ _ s _ c); eauto; try done;
      try (simpl; by eexists).
  - (* experts *)
    destruct Hinv as (Hb & Hq & [c Hc]).
    match goal with H : consult_agents _ _ _ = Ok _ |- _ =>
      pose proof (consult_agents_fragments _ _ _ _ c Hc H) as Hus end.
    match goal with H : apply_updates _ _ = Ok _ |- _ =>
      destruct (apply_updates_fragments _ _ _ c c Hus Hc (λ x, x) H)
        as (c' & Hc' & Hsame & Hord) end.
    eapply (stage_invariant_transfer (expert_nodes names) _ s _ c c'); eauto;
      try (simpl; by eexists).
    split; [done|]. split; [done|]. simpl. by eexists.
  - (* principal investigator *)
    match goal with H : run_stage (principal_investigator _ _) = Ok _ |- _ =>
      unfold principal_investigator in H; destruct (active_criterion s) as [c|] eqn:Hc; [|done];
      rewrite run_stage_in_place in H; injection H as <- end.
    eapply (stage_invariant_transfer _ _ s _ c); eauto; try done;
      try (simpl; by eexists).
    destruct (checks_explanations g); simpl; by eexists.
  - (* explanation check *)
    match goal with H : run_stage (check_explanation _ _) = Ok _ |- _ =>
      unfold check_explanation in H; destruct (active_criterion s) as [c|] eqn:Hc; [|done];
      destruct check as [|revised] end.
    + match goal with H : run_stage _ = Ok _ |- _ =>
        unfold run_stage in H; cbn [mbind result_bind] in H;
        rewrite apply_update_none in H; injection H as <- end.
      eapply stage_invariant_node; [exact Hinv|]. simpl. rewrite Hc. by eexists.
    + destruct (explanation c) as [e|]; [|done].
      match goal with H : run_stage _ = Ok _ |- _ =>
        unfold run_stage in H; cbn [mbind result_bind] in H;
        rewrite apply_update_none in H; injection H as <- end.
      eapply (stage_invariant_transfer _ _ s _ c); eauto; try done;
        try (simpl; by eexists).
  - (* advance *)
    destruct Hinv as (Hb & [Hq Ha] & [c Hc]).
    match goal with H : run_stage (update_current_criterion _) = Ok _ |- _ =>
      pose proof (update_current_criterion_bucket _ _ c Hb Hc H) as Hb';
      destruct (update_current_criterion_inv _ _ c Hc H) as (Hd & Hu & Hn & Hact) end.
    split; [done|]. split.
    + split.
      * rewrite Hu. destruct (uncompleted_criteria s); simpl; [done|].
        by apply Forall_cons in Hq as [_ ?].
      * destruct (uncompleted_criteria s) as [|next rest].
        -- rewrite Hact. done.
        -- destruct Hact as (c' & -> & Hord). intros ? [= <-].
           apply Forall_cons in Hq as [? _]. auto.
    + unfold check_if_done.
      destruct (active_criterion s') eqn:Hs'; simpl; [by rewrite Hs'|done].
  - (* final determination *)
    match goal with H : final_determination_node _ _ _ = Ok _ |- _ =>
      destruct (build_graph_final_node cfg stores g Hg _ _ _ H) as [e ->] end.
    destruct Hinv as (? & ? & ?). split; [done|]. split; done.
  - (* persistence *)
    by eapply stage_invariant_node; [exact Hinv|destruct Hinv as (_ & _ & ?)].
Qed.

Lemma initial_state_invariant (all_trial_criteria : gmap string (list Criterion))
    (mrn_ trial_id_ : string) (cfg : TrialMatcherConfig) (s0 : TrialMatcherState) :
  initial_state all_trial_criteria mrn_ trial_id_ cfg = Ok s0 →
  stage_invariant trial_coordinator_node s0.
Proof.
  unfold initial_state.
  destruct (all_trial_criteria !! trial_id_) as [criteria|]; [|done].
  set (trial_criteria := match debug_first_n cfg with
                         | Some n => _ | None => _ end).
  rewrite prepass_partition. cbn [mbind result_bind].
  unfold assert_all_handled. case_decide as Hlen; [|done].
  cbn [mbind result_bind].
  destruct (filter ordinary trial_criteria) as [|a rest] eqn:Hf; [done|].
  intros [= <-].
  assert (Forall ordinary (a :: rest)) as Hord.
  { rewrite <- Hf. apply Forall_forall. intros c Hc.
    by apply list_elem_of_filter in Hc as [? _]. }
  apply Forall_cons in Hord as [Ha Hrest].
  split; [|split; [split|]]; simpl.
  - unfold bucket_conservation, bucket_count. simpl in *. f_equal. lia.
  - done.
  - by intros ? [= <-].
  - by eexists.
Qed.

Lemma reachable_invariant (cfg : TrialMatcherConfig) (stores : gmap string Vectorstore)
    (g : Graph) (s0 : TrialMatcherState) (n : Node) (s : TrialMatcherState) :
  build_graph cfg stores = Ok g →
  stage_invariant trial_coordinator_node s0 →
  reachable g s0 n s → stage_invariant n s.
Proof.
  intros Hg H0 Hreach. induction Hreach as [|n s n' s' _ IH Hstep]; [done|].
  by eapply step_preserves.
Qed.

(** C2.  A run starts in the state [initial_state] builds (vacuous and
    human-review criteria resolved into [completed], the first criterion of
    the queue made active).  At every stage boundary the run reaches,
    [len(uncompleted) + (1 if active else 0) + len(completed)] equals
    [n_total_criteria].  In particular, where [update_current_criterion] is
    about to run a criterion is active, and the stage keeps the sum: it
    appends the active criterion to [completed], drops the head of
    [uncompleted], and leaves no active criterion when the queue was empty
    and one otherwise; it goes through when the queue is empty, and with
    the head as the new active criterion when the head's id differs from
    the active one's. *)
Theorem bucket_conservation_invariant
    (all_trial_criteria : gmap string (list Criterion)) (mrn_ trial_id_ : string)
    (cfg : TrialMatcherConfig) (stores : gmap string Vectorstore)
    (g : Graph) (s0 : TrialMatcherState) :
  initial_state all_trial_criteria mrn_ trial_id_ cfg = Ok s0 →
  build_graph cfg stores = Ok g →
  ∀ n s, reachable g s0 n s →
    bucket_conservation s
    ∧ (n = update_current_criterion_node →
       ∃ current,
         active_criterion s = Some current
         ∧ (∀ s', run_stage (update_current_criterion s) = Ok s' →
              bucket_conservation s'
              ∧ completed_criteria s' = completed_criteria s ++ [current]
              ∧ uncompleted_criteria s' = tail (uncompleted_criteria s)
              ∧ (uncompleted_criteria s = [] → active_criterion s' = None)
              ∧ (uncompleted_criteria s ≠ [] → is_Some (active_criterion s')))
         ∧ (uncompleted_criteria s = [] →
              is_ok (run_stage (update_current_criterion s)))
         ∧ (∀ next rest,
              uncompleted_criteria s = next :: rest → id next ≠ id current →
              ∃ s', run_stage (update_current_criterion s) = Ok s'
                    ∧ active_criterion s' = Some next)).
Proof.
  intros Hinit Hg n s Hreach.
  apply initial_state_invariant in Hinit.
  destruct (reachable_invariant cfg stores g s0 n s Hg Hinit Hreach) as (Hb & Hq & Hat).
  split; [done|]. intros ->. destruct Hat as [current Hc].
  exists current. split; [done|]. split; [|split].
  - intros s' Hrun.
    destruct (update_current_criterion_inv s s' current Hc Hrun) as (Hd & Hu & Hn & Ha).
    split; [by eapply update_current_criterion_bucket|].
    split; [done|]. split; [done|]. split.
    + intros Hnil. by rewrite Hnil in Ha.
    + intros Hne. destruct (uncompleted_criteria s); [done|].
      destruct Ha as (c' & -> & _). by eexists.
  - intros Hnil. by rewrite (update_current_criterion_last s current).
  - intros next rest Hu Hid. eexists.
    split; [by apply (update_current_criterion_next s current next rest)|done].
Qed.

Lemma step_adjudicate_unchecked (g : Graph) (verdict : Determination)
    (s s' : TrialMatcherState) :
  checks_explanations g = false →
  run_stage (principal_investigator verdict s) = Ok s' →
  step g (principal_investigator_node, s) (update_current_criterion_node, s').
Proof.
  intros Hg Hrun. pose proof (step_principal_investigator g verdict s s' Hrun) as Hstep.
  by rewrite Hg in Hstep.
Qed.

Lemma bucket_conservation_invariant_witness :
  ∃ s0 g s,
    initial_state trials "1234" "19-410" single_expert_config = Ok s0
    ∧ build_graph single_expert_config ∅ = Ok g
    ∧ reachable g s0 update_current_criterion_node s
    ∧ n_total_criteria s = Some 4
    ∧ bucket_conservation s.
Proof.
  eexists _, _, _.
  assert (∀ s0 g s,
            initial_state trials "1234" "19-410" single_expert_config = Ok s0 →
            build_graph single_expert_config ∅ = Ok g →
            reachable g s0 update_current_criterion_node s →
            n_total_criteria s = Some 4 →
            initial_state trials "1234" "19-410" single_expert_config = Ok s0
            ∧ build_graph single_expert_config ∅ = Ok g
            ∧ reachable g s0 update_current_criterion_node s
            ∧ n_total_criteria s = Some 4
            ∧ bucket_conservation s) as Hall.
  { intros s0 g s Hinit Hg Hreach Hn.
    split; [done|]. split; [done|]. split; [done|]. split; [done|].
    exact (proj1 (bucket_conservation_invariant trials "1234" "19-410"
                    single_expert_config ∅ g s0 Hinit Hg _ s Hreach)). }
  apply Hall.
  - reflexivity.
  - reflexivity.
  - eapply (reachable_step _ _ principal_investigator_node).
    + eapply (reachable_step _ _ (expert_nodes ["expert"])).
      * eapply reachable_step; [apply reachable_start|].
        eapply step_coordinator_single; reflexivity.
      * eapply (step_experts _ ["expert"] [([snippet "n1"], "aged 61")]); reflexivity.
    + apply (step_adjudicate_unchecked _ met); reflexivity.
  - reflexivity.
Defined.

Lemma assert_all_handled_mismatch (n : nat) (unc comp : list Criterion) :
  (length unc + length comp)%nat ≠ n →
  assert_all_handled n unc comp = Raise AssertionError.
Proof. intros Hne. unfold assert_all_handled. by rewrite decide_False. Qed.

Lemma prepass_counts (l : list Criterion) :
  (length (filter ordinary l)
   + length (resolved <$> filter (λ c, ¬ ordinary c) l))%nat = length l.
Proof.
  rewrite length_fmap, <- length_app.
  by rewrite (filter_app_complement ordinary l).
Qed.

(** C6, amended.  The pre-pass returns the criteria that carry neither flag
    as [uncompleted] and the others, resolved, as [completed].  Every
    criterion with [vacuous] set is in [completed] with determination "met"
    and the explanation [{"rule": "Vacuous criterion"}]; every criterion
    with [requires_human_review] set and [vacuous] not set is there with
    determination "unable to determine" and the explanation
    [{"rule": "Requires human review"}].  None of them stays in the queue,
    and none is ever the active criterion of a stage of the run.  The
    assertion after the pre-pass compares [len(uncompleted) +
    len(completed)] with the original count: it raises on any mismatch and
    passes on what the pre-pass returns. *)
Theorem prepass_spec (trial_criteria : list Criterion) :
  ∃ unc comp,
    prepass trial_criteria = Ok (unc, comp)
    ∧ unc = filter ordinary trial_criteria
    ∧ comp = resolved <$> filter (λ c, ¬ ordinary c) trial_criteria
    ∧ (∀ c, c ∈ trial_criteria → vacuous c = Some true →
       ∃ c', c' ∈ comp
             ∧ c' = set_explanation (Some {[ "rule" := "Vacuous criterion" ]})
                      (set_determination (Some met) c)
             ∧ determination c' = Some met
             ∧ explanation c' = Some {[ "rule" := "Vacuous criterion" ]})
    ∧ (∀ c, c ∈ trial_criteria →
       requires_human_review c = Some true → vacuous c ≠ Some true →
       ∃ c', c' ∈ comp
             ∧ c' = set_explanation (Some {[ "rule" := "Requires human review" ]})
                      (set_determination (Some unable_to_determine) c)
             ∧ determination c' = Some unable_to_determine
             ∧ explanation c' = Some {[ "rule" := "Requires human review" ]})
    ∧ (∀ c, c ∈ unc →
       vacuous c ≠ Some true ∧ requires_human_review c ≠ Some true)
    ∧ assert_all_handled (length trial_criteria) unc comp = Ok ()
    ∧ (∀ n unc' comp', (length unc' + length comp')%nat ≠ n →
       assert_all_handled n unc' comp' = Raise AssertionError)
    ∧ (∀ all_trial_criteria mrn_ trial_id_ cfg stores g s0 n s c,
       initial_state all_trial_criteria mrn_ trial_id_ cfg = Ok s0 →
       build_graph cfg stores = Ok g →
       reachable g s0 n s → active_criterion s = Some c →
       vacuous c ≠ Some true ∧ requires_human_review c ≠ Some true).
Proof.
  assert (∀ c, ordinary c →
          vacuous c ≠ Some true ∧ requires_human_review c ≠ Some true) as Hflags.
  { intros c [Hv Hr]. split; intros Heq; rewrite Heq in *; discriminate. }
  eexists _, _. split; [apply prepass_partition|].
  split; [done|]. split; [done|]. split; [|split; [|split; [|split; [|split]]]].
  - intros c Hc Hv. exists (resolve_vacuous c). split; [|done].
    apply list_elem_of_fmap. exists c. split.
    + unfold resolved. by rewrite Hv.
    + apply list_elem_of_filter. split; [|done].
      intros [Hv' _]. by rewrite Hv in Hv'.
  - intros c Hc Hr Hv. exists (resolve_human_review c). split; [|done].
    assert (truthy_flag (vacuous c) = false) as Hv'.
    { destruct (vacuous c) as [[]|]; done. }
    apply list_elem_of_fmap. exists c. split.
    + unfold resolved. by rewrite Hv', Hr.
    + apply list_elem_of_filter. split; [|done].
      intros [_ Hr']. by rewrite Hr in Hr'.
  - intros c Hc. apply list_elem_of_filter in Hc as [Hc _]. by apply Hflags.
  - unfold assert_all_handled. by rewrite decide_True by apply prepass_counts.
  - apply assert_all_handled_mismatch.
  - intros atc mrn_ trial_id_ cfg stores g s0 n s c Hinit Hg Hreach Hc.
    apply initial_state_invariant in Hinit.
    destruct (reachable_invariant cfg stores g s0 n s Hg Hinit Hreach)
      as (_ & [_ Hq] & _).
    by apply Hflags, Hq.
Qed.

Lemma prepass_spec_witness :
  ∃ unc comp c',
    prepass short_trial = Ok (unc, comp)
    ∧ c' ∈ comp
    ∧ id c' = "inclusion criterion 2"
    ∧ determination c' = Some met
    ∧ explanation c' = Some {[ "rule" := "Vacuous criterion" ]}.
Proof.
  destruct (prepass_spec short_trial) as (unc & comp & Hrun & _ & _ & Hvac & _).
  destruct (Hvac (mkCriterion "inclusion criterion 2"
                    "Patients with T3N0 disease are eligible."
                    inclusion (Some true) (Some false) None None None None))
    as (c' & Hin & -> & Hdet & Hexp).
  - apply list_elem_of_lookup. by exists 1%nat.
  - reflexivity.
  - eexists unc, comp, _. split; [exact Hrun|]. split; [exact Hin|]. by split.
Defined.

(** C6: the claim as stated fails on a criterion that carries both flags:
    [requires_human_review] is set, and the criterion is completed as
    "met", not as "unable to determine". *)
Lemma prepass_both_flags :
  requires_human_review both_flags = Some true
  ∧ prepass [both_flags]
    = Ok ([], [set_explanation (Some {[ "rule" := "Vacuous criterion" ]})
                 (set_determination (Some met) both_flags)])
  ∧ determination
      (set_explanation (Some {[ "rule" := "Vacuous criterion" ]})
         (set_determination (Some met) both_flags))
    ≠ Some unable_to_determine.
Proof. split; [reflexivity|]. split; [reflexivity|]. discriminate. Qed.

(** ** The multi-expert router *)

Lemma make_unique_NoDup (val : list string) : NoDup (make_unique val).
Proof. unfold make_unique. apply (NoDup_elements (C := gset string)). Qed.

Lemma make_unique_elem_of (val : list string) (e : string) :
  e ∈ make_unique val ↔ e ∈ val.
Proof. unfold make_unique. by rewrite elem_of_elements, elem_of_list_to_set. Qed.

Lemma make_unique_nil (val : list string) : make_unique val = [] ↔ val = [].
Proof.
  split.
  - intros Hnil. destruct val as [|e val]; [done|].
    assert (e ∈ make_unique (e :: val)) as He by (apply make_unique_elem_of; left).
    rewrite Hnil in He. inversion He.
  - intros ->. reflexivity.
Qed.

Lemma consult_expert_valid (expert_choices answer : list string)
    (s : TrialMatcherState) (c : Criterion) :
  active_criterion s = Some c →
  Forall (λ e, e ∈ expert_choices) answer →
  run_stage (consult_expert expert_choices answer s)
  = Ok (set_active_criterion
          (Some (set_answered_by
                   (Some (by_list (next_expert expert_choices (make_unique answer)))) c))
          s).
Proof.
  intros Hc Hvalid. unfold consult_expert, ExpertChoice, next_expert. rewrite Hc.
  destruct (decide (Forall (λ e, e ∈ expert_choices) answer)) as [_|Hn]; [|done].
  cbn [mbind result_bind]. apply run_stage_in_place.
Qed.

Lemma next_expert_spec (expert_choices answer : list string) :
  NoDup expert_choices → expert_choices ≠ [] →
  Forall (λ e, e ∈ expert_choices) answer →
  NoDup (next_expert expert_choices (make_unique answer))
  ∧ (∀ e, e ∈ next_expert expert_choices (make_unique answer) → e ∈ expert_choices)
  ∧ next_expert expert_choices (make_unique answer) ≠ [].
Proof.
  intros Hnd Hne Hvalid. unfold next_expert.
  destruct (make_unique answer) as [|e parsed] eqn:Hp.
  - case_decide as Hg.
    + split; [apply NoDup_singleton|]. split; [|done].
      intros e He. by apply list_elem_of_singleton in He as ->.
    + done.
  - split; [rewrite <- Hp; apply make_unique_NoDup|]. split; [|done].
    intros e' He'. rewrite <- Hp in He'.
    apply (proj1 (make_unique_elem_of answer e')) in He'.
    rewrite Forall_forall in Hvalid. by apply Hvalid.
Qed.

(** C7.  In the graph with several experts, whose expert names are the keys
    of the (non-empty) split of the store: every answer of the model that
    passes validation yields a routing decision, recorded on
    [answered_by] of the active criterion and read back by the conditional
    edge; the experts chosen are duplicate-free, are available experts and
    are never none; for a non-empty answer they are the names of the answer
    without their duplicates, for an empty one they are ["generalist"] when
    that is an available expert and all available experts otherwise.  An
    answer with a name that is not available is rejected. *)
Theorem consult_expert_routing (cfg : TrialMatcherConfig)
    (stores : gmap string Vectorstore) (g : Graph) :
  _build_graph_multi_expert_branching cfg stores = Ok g →
  ∃ expert_choices,
    topology g = multi_expert_branching expert_choices
    ∧ NoDup expert_choices
    ∧ expert_choices ≠ []
    ∧ (∀ e, e ∈ expert_choices ↔ is_Some (stores !! e))
    ∧ ∀ answer s c,
        active_criterion s = Some c →
        (Forall (λ e, e ∈ expert_choices) answer →
         ∃ chosen,
           run_stage (consult_expert expert_choices answer s)
             = Ok (set_active_criterion
                     (Some (set_answered_by (Some (by_list chosen)) c)) s)
           ∧ route_consult_expert
               (set_active_criterion
                  (Some (set_answered_by (Some (by_list chosen)) c)) s)
             = Ok chosen
           ∧ NoDup chosen
           ∧ (∀ e, e ∈ chosen → e ∈ expert_choices)
           ∧ chosen ≠ []
           ∧ (answer ≠ [] → ∀ e, e ∈ chosen ↔ e ∈ answer)
           ∧ (answer = [] →
              chosen = if decide ("generalist" ∈ expert_choices) then ["generalist"]
                       else expert_choices))
        ∧ (¬ Forall (λ e, e ∈ expert_choices) answer →
           consult_expert expert_choices answer s = Raise ValidationError).
Proof.
  unfold _build_graph_multi_expert_branching. case_decide as Hne; [done|].
  destruct (get_final_determination_node _) as [node|]; cbn [mbind result_bind]; [|done].
  intros [= <-]. exists (map_to_list stores).*1. simpl.
  assert (NoDup (map_to_list stores).*1) as Hnd by apply NoDup_fst_map_to_list.
  assert ((map_to_list stores).*1 ≠ []) as Hnil.
  { intros Hnil. apply fmap_nil_inv in Hnil. by apply map_to_list_empty_iff in Hnil. }
  split; [done|]. split; [done|]. split; [done|]. split.
  { intros e. rewrite list_elem_of_fmap. split.
    - intros ([e' v] & -> & Hin). apply elem_of_map_to_list in Hin. by eexists.
    - intros [v Hv]. exists (e, v). split; [done|]. by apply elem_of_map_to_list. }
  intros answer s c Hc. split.
  - intros Hvalid.
    destruct (next_expert_spec _ answer Hnd Hnil Hvalid) as (Hd & Hsub & Hsome).
    exists (next_expert (map_to_list stores).*1 (make_unique answer)).
    split; [by apply consult_expert_valid|]. split; [done|].
    split; [done|]. split; [done|]. split; [done|]. split.
    + intros Hanswer e. unfold next_expert.
      destruct (make_unique answer) as [|e' parsed] eqn:Hp.
      * apply (proj1 (make_unique_nil answer)) in Hp. done.
      * rewrite <- Hp. apply make_unique_elem_of.
    + by intros ->.
  - intros Hinvalid. unfold consult_expert, ExpertChoice. rewrite Hc.
    by destruct (decide (Forall (λ e, e ∈ (map_to_list stores).*1) answer)).
Qed.

Lemma consult_expert_routing_witness :
  ∃ g chosen,
    _build_graph_multi_expert_branching multi_expert_config expert_stores = Ok g
    ∧ route_consult_expert
        (set_active_criterion
           (Some (set_answered_by (Some (by_list chosen))
                    (mkCriterion "inclusion criterion 1"
                       "Patient's age must be >= 35 years."
                       inclusion (Some false) (Some false) None None None None)))
           awaiting_routing)
      = Ok chosen
    ∧ NoDup chosen
    ∧ (∀ e, e ∈ chosen ↔ e ∈ ["oncology"; "cardiology"; "oncology"]).
Proof.
  eexists _.
  destruct (consult_expert_routing multi_expert_config expert_stores _ eq_refl)
    as (expert_choices & _ & _ & _ & Hkeys & Hroute).
  destruct (proj1 (Hroute ["oncology"; "cardiology"; "oncology"] awaiting_routing _ eq_refl))
    as (chosen & _ & Hedge & Hnd & _ & _ & Hsame & _).
  - repeat (apply Forall_cons; split;
              [apply Hkeys; eexists; vm_compute; reflexivity|]).
    constructor.
  - exists chosen. split; [reflexivity|]. split; [exact Hedge|]. split; [exact Hnd|].
    by apply Hsame.
Defined.

(** ** Retry with exponential backoff *)

Lemma waits_cons (base_wait_ : Z) (n len : nat) :
  waits base_wait_ n (S len) = base_wait_ * 2 ^ Z.of_nat n :: waits base_wait_ (S n) len.
Proof. reflexivity. Qed.

Lemma time_sleep_Ok (secs : Z) : time_sleep secs = Ok () ↔ 0 ≤ secs ≤ sleep_max.
Proof.
  unfold time_sleep.
  destruct (decide (secs < - sleep_max ∨ sleep_max < secs)) as [Hbig|Hfit];
    [unfold sleep_max in *; split; [done|lia]|].
  destruct (decide (secs < 0)); unfold sleep_max in *; split; try done; lia.
Qed.

Lemma time_sleep_Raise (secs : Z) (e : exn) :
  time_sleep secs = Raise e
  ↔ (e = OverflowError ∧ (secs < - sleep_max ∨ sleep_max < secs))
    ∨ (e = ValueError ∧ - sleep_max ≤ secs < 0).
Proof.
  unfold time_sleep.
  destruct (decide (secs < - sleep_max ∨ sleep_max < secs)) as [Hbig|Hfit].
  - split; [intros [= <-]; by left|]. intros [[-> _]|[_ ?]]; [done|lia].
  - destruct (decide (secs < 0)).
    + split; [intros [= <-]; right; split; [done|lia]|].
      intros [[_ ?]|[-> _]]; [lia|done].
    + split; [done|]. intros [[_ ?]|[_ ?]]; lia.
Qed.

(** The loop, whatever the parameters: the calls, the sleeps and the
    outcome.  A rate-limit error of the last call is re-raised after call
    [max_retries + 1], and otherwise it is the exception of [time.sleep]
    that ends the wrapper. *)
Lemma retry_loop_spec {A} (fuel : nat) (max_retries_ base_wait_ : Z)
    (func : nat → outcome A) (n : nat) (slept : list Z) :
  Z.of_nat n ≤ max_retries_ →
  (Z.to_nat (max_retries_ - Z.of_nat n) < fuel)%nat →
  ∀ res eff,
    retry_loop fuel max_retries_ base_wait_ func (Z.of_nat n) (mkEffects n slept)
      = (res, eff) →
    res ≠ OutOfFuel
    ∧ (n < calls eff)%nat
    ∧ Z.of_nat (calls eff) ≤ max_retries_ + 1
    ∧ sleeps eff = slept ++ waits base_wait_ n (calls eff - 1 - n)
    ∧ (∀ j, (n ≤ j < calls eff - 1)%nat →
         (∃ e, func j = Raises e ∧ is_rate_limit e = true)
         ∧ time_sleep (base_wait_ * 2 ^ Z.of_nat j) = Ok ())
    ∧ match func (calls eff - 1)%nat with
      | Returns v => res = Returned v
      | Raises e =>
        if is_rate_limit e then
          (Z.of_nat (calls eff) = max_retries_ + 1 ∧ res = Raised e)
          ∨ (Z.of_nat (calls eff) ≤ max_retries_
             ∧ ∃ x, time_sleep (base_wait_ * 2 ^ (Z.of_nat (calls eff) - 1)) = Raise x
                    ∧ res = Raised x)
        else res = Raised e
      end.
Proof.
  revert n slept.
  induction fuel as [|fuel IH]; intros n slept Hn Hfuel res eff; [lia|].
  cbn [retry_loop]. rewrite decide_True by done. cbn [calls sleeps].
  destruct (func n) as [v|e] eqn:Hf.
  - intros [= <- <-]. cbn [calls sleeps].
    replace (S n - 1 - n)%nat with 0%nat by lia.
    replace (S n - 1)%nat with n by lia. rewrite Hf.
    split; [done|]. split; [lia|]. split; [lia|].
    split; [by rewrite app_nil_r|]. split; [intros j Hj; lia|done].
  - destruct (is_rate_limit e) eqn:Hrl.
    + destruct (decide (Z.of_nat n + 1 > max_retries_)) as [Hlast|Hmore].
      * intros [= <- <-]. cbn [calls sleeps].
        replace (S n - 1 - n)%nat with 0%nat by lia.
        replace (S n - 1)%nat with n by lia. rewrite Hf, Hrl.
        split; [done|]. split; [lia|]. split; [lia|].
        split; [by rewrite app_nil_r|]. split; [intros j Hj; lia|].
        left. split; [lia|done].
      * replace (Z.of_nat n + 1 - 1) with (Z.of_nat n) by lia.
        destruct (time_sleep (base_wait_ * 2 ^ Z.of_nat n)) as [[]|x] eqn:Hsleep.
        -- replace (Z.of_nat n + 1) with (Z.of_nat (S n)) by lia.
           intros Hrun.
           apply IH in Hrun as (Hres & Hcalls & Hmax & Hsl & Hretried & Hlastcall);
             [|lia|lia].
           split; [done|]. split; [lia|]. split; [lia|]. split.
           { rewrite Hsl, <- app_assoc. f_equal.
             replace (calls eff - 1 - n)%nat with (S (calls eff - 1 - S n)) by lia.
             by rewrite waits_cons. }
           split; [|done].
           intros j Hj. destruct (decide (j = n)) as [->|Hne].
           ++ split; [by eexists|done].
           ++ apply Hretried. lia.
        -- intros [= <- <-]. cbn [calls sleeps].
           replace (S n - 1 - n)%nat with 0%nat by lia.
           replace (S n - 1)%nat with n by lia. rewrite Hf, Hrl.
           split; [done|]. split; [lia|]. split; [lia|].
           split; [by rewrite app_nil_r|]. split; [intros j Hj; lia|].
           right. split; [lia|]. exists x.
           replace (Z.of_nat (S n) - 1) with (Z.of_nat n) by lia. done.
    + intros [= <- <-]. cbn [calls sleeps].
      replace (S n - 1 - n)%nat with 0%nat by lia.
      replace (S n - 1)%nat with n by lia. rewrite Hf, Hrl.
      split; [done|]. split; [lia|]. split; [lia|].
      split; [by rewrite app_nil_r|]. split; [intros j Hj; lia|done].
Qed.

Example retry_recovers :
  retry_with_exponential_backoff 3 1 flaky = (Returned 5, mkEffects 3 [1; 2]).
Proof. reflexivity. Qed.

Example retry_exhausted :
  retry_with_exponential_backoff 2 1 (λ _, Raises (RateLimitError 429) : outcome Z)
  = (Raised (RateLimitError 429), mkEffects 3 [1; 2]).
Proof. reflexivity. Qed.

Example retry_other_error :
  retry_with_exponential_backoff 5 1 (λ _, Raises (OtherError 500) : outcome Z)
  = (Raised (OtherError 500), mkEffects 1 []).
Proof. reflexivity. Qed.

(** C8.  For a function wrapped with [max_retries >= -1] and a
    [base_wait] such that every wait of the schedule,
    [base_wait * 2 ^ (k - 1)] for [k] from 1 to [max_retries], is a length
    [time.sleep] accepts (between 0 and [sleep_max] seconds): the wrapper
    calls it at most [max_retries + 1] times, and at least once when
    [max_retries >= 0]; every call but the last raised a rate-limit error,
    and the failure of call [k] was followed by a sleep of
    [base_wait * 2 ^ (k - 1)] before call [k + 1] (these are all the
    sleeps); a value the last call returns is returned unchanged; an
    exception it raises is raised to the caller, at once when it is not a
    rate-limit error, and for a rate-limit error only after call
    [max_retries + 1].  Without a call ([max_retries = -1]) the wrapper
    returns [None]. *)
Theorem retry_with_exponential_backoff_spec {A} (max_retries_ base_wait_ : Z)
    (func : nat → outcome A) :
  -1 ≤ max_retries_ →
  (∀ k, 1 ≤ k ≤ max_retries_ → 0 ≤ base_wait_ * 2 ^ (k - 1) ≤ sleep_max) →
  let res := (retry_with_exponential_backoff max_retries_ base_wait_ func).1 in
  let eff := (retry_with_exponential_backoff max_retries_ base_wait_ func).2 in
  res ≠ OutOfFuel
  ∧ Z.of_nat (calls eff) ≤ max_retries_ + 1
  ∧ (0 ≤ max_retries_ → 1 ≤ Z.of_nat (calls eff))
  ∧ (∀ j, (j < calls eff - 1)%nat →
       ∃ e, func j = Raises e ∧ is_rate_limit e = true)
  ∧ length (sleeps eff) = (calls eff - 1)%nat
  ∧ (∀ k, (1 ≤ k < calls eff)%nat →
       sleeps eff !! (k - 1)%nat = Some (base_wait_ * 2 ^ (Z.of_nat k - 1)))
  ∧ match calls eff with
    | O => res = ReturnedNone
    | S last =>
      match func last with
      | Returns v => res = Returned v
      | Raises e =>
        res = Raised e
        ∧ (is_rate_limit e = true → Z.of_nat (calls eff) = max_retries_ + 1)
      end
    end.
Proof.
  intros Hmax Hfit res eff.
  destruct (retry_with_exponential_backoff max_retries_ base_wait_ func)
    as [res' eff'] eqn:Hrun.
  subst res eff. cbn [fst snd]. unfold retry_with_exponential_backoff in Hrun.
  destruct (decide (max_retries_ = -1)) as [->|Hcall].
  { cbn in Hrun. injection Hrun as <- <-. cbn [calls sleeps].
    repeat split; try done; try lia. }
  apply (retry_loop_spec _ _ _ _ 0 []) in Hrun
    as (Hres & Hcalls & Hbound & Hsl & Hretried & Hlast); [|lia|lia].
  split; [done|]. split; [lia|]. split; [lia|].
  split; [intros j Hj; apply Hretried; lia|].
  simpl in Hsl. replace (calls eff' - 1 - 0)%nat with (calls eff' - 1)%nat in Hsl by lia.
  split; [by rewrite Hsl; unfold waits; rewrite length_fmap, length_seq|].
  split.
  - intros k Hk. rewrite Hsl. unfold waits. rewrite list_lookup_fmap.
    rewrite lookup_seq_lt by lia. simpl.
    by replace (Z.of_nat (k - 1)) with (Z.of_nat k - 1) by lia.
  - destruct (calls eff') as [|last] eqn:Hn; [lia|].
    replace (S last - 1)%nat with last in Hlast by lia.
    destruct (func last) as [v|e]; [done|].
    destruct (is_rate_limit e) eqn:Hrl; [|by split].
    destruct Hlast as [[Hall Hraised]|(Hless & x & Hsleep & _)]; [by split|].
    exfalso.
    assert (Hok : time_sleep (base_wait_ * 2 ^ (Z.of_nat (S last) - 1)) = Ok ())
      by (apply time_sleep_Ok, Hfit; lia).
    congruence.
Qed.

Lemma retry_with_exponential_backoff_spec_witness :
  (retry_with_exponential_backoff 3 1 flaky).1 = Returned 5
  ∧ sleeps (retry_with_exponential_backoff 3 1 flaky).2 !! 1%nat = Some 2.
Proof.
  destruct (retry_with_exponential_backoff_spec 3 1 flaky)
    as (_ & _ & _ & _ & _ & Hwaits & Hlast); [lia| |].
  - intros k Hk. assert (k = 1 ∨ k = 2 ∨ k = 3) as [-> | [-> | ->]] by lia;
      vm_compute; split; discriminate.
  - split.
    + exact Hlast.
    + apply (Hwaits 2%nat). vm_compute. lia.
Defined.

(** The claim as stated, for every [max_retries] and [base_wait], fails at
    three edges.  A wait that [time.sleep] refuses: with one retry allowed
    and a base wait of [10 ^ 10] seconds, the first rate-limit error is
    followed by no wait and no second call, and the wrapper raises
    OverflowError, not the rate-limit error; with a base wait of -1 it
    raises ValueError the same way.  A [max_retries] below -1: the loop
    makes no call, which is more than [max_retries + 1]. *)
Lemma retry_with_exponential_backoff_limits :
  (throttled 0%nat = Raises (RateLimitError 429)
   ∧ retry_with_exponential_backoff 1 (10 ^ 10) throttled
     = (Raised OverflowError, mkEffects 1 []))
  ∧ retry_with_exponential_backoff 1 (-1) throttled
    = (Raised ValueError, mkEffects 1 [])
  ∧ (retry_with_exponential_backoff (-5) 1 throttled = (ReturnedNone, mkEffects 0 [])
     ∧ ¬ Z.of_nat (calls (retry_with_exponential_backoff (-5) 1 throttled).2) ≤ -5 + 1).
Proof. repeat split; try reflexivity. vm_compute. by intros H. Qed.

(** ** The store of AI outputs *)

Lemma string_length_app (s1 s2 : string) :
  String.length (s1 +:+ s2) = (String.length s1 + String.length s2)%nat.
Proof. induction s1 as [|a s1 IH]; simpl; [done|]. by rewrite IH. Qed.

Lemma _ai_key_inj (mrn_ protocol : string) (i j : Z) :
  _ai_key mrn_ protocol i = _ai_key mrn_ protocol j → i = j.
Proof.
  unfold _ai_key. intros Heq.
  repeat (apply (String.app_inj _) in Heq).
  by apply pretty_Z_inj in Heq.
Qed.

Lemma _ai_key_not_master (mrn_ protocol : string) (i : Z) :
  _ai_key mrn_ protocol i ≠ _master_key mrn_ protocol.
Proof.
  intros Heq. apply (f_equal String.length) in Heq.
  unfold _ai_key, _master_key in Heq.
  rewrite !string_length_app in Heq. simpl in Heq. lia.
Qed.

Lemma add_ai_output_spec (db : redis) (mrn_ protocol result_ : string) (n : nat) :
  counter_at db mrn_ protocol n →
  ∃ db',
    add_ai_output db mrn_ protocol result_ = Ok (Z.of_nat n, db')
    ∧ counter_at db' mrn_ protocol (S n)
    ∧ db' !! _ai_key mrn_ protocol (Z.of_nat n) = Some (RString result_)
    ∧ (∀ key, key ≠ _master_key mrn_ protocol →
         key ≠ _ai_key mrn_ protocol (Z.of_nat n) → db' !! key = db !! key).
Proof.
  intros Hn. unfold add_ai_output, _initialize_master_key, redis_exists.
  destruct n as [|m]; simpl in Hn.
  - rewrite bool_decide_eq_false_2 by (rewrite Hn; by intros [? ?]).
    unfold redis_hset. rewrite Hn. cbn [mbind result_bind].
    unfold redis_hincrby. rewrite lookup_insert_eq. cbn [mbind result_bind].
    eexists. split; [reflexivity|]. split; [|split].
    + eexists. unfold redis_set.
      rewrite lookup_insert_ne by apply _ai_key_not_master.
      rewrite lookup_insert_eq. split; [reflexivity|]. by rewrite lookup_insert_eq.
    + unfold redis_set. by rewrite lookup_insert_eq.
    + intros key Hm Hk. unfold redis_set.
      rewrite lookup_insert_ne by done. rewrite insert_insert_eq.
      by rewrite lookup_insert_ne.
  - destruct Hn as (h & Hdb & Hh).
    rewrite bool_decide_eq_true_2 by (by rewrite Hdb).
    cbn [mbind result_bind]. unfold redis_hincrby. rewrite Hdb, Hh.
    cbn [mbind result_bind default from_option Datatypes.id].
    replace (Z.of_nat m + 1) with (Z.of_nat (S m)) by lia.
    eexists. split; [reflexivity|]. split; [|split].
    + eexists. unfold redis_set.
      rewrite lookup_insert_ne by apply _ai_key_not_master.
      rewrite lookup_insert_eq. split; [reflexivity|]. by rewrite lookup_insert_eq.
    + unfold redis_set. by rewrite lookup_insert_eq.
    + intros key Hm Hk. unfold redis_set.
      rewrite lookup_insert_ne by done. by rewrite lookup_insert_ne.
Qed.

Lemma add_ai_outputs_spec (results : list string) (db : redis)
    (mrn_ protocol : string) (n : nat) :
  counter_at db mrn_ protocol n →
  ∃ db',
    add_ai_outputs db mrn_ protocol results
      = Ok (Z.of_nat <$> seq n (length results), db')
    ∧ counter_at db' mrn_ protocol (n + length results)
    ∧ (∀ i r, results !! i = Some r →
         db' !! _ai_key mrn_ protocol (Z.of_nat (n + i)) = Some (RString r))
    ∧ (∀ key, key ≠ _master_key mrn_ protocol →
         (∀ i, (i < length results)%nat → key ≠ _ai_key mrn_ protocol (Z.of_nat (n + i))) →
         db' !! key = db !! key).
Proof.
  revert db n. induction results as [|r rest IH]; intros db n Hn.
  - exists db. simpl. rewrite Nat.add_0_r. split; [done|]. split; [done|].
    split; [intros i r' Hi; inversion Hi|done].
  - destruct (add_ai_output_spec db mrn_ protocol r n Hn)
      as (db1 & Hrun1 & Hn1 & Hkey1 & Hframe1).
    destruct (IH db1 (S n) Hn1) as (db' & Hrun & Hn' & Hkeys & Hframe).
    exists db'. cbn [add_ai_outputs]. rewrite Hrun1. cbn [mbind result_bind].
    rewrite Hrun. cbn [mbind result_bind length seq fmap list_fmap].
    split; [done|]. split; [|split].
    + by replace (n + S (length rest))%nat with (S n + length rest)%nat by lia.
    + intros [|i] r' Hi; simpl in Hi.
      * injection Hi as <-. rewrite Nat.add_0_r. rewrite Hframe; [done|..].
        -- apply _ai_key_not_master.
        -- intros i _ Heq. apply _ai_key_inj in Heq. lia.
      * replace (n + S i)%nat with (S n + i)%nat by lia. by apply Hkeys.
    + intros key Hm Hk. rewrite Hframe.
      * apply Hframe1; [done|]. rewrite <- (Nat.add_0_r n). apply Hk. simpl. lia.
      * done.
      * intros i Hi. replace (S n + i)%nat with (n + S i)%nat by lia.
        apply Hk. simpl. lia.
Qed.

(** C9.  From a store in which the master key of the pair is absent, a
    sequence of [add_ai_output] calls for the pair returns the indices 0,
    1, 2, ... in turn: the counter is initialised to -1, the first call
    returns 0 and the [i]-th returns [i - 1].  Call [i] writes its result under the key
    [mrn_protocol_output_{i-1}]; these keys are pairwise distinct and none
    is the master key, so every result is still there after all the calls;
    the counter ends at the number of calls minus one, and no other key of
    the store is touched. *)
Theorem add_ai_output_append_only (db : redis) (mrn_ protocol : string)
    (results : list string) :
  db !! _master_key mrn_ protocol = None →
  ∃ db',
    add_ai_outputs db mrn_ protocol results
      = Ok (Z.of_nat <$> seq 0 (length results), db')
    ∧ (∃ db0, _initialize_master_key db (_master_key mrn_ protocol) = Ok db0
              ∧ db0 !! _master_key mrn_ protocol
                = Some (RHash {[ "ai_count" := -1; "human_count" := -1 ]}))
    ∧ (∀ r, ∃ db1, add_ai_output db mrn_ protocol r = Ok (0, db1))
    ∧ (∀ i r, results !! i = Some r →
         db' !! _ai_key mrn_ protocol (Z.of_nat i) = Some (RString r))
    ∧ NoDup ((λ i, _ai_key mrn_ protocol (Z.of_nat i)) <$> seq 0 (length results))
    ∧ (∀ i, _ai_key mrn_ protocol i ≠ _master_key mrn_ protocol)
    ∧ (results ≠ [] →
       ∃ h, db' !! _master_key mrn_ protocol = Some (RHash h)
            ∧ h !! "ai_count" = Some (Z.of_nat (length results) - 1))
    ∧ (∀ key, key ≠ _master_key mrn_ protocol →
         (∀ i, (i < length results)%nat → key ≠ _ai_key mrn_ protocol (Z.of_nat i)) →
         db' !! key = db !! key).
Proof.
  intros Hdb.
  destruct (add_ai_outputs_spec results db mrn_ protocol 0 Hdb)
    as (db' & Hrun & Hcount & Hkeys & Hframe).
  exists db'. split; [done|]. split; [|split; [|split; [|split; [|split; [|split]]]]].
  - eexists. unfold _initialize_master_key, redis_exists, redis_hset.
    rewrite bool_decide_eq_false_2 by (rewrite Hdb; by intros [? ?]).
    rewrite Hdb. split; [reflexivity|]. by rewrite lookup_insert_eq.
  - intros r. destruct (add_ai_output_spec db mrn_ protocol r 0 Hdb) as (db1 & H1 & _).
    by exists db1.
  - intros i r Hi. by apply (Hkeys i r).
  - apply NoDup_fmap_2; [|apply NoDup_seq].
    intros i j Heq. apply _ai_key_inj in Heq. lia.
  - apply _ai_key_not_master.
  - intros Hne. destruct results as [|r rest]; [done|]. simpl in Hcount.
    destruct Hcount as (h & Hm & Hh). exists h. split; [done|].
    rewrite Hh. f_equal. simpl length. lia.
  - intros key Hm Hk. apply Hframe; [done|]. intros i Hi. by apply Hk.
Qed.

Lemma add_ai_output_append_only_witness :
  ∃ db',
    add_ai_outputs other_patient_db "1234" "19-410" ["first"; "second"; "third"]
      = Ok ([0; 1; 2], db')
    ∧ db' !! "1234_19-410_output_0" = Some (RString "first")
    ∧ db' !! "1234_19-410_output_2" = Some (RString "third").
Proof.
  destruct (add_ai_output_append_only other_patient_db "1234" "19-410"
              ["first"; "second"; "third"])
    as (db' & Hrun & _ & _ & Hkeys & _).
  - reflexivity.
  - exists db'. split; [exact Hrun|]. split.
    + exact (Hkeys 0%nat "first" eq_refl).
    + exact (Hkeys 2%nat "third" eq_refl).
Defined.

(** * Further properties *)

(** ** The store: both kinds of output *)

Lemma _human_key_inj (mrn_ protocol : string) (i j : Z) :
  _human_key mrn_ protocol i = _human_key mrn_ protocol j → i = j.
Proof.
  unfold _human_key. intros Heq.
  repeat (apply (String.app_inj _) in Heq).
  by apply pretty_Z_inj in Heq.
Qed.

Lemma pretty_N_go_length (x : N) (s : string) :
  (String.length s ≤ String.length (pretty_N_go x s))%nat.
Proof.
  revert s. induction (N.lt_wf_0 x) as [x _ IH]; intros s.
  assert (x = 0 ∨ 0 < x)%N as [->|?] by lia; [by rewrite pretty_N_go_0|].
  rewrite pretty_N_go_step by done.
  etrans; [|by eapply IH, N.div_lt]. simpl. lia.
Qed.

Lemma pretty_N_nonempty (x : N) : (0 < String.length (pretty x))%nat.
Proof.
  unfold pretty, pretty_N. destruct (decide (x = 0%N)) as [->|Hx]; [simpl; lia|].
  rewrite pretty_N_go_step by lia.
  eapply Nat.lt_le_trans; [|apply pretty_N_go_length]. simpl. lia.
Qed.

Lemma pretty_Z_nonempty (i : Z) : (0 < String.length (pretty i))%nat.
Proof.
  destruct i as [|p|p]; unfold pretty, pretty_Z.
  - simpl. lia.
  - apply pretty_N_nonempty.
  - simpl. lia.
Qed.

Lemma _human_key_not_master (mrn_ protocol : string) (i : Z) :
  _human_key mrn_ protocol i ≠ _master_key mrn_ protocol.
Proof.
  intros Heq. apply (f_equal String.length) in Heq.
  unfold _human_key, _master_key in Heq.
  rewrite !string_length_app in Heq. simpl in Heq.
  pose proof (pretty_Z_nonempty i). lia.
Qed.

Lemma _ai_key_not_human (mrn_ protocol : string) (i j : Z) :
  _ai_key mrn_ protocol i ≠ _human_key mrn_ protocol j.
Proof.
  unfold _ai_key, _human_key. intros Heq.
  do 3 (apply (String.app_inj _) in Heq). discriminate Heq.
Qed.

Lemma add_ai_output_step (db : redis) (mrn_ protocol r : string) (n m : nat) :
  master_state db mrn_ protocol n m →
  ∃ db',
    add_ai_output db mrn_ protocol r = Ok (Z.of_nat n, db')
    ∧ master_state db' mrn_ protocol (S n) m
    ∧ db' !! _ai_key mrn_ protocol (Z.of_nat n) = Some (RString r)
    ∧ (∀ key, key ≠ _master_key mrn_ protocol →
         key ≠ _ai_key mrn_ protocol (Z.of_nat n) → db' !! key = db !! key).
Proof.
  intros Hst. unfold add_ai_output, _initialize_master_key, redis_exists.
  destruct Hst as [(-> & -> & Hdb)|(h & Hdb & Ha & Hh)].
  - rewrite bool_decide_eq_false_2 by (rewrite Hdb; by intros [? ?]).
    unfold redis_hset. rewrite Hdb. cbn [mbind result_bind].
    unfold redis_hincrby. rewrite lookup_insert_eq. cbn [mbind result_bind].
    eexists. split; [reflexivity|]. split; [|split].
    + right. eexists. unfold redis_set.
      rewrite lookup_insert_ne by apply _ai_key_not_master.
      rewrite lookup_insert_eq. split; [reflexivity|].
      split; [by rewrite lookup_insert_eq|].
      rewrite lookup_insert_ne by done. reflexivity.
    + unfold redis_set. by rewrite lookup_insert_eq.
    + intros key Hm Hk. unfold redis_set.
      rewrite lookup_insert_ne by done. rewrite insert_insert_eq.
      by rewrite lookup_insert_ne.
  - rewrite bool_decide_eq_true_2 by (by rewrite Hdb).
    cbn [mbind result_bind]. unfold redis_hincrby. rewrite Hdb, Ha.
    cbn [mbind result_bind default from_option Datatypes.id].
    replace (Z.of_nat n - 1 + 1) with (Z.of_nat n) by lia.
    eexists. split; [reflexivity|]. split; [|split].
    + right. eexists. unfold redis_set.
      rewrite lookup_insert_ne by apply _ai_key_not_master.
      rewrite lookup_insert_eq. split; [reflexivity|].
      split; [rewrite lookup_insert_eq; f_equal; lia|].
      by rewrite lookup_insert_ne.
    + unfold redis_set. by rewrite lookup_insert_eq.
    + intros key Hm Hk. unfold redis_set.
      rewrite lookup_insert_ne by done. by rewrite lookup_insert_ne.
Qed.

Lemma add_human_output_step (db : redis) (mrn_ protocol r : string) (n m : nat) :
  master_state db mrn_ protocol n m →
  ∃ db',
    add_human_output db mrn_ protocol r = Ok (Z.of_nat m, db')
    ∧ master_state db' mrn_ protocol n (S m)
    ∧ db' !! _human_key mrn_ protocol (Z.of_nat m) = Some (RString r)
    ∧ (∀ key, key ≠ _master_key mrn_ protocol →
         key ≠ _human_key mrn_ protocol (Z.of_nat m) → db' !! key = db !! key).
Proof.
  intros Hst. unfold add_human_output, _initialize_master_key, redis_exists.
  destruct Hst as [(-> & -> & Hdb)|(h & Hdb & Ha & Hh)].
  - rewrite bool_decide_eq_false_2 by (rewrite Hdb; by intros [? ?]).
    unfold redis_hset. rewrite Hdb. cbn [mbind result_bind].
    unfold redis_hincrby. rewrite lookup_insert_eq. cbn [mbind result_bind].
    eexists. split; [reflexivity|]. split; [|split].
    + right. eexists. unfold redis_set.
      rewrite lookup_insert_ne by apply _human_key_not_master.
      rewrite lookup_insert_eq. split; [reflexivity|].
      split; [|by rewrite lookup_insert_eq].
      rewrite lookup_insert_ne by done. reflexivity.
    + unfold redis_set. by rewrite lookup_insert_eq.
    + intros key Hm Hk. unfold redis_set.
      rewrite lookup_insert_ne by done. rewrite insert_insert_eq.
      by rewrite lookup_insert_ne.
  - rewrite bool_decide_eq_true_2 by (by rewrite Hdb).
    cbn [mbind result_bind]. unfold redis_hincrby. rewrite Hdb, Hh.
    cbn [mbind result_bind default from_option Datatypes.id].
    replace (Z.of_nat m - 1 + 1) with (Z.of_nat m) by lia.
    eexists. split; [reflexivity|]. split; [|split].
    + right. eexists. unfold redis_set.
      rewrite lookup_insert_ne by apply _human_key_not_master.
      rewrite lookup_insert_eq. split; [reflexivity|].
      split; [by rewrite lookup_insert_ne|].
      rewrite lookup_insert_eq. f_equal. lia.
    + unfold redis_set. by rewrite lookup_insert_eq.
    + intros key Hm Hk. unfold redis_set.
      rewrite lookup_insert_ne by done. by rewrite lookup_insert_ne.
Qed.

Lemma pair_state_start (db : redis) (mrn_ protocol : string) :
  db !! _master_key mrn_ protocol = None → pair_state db db mrn_ protocol [] [].
Proof.
  intros Hdb. split; [by left|]. split; [intros i r Hi; inversion Hi|].
  split; [intros i r Hi; inversion Hi|done].
Qed.

Lemma pair_state_ai (db0 db : redis) (mrn_ protocol r : string)
    (ais humans : list string) :
  pair_state db0 db mrn_ protocol ais humans →
  ∃ db',
    add_ai_output db mrn_ protocol r = Ok (Z.of_nat (length ais), db')
    ∧ pair_state db0 db' mrn_ protocol (ais ++ [r]) humans.
Proof.
  intros (Hm & Ha & Hh & Hframe).
  destruct (add_ai_output_step db mrn_ protocol r _ _ Hm) as (db' & Hrun & Hm' & Hkey & Hfr).
  exists db'. split; [done|]. split; [|split; [|split]].
  - rewrite length_app. simpl. by rewrite Nat.add_1_r.
  - intros i r' Hi. apply lookup_snoc_Some in Hi as [[Hlt Hi]| [-> <-]]; [|done].
    rewrite Hfr; [by apply Ha|apply _ai_key_not_master|].
    intros Heq. apply _ai_key_inj in Heq. lia.
  - intros i r' Hi. rewrite Hfr; [by apply Hh|apply _human_key_not_master|].
    intros Heq. symmetry in Heq. by apply _ai_key_not_human in Heq.
  - intros key Hk Hai Hhu. rewrite Hfr; [|done|].
    + apply Hframe; [done| |done]. intros i Hi. apply Hai.
      rewrite length_app. simpl. lia.
    + apply Hai. rewrite length_app. simpl. lia.
Qed.

Lemma pair_state_human (db0 db : redis) (mrn_ protocol r : string)
    (ais humans : list string) :
  pair_state db0 db mrn_ protocol ais humans →
  ∃ db',
    add_human_output db mrn_ protocol r = Ok (Z.of_nat (length humans), db')
    ∧ pair_state db0 db' mrn_ protocol ais (humans ++ [r]).
Proof.
  intros (Hm & Ha & Hh & Hframe).
  destruct (add_human_output_step db mrn_ protocol r _ _ Hm)
    as (db' & Hrun & Hm' & Hkey & Hfr).
  exists db'. split; [done|]. split; [|split; [|split]].
  - rewrite length_app. simpl. by rewrite Nat.add_1_r.
  - intros i r' Hi. rewrite Hfr; [by apply Ha|apply _ai_key_not_master|].
    apply _ai_key_not_human.
  - intros i r' Hi. apply lookup_snoc_Some in Hi as [[Hlt Hi]| [-> <-]]; [|done].
    rewrite Hfr; [by apply Hh|apply _human_key_not_master|].
    intros Heq. apply _human_key_inj in Heq. lia.
  - intros key Hk Hai Hhu. rewrite Hfr; [|done|].
    + apply Hframe; [done|done|]. intros i Hi. apply Hhu.
      rewrite length_app. simpl. lia.
    + apply Hhu. rewrite length_app. simpl. lia.
Qed.

Lemma ai_results_cons (o : output) (os : list output) :
  ai_results (o :: os)
  = match o with ai_output r => r :: ai_results os | human_output _ => ai_results os end.
Proof. by destruct o. Qed.

Lemma human_results_cons (o : output) (os : list output) :
  human_results (o :: os)
  = match o with human_output r => r :: human_results os | ai_output _ => human_results os end.
Proof. by destruct o. Qed.

Lemma add_outputs_state (os : list output) (db0 db : redis) (mrn_ protocol : string)
    (ais humans : list string) :
  pair_state db0 db mrn_ protocol ais humans →
  ∃ db',
    add_outputs db mrn_ protocol os
      = Ok (own_counts (length ais) (length humans) os, db')
    ∧ pair_state db0 db' mrn_ protocol (ais ++ ai_results os) (humans ++ human_results os).
Proof.
  revert db ais humans. induction os as [|o os IH]; intros db ais humans Hst.
  - exists db. simpl. split; [done|]. unfold ai_results, human_results. simpl.
    by rewrite !app_nil_r.
  - rewrite ai_results_cons, human_results_cons. destruct o as [r|r]; cbn [add_outputs add_output own_counts].
    + destruct (pair_state_ai _ _ _ _ r _ _ Hst) as (db1 & -> & Hst1).
      cbn [mbind result_bind].
      destruct (IH db1 _ _ Hst1) as (db' & Hrun & Hst').
      rewrite length_app in Hrun. simpl in Hrun. rewrite Nat.add_1_r in Hrun.
      rewrite Hrun. cbn [mbind result_bind]. exists db'. split; [done|].
      by rewrite <- app_assoc in Hst'.
    + destruct (pair_state_human _ _ _ _ r _ _ Hst) as (db1 & -> & Hst1).
      cbn [mbind result_bind].
      destruct (IH db1 _ _ Hst1) as (db' & Hrun & Hst').
      rewrite length_app in Hrun. simpl in Hrun. rewrite Nat.add_1_r in Hrun.
      rewrite Hrun. cbn [mbind result_bind]. exists db'. split; [done|].
      by rewrite <- app_assoc in Hst'.
Qed.

Lemma collect_outputs_stored (db : redis) (key_of : Z → string) (l : list string) :
  (∀ i r, l !! i = Some r → db !! key_of (Z.of_nat i) = Some (RString r)) →
  ∀ n k, (k + n ≤ length l)%nat →
    collect_outputs db key_of (Z.of_nat <$> seq k n) = Ok (take n (drop k l)).
Proof.
  intros Hl. induction n as [|n IH]; intros k Hk; [done|].
  cbn [seq fmap list_fmap collect_outputs].
  destruct (lookup_lt_is_Some_2 l k) as [r Hr]; [lia|].
  unfold redis_get. rewrite (Hl k r Hr). cbn [mbind result_bind].
  change (list_fmap nat Z Z.of_nat (seq (S k) n)) with (Z.of_nat <$> seq (S k) n).
  rewrite IH by lia. cbn [mbind result_bind]. f_equal.
  rewrite (drop_S l r k Hr). done.
Qed.

Lemma range_seq (n : nat) : range (Z.of_nat n - 1 + 1) = Z.of_nat <$> seq 0 n.
Proof. unfold range. by replace (Z.to_nat (Z.of_nat n - 1 + 1)) with n by lia. Qed.

Lemma last_lookup_pred {A} (l : list A) (n : nat) :
  length l = S n → l !! n = last l.
Proof. intros Hn. rewrite last_lookup, Hn. done. Qed.

Lemma get_latest_ai_output_state (db0 db : redis) (mrn_ protocol : string)
    (ais humans : list string) :
  pair_state db0 db mrn_ protocol ais humans →
  get_latest_ai_output db mrn_ protocol = Ok (last ais).
Proof.
  intros (Hm & Ha & _). unfold get_latest_ai_output, redis_exists.
  destruct Hm as [(Hn & _ & Hdb)|(h & Hdb & Hc & _)].
  - rewrite bool_decide_eq_false_2 by (rewrite Hdb; by intros [? ?]).
    by destruct ais.
  - rewrite bool_decide_eq_true_2 by (by rewrite Hdb). cbn [negb].
    unfold redis_hget. rewrite Hdb, Hc. cbn [mbind result_bind int_of_reply].
    destruct (decide (Z.of_nat (length ais) - 1 < 0)) as [Hneg|Hpos].
    + destruct ais; [done|simpl in Hneg; lia].
    + destruct (length ais) as [|n] eqn:Hlen; [lia|].
      replace (Z.of_nat (S n) - 1) with (Z.of_nat n) by lia.
      rewrite <- (last_lookup_pred ais n Hlen).
      destruct (lookup_lt_is_Some_2 ais n) as [r Hr]; [lia|].
      unfold redis_get. by rewrite (Ha n r Hr), Hr.
Qed.

Lemma get_latest_human_output_state (db0 db : redis) (mrn_ protocol : string)
    (ais humans : list string) :
  pair_state db0 db mrn_ protocol ais humans →
  get_latest_human_output db mrn_ protocol = Ok (last humans).
Proof.
  intros (Hm & _ & Hh & _). unfold get_latest_human_output, redis_exists.
  destruct Hm as [(_ & Hn & Hdb)|(h & Hdb & _ & Hc)].
  - rewrite bool_decide_eq_false_2 by (rewrite Hdb; by intros [? ?]).
    by destruct humans.
  - rewrite bool_decide_eq_true_2 by (by rewrite Hdb). cbn [negb].
    unfold redis_hget. rewrite Hdb, Hc. cbn [mbind result_bind int_of_reply].
    destruct (decide (Z.of_nat (length humans) - 1 < 0)) as [Hneg|Hpos].
    + destruct humans; [done|simpl in Hneg; lia].
    + destruct (length humans) as [|n] eqn:Hlen; [lia|].
      replace (Z.of_nat (S n) - 1) with (Z.of_nat n) by lia.
      rewrite <- (last_lookup_pred humans n Hlen).
      destruct (lookup_lt_is_Some_2 humans n) as [r Hr]; [lia|].
      unfold redis_get. by rewrite (Hh n r Hr), Hr.
Qed.

Lemma get_all_ai_outputs_state (db0 db : redis) (mrn_ protocol : string)
    (ais humans : list string) :
  pair_state db0 db mrn_ protocol ais humans →
  get_all_ai_outputs db mrn_ protocol = Ok ais.
Proof.
  intros (Hm & Ha & _). unfold get_all_ai_outputs, redis_exists.
  destruct Hm as [(Hn & _ & Hdb)|(h & Hdb & Hc & _)].
  - rewrite bool_decide_eq_false_2 by (rewrite Hdb; by intros [? ?]).
    by destruct ais.
  - rewrite bool_decide_eq_true_2 by (by rewrite Hdb). cbn [negb].
    unfold redis_hget. rewrite Hdb, Hc. cbn [mbind result_bind int_of_reply].
    rewrite range_seq, (collect_outputs_stored db _ ais Ha) by (simpl; lia).
    by rewrite drop_0, firstn_all.
Qed.

Lemma get_all_human_outputs_state (db0 db : redis) (mrn_ protocol : string)
    (ais humans : list string) :
  pair_state db0 db mrn_ protocol ais humans →
  get_all_human_outputs db mrn_ protocol = Ok humans.
Proof.
  intros (Hm & _ & Hh & _). unfold get_all_human_outputs, redis_exists.
  destruct Hm as [(_ & Hn & Hdb)|(h & Hdb & _ & Hc)].
  - rewrite bool_decide_eq_false_2 by (rewrite Hdb; by intros [? ?]).
    by destruct humans.
  - rewrite bool_decide_eq_true_2 by (by rewrite Hdb). cbn [negb].
    unfold redis_hget. rewrite Hdb, Hc. cbn [mbind result_bind int_of_reply].
    rewrite range_seq, (collect_outputs_stored db _ humans Hh) by (simpl; lia).
    by rewrite drop_0, firstn_all.
Qed.

Lemma get_most_recent_outputs_state (db0 db : redis) (mrn_ protocol : string)
    (ais humans : list string) :
  (∀ i, db0 !! _human_key mrn_ protocol i = None) →
  pair_state db0 db mrn_ protocol ais humans →
  get_most_recent_outputs db mrn_ protocol
  = Ok (match ais with
        | [] => (None, None)
        | _ => (last ais, humans !! (length ais - 1)%nat)
        end).
Proof.
  intros Hfresh (Hm & Ha & Hh & Hframe). unfold get_most_recent_outputs, redis_exists.
  destruct Hm as [(Hn & _ & Hdb)|(h & Hdb & Hc & _)].
  - rewrite bool_decide_eq_false_2 by (rewrite Hdb; by intros [? ?]).
    by destruct ais.
  - rewrite bool_decide_eq_true_2 by (by rewrite Hdb). cbn [negb].
    unfold redis_hget. rewrite Hdb, Hc. cbn [mbind result_bind int_of_reply].
    destruct (decide (Z.of_nat (length ais) - 1 < 0)) as [Hneg|Hpos].
    + destruct ais; [done|simpl in Hneg; lia].
    + destruct (length ais) as [|n] eqn:Hlen; [lia|].
      replace (Z.of_nat (S n) - 1) with (Z.of_nat n) by lia.
      destruct ais as [|a ais']; [done|].
      rewrite <- (last_lookup_pred (a :: ais') n Hlen).
      destruct (lookup_lt_is_Some_2 (a :: ais') n) as [r Hr]; [lia|].
      unfold redis_get. rewrite (Ha n r Hr), Hr. cbn [mbind result_bind].
      replace (S n - 1)%nat with n by lia.
      destruct (humans !! n) as [hr|] eqn:Hhr.
      * by rewrite (Hh n hr Hhr).
      * apply lookup_ge_None in Hhr. rewrite Hframe.
        -- by rewrite Hfresh.
        -- apply _human_key_not_master.
        -- intros i _ Heq. symmetry in Heq. by apply _ai_key_not_human in Heq.
        -- intros i Hi Heq. apply _human_key_inj in Heq. lia.
Qed.

(** X1. Adding outputs of both kinds for a pair that has no master key, in
    any interleaving: every call succeeds and returns the number of earlier
    calls of its own kind, so the two counters are independent; afterwards
    the i-th AI result and the i-th human result are each stored under their
    own key, and no key of another pair is touched. *)
Theorem add_outputs_independent_counters (db : redis) (mrn_ protocol : string)
    (os : list output) :
  db !! _master_key mrn_ protocol = None →
  ∃ db',
    add_outputs db mrn_ protocol os = Ok (own_counts 0 0 os, db')
    ∧ (∀ i r, ai_results os !! i = Some r →
         db' !! _ai_key mrn_ protocol (Z.of_nat i) = Some (RString r))
    ∧ (∀ i r, human_results os !! i = Some r →
         db' !! _human_key mrn_ protocol (Z.of_nat i) = Some (RString r))
    ∧ (∀ i j, _ai_key mrn_ protocol i ≠ _human_key mrn_ protocol j)
    ∧ (∀ key, key ≠ _master_key mrn_ protocol →
         (∀ i, (i < length (ai_results os))%nat →
            key ≠ _ai_key mrn_ protocol (Z.of_nat i)) →
         (∀ i, (i < length (human_results os))%nat →
            key ≠ _human_key mrn_ protocol (Z.of_nat i)) →
         db' !! key = db !! key).
Proof.
  intros Hdb.
  destruct (add_outputs_state os db db mrn_ protocol [] [] (pair_state_start _ _ _ Hdb))
    as (db' & Hrun & _ & Ha & Hh & Hframe).
  exists db'. split; [exact Hrun|]. split; [exact Ha|]. split; [exact Hh|].
  split; [apply _ai_key_not_human|exact Hframe].
Qed.

Lemma add_outputs_independent_counters_witness :
  ∃ db',
    add_outputs other_patient_db "1234" "19-410"
      [ai_output "first"; human_output "review"; ai_output "second"]
      = Ok ([0; 0; 1], db')
    ∧ db' !! "1234_19-410_output_1" = Some (RString "second")
    ∧ db' !! "1234_19-410_human_0" = Some (RString "review").
Proof.
  destruct (add_outputs_independent_counters other_patient_db "1234" "19-410"
              [ai_output "first"; human_output "review"; ai_output "second"])
    as (db' & Hrun & Ha & Hh & _).
  - reflexivity.
  - exists db'. split; [exact Hrun|]. split.
    + exact (Ha 1%nat "second" eq_refl).
    + exact (Hh 0%nat "review" eq_refl).
Defined.

(** X2. After any interleaving of additions to a pair without a master
    key, [get_latest_ai_output] returns the result of the last AI addition
    and [get_latest_human_output] that of the last human addition; each
    returns [None] when there was no addition of its kind. *)
Theorem get_latest_output_is_last_added (db : redis) (mrn_ protocol : string)
    (os : list output) :
  db !! _master_key mrn_ protocol = None →
  ∃ indices db',
    add_outputs db mrn_ protocol os = Ok (indices, db')
    ∧ get_latest_ai_output db' mrn_ protocol = Ok (last (ai_results os))
    ∧ get_latest_human_output db' mrn_ protocol = Ok (last (human_results os)).
Proof.
  intros Hdb.
  destruct (add_outputs_state os db db mrn_ protocol [] [] (pair_state_start _ _ _ Hdb))
    as (db' & Hrun & Hst).
  eexists _, db'. split; [exact Hrun|]. split.
  - exact (get_latest_ai_output_state _ _ _ _ _ _ Hst).
  - exact (get_latest_human_output_state _ _ _ _ _ _ Hst).
Qed.

Lemma get_latest_output_is_last_added_witness :
  ∃ indices db',
    add_outputs other_patient_db "1234" "19-410"
      [ai_output "first"; ai_output "second"] = Ok (indices, db')
    ∧ get_latest_ai_output db' "1234" "19-410" = Ok (Some "second")
    ∧ get_latest_human_output db' "1234" "19-410" = Ok None.
Proof.
  apply (get_latest_output_is_last_added other_patient_db "1234" "19-410"
           [ai_output "first"; ai_output "second"]).
  reflexivity.
Defined.

(** X3. After any interleaving of additions to a pair without a master
    key, [get_all_ai_outputs] returns exactly the AI results in the order
    they were added, and [get_all_human_outputs] the human results in the
    order they were added. *)
Theorem get_all_outputs_in_order (db : redis) (mrn_ protocol : string)
    (os : list output) :
  db !! _master_key mrn_ protocol = None →
  ∃ indices db',
    add_outputs db mrn_ protocol os = Ok (indices, db')
    ∧ get_all_ai_outputs db' mrn_ protocol = Ok (ai_results os)
    ∧ get_all_human_outputs db' mrn_ protocol = Ok (human_results os).
Proof.
  intros Hdb.
  destruct (add_outputs_state os db db mrn_ protocol [] [] (pair_state_start _ _ _ Hdb))
    as (db' & Hrun & Hst).
  eexists _, db'. split; [exact Hrun|]. split.
  - exact (get_all_ai_outputs_state _ _ _ _ _ _ Hst).
  - exact (get_all_human_outputs_state _ _ _ _ _ _ Hst).
Qed.

Lemma get_all_outputs_in_order_witness :
  ∃ indices db',
    add_outputs other_patient_db "1234" "19-410"
      [human_output "review"; ai_output "first"; ai_output "second"]
      = Ok (indices, db')
    ∧ get_all_ai_outputs db' "1234" "19-410" = Ok ["first"; "second"]
    ∧ get_all_human_outputs db' "1234" "19-410" = Ok ["review"].
Proof.
  apply (get_all_outputs_in_order other_patient_db "1234" "19-410"
           [human_output "review"; ai_output "first"; ai_output "second"]).
  reflexivity.
Defined.

(** X4. [get_most_recent_outputs] pairs the latest AI output with the human
    output stored at the same index, not with the latest human output.  On a
    store that held nothing of the pair, after any interleaving of
    additions: with no AI output both components are [None]; otherwise the
    first is the last AI result and the second is the human result whose
    position is the number of AI results minus one, [None] when fewer human
    results were added. *)
Theorem get_most_recent_outputs_same_index (db : redis) (mrn_ protocol : string)
    (os : list output) :
  db !! _master_key mrn_ protocol = None →
  (∀ i, db !! _human_key mrn_ protocol i = None) →
  ∃ indices db',
    add_outputs db mrn_ protocol os = Ok (indices, db')
    ∧ get_most_recent_outputs db' mrn_ protocol
      = Ok (match ai_results os with
            | [] => (None, None)
            | _ => (last (ai_results os),
                    human_results os !! (length (ai_results os) - 1)%nat)
            end).
Proof.
  intros Hdb Hfresh.
  destruct (add_outputs_state os db db mrn_ protocol [] [] (pair_state_start _ _ _ Hdb))
    as (db' & Hrun & Hst).
  eexists _, db'. split; [exact Hrun|].
  exact (get_most_recent_outputs_state _ _ _ _ _ _ Hfresh Hst).
Qed.

Lemma get_most_recent_outputs_same_index_witness :
  ∃ indices db',
    add_outputs ∅ "1234" "19-410"
      [ai_output "first"; human_output "review"; ai_output "second"]
      = Ok (indices, db')
    ∧ get_most_recent_outputs db' "1234" "19-410" = Ok (Some "second", None).
Proof.
  apply (get_most_recent_outputs_same_index ∅ "1234" "19-410"
           [ai_output "first"; human_output "review"; ai_output "second"]).
  - reflexivity.
  - intros i. apply lookup_empty.
Defined.

(** ** The store: lists *)

Lemma lrange_all (l : list string) : lrange l 0 (-1) = l.
Proof.
  unfold lrange. cbn zeta.
  destruct (decide (0 < 0)) as [?|_]; [lia|].
  destruct (decide (-1 < 0)) as [_|?]; [|lia].
  destruct (decide (0 ≤ Z.of_nat (length l) + -1)) as [Hle|Hgt].
  - rewrite drop_0. apply firstn_all2. lia.
  - destruct l; [done|simpl in Hgt; lia].
Qed.

Lemma lrange_first (l : list string) : lrange l 0 0 = take 1 l.
Proof.
  unfold lrange. cbn zeta.
  destruct (decide (0 < 0)) as [?|_]; [lia|].
  destruct (decide (0 ≤ 0 `min` (Z.of_nat (length l) - 1))) as [Hle|Hgt].
  - rewrite drop_0. by replace (0 `min` (Z.of_nat (length l) - 1)) with 0 by lia.
  - destruct l; [done|simpl in Hgt; lia].
Qed.

Lemma redis_rpush_list_at (db : redis) (key value : string) (l : list string) :
  list_at db key l →
  ∃ db',
    redis_rpush db key value = Ok db'
    ∧ list_at db' key (l ++ [value])
    ∧ (∀ key', key' ≠ key → db' !! key' = db !! key').
Proof.
  unfold list_at, redis_rpush. intros Hl.
  destruct (db !! key) as [[s|h|l']|] eqn:Hdb; [done|done| |].
  - subst l'. eexists. split; [reflexivity|].
    rewrite lookup_insert_eq. split; [done|].
    intros key' Hne. by rewrite lookup_insert_ne.
  - subst l. eexists. split; [reflexivity|].
    rewrite lookup_insert_eq. split; [done|].
    intros key' Hne. by rewrite lookup_insert_ne.
Qed.

Lemma redis_lrange_list_at (db : redis) (key : string) (l : list string)
    (start stop : Z) :
  list_at db key l → redis_lrange db key start stop = Ok (lrange l start stop).
Proof.
  unfold list_at, redis_lrange. intros Hl.
  destruct (db !! key) as [[s|h|l']|]; [done|done|by subst|].
  rewrite Hl. f_equal. unfold lrange. cbn zeta.
  destruct (decide _) as [_|_]; [|done]. by rewrite drop_nil, take_nil.
Qed.

Lemma add_human_feedbacks_list_at (feedbacks : list string) (db : redis)
    (l : list string) :
  list_at db "human_feedback" l →
  ∃ db',
    add_human_feedbacks db feedbacks = Ok db'
    ∧ list_at db' "human_feedback" (l ++ feedbacks)
    ∧ (∀ key, key ≠ "human_feedback" → db' !! key = db !! key).
Proof.
  revert db l. induction feedbacks as [|f rest IH]; intros db l Hl.
  - exists db. rewrite app_nil_r. done.
  - cbn [add_human_feedbacks]. unfold add_human_feedback.
    destruct (redis_rpush_list_at db _ f l Hl) as (db1 & -> & Hl1 & Hfr1).
    cbn [mbind result_bind].
    destruct (IH db1 _ Hl1) as (db' & Hrun & Hl' & Hfr). exists db'.
    split; [done|]. rewrite <- app_assoc in Hl'. split; [done|].
    intros key Hne. rewrite Hfr by done. by apply Hfr1.
Qed.

Lemma add_experiment_results_list_at (results : list string) (db : redis)
    (experiment_name mrn_ protocol : string) (l : list string) :
  list_at db (experiment_key experiment_name mrn_ protocol) l →
  ∃ db',
    add_experiment_results db experiment_name mrn_ protocol results = Ok db'
    ∧ list_at db' (experiment_key experiment_name mrn_ protocol) (l ++ results)
    ∧ (∀ key, key ≠ experiment_key experiment_name mrn_ protocol →
         db' !! key = db !! key).
Proof.
  revert db l. induction results as [|r rest IH]; intros db l Hl.
  - exists db. rewrite app_nil_r. done.
  - cbn [add_experiment_results]. unfold add_experiment_result.
    destruct (redis_rpush_list_at db _ r l Hl) as (db1 & -> & Hl1 & Hfr1).
    cbn [mbind result_bind].
    destruct (IH db1 _ Hl1) as (db' & Hrun & Hl' & Hfr). exists db'.
    split; [done|]. rewrite <- app_assoc in Hl'. split; [done|].
    intros key Hne. rewrite Hfr by done. by apply Hfr1.
Qed.

(** X5. Human feedback is a first-in first-out log: when the key
    "human_feedback" is absent or holds a list, any sequence of
    [add_human_feedback] calls succeeds, [get_human_feedback] then returns
    the earlier entries followed by the new ones in the order they were
    added, and no other key is touched. *)
Theorem human_feedback_round_trip (db : redis) (earlier feedbacks : list string) :
  list_at db "human_feedback" earlier →
  ∃ db',
    add_human_feedbacks db feedbacks = Ok db'
    ∧ get_human_feedback db' = Ok (earlier ++ feedbacks)
    ∧ (∀ key, key ≠ "human_feedback" → db' !! key = db !! key).
Proof.
  intros Hl.
  destruct (add_human_feedbacks_list_at feedbacks db earlier Hl)
    as (db' & Hrun & Hl' & Hfr).
  exists db'. split; [done|]. split; [|done].
  unfold get_human_feedback.
  by rewrite (redis_lrange_list_at _ _ _ _ _ Hl'), lrange_all.
Qed.

Lemma human_feedback_round_trip_witness :
  ∃ db',
    add_human_feedbacks other_patient_db ["too strict"; "wrong drug"] = Ok db'
    ∧ get_human_feedback db' = Ok ["too strict"; "wrong drug"]
    ∧ (∀ key, key ≠ "human_feedback" → db' !! key = other_patient_db !! key).
Proof.
  apply (human_feedback_round_trip other_patient_db [] ["too strict"; "wrong drug"]).
  reflexivity.
Defined.

(** X6. [get_experiment_results] returns the oldest result of a
    combination, not the latest: when the combination's key is absent or
    holds a list, after any sequence of [add_experiment_result] calls it
    returns the first entry of the earlier entries followed by the new
    ones, and it raises IndexError when there is no entry at all. *)
Theorem get_experiment_results_first (db : redis)
    (experiment_name mrn_ protocol : string) (earlier results : list string) :
  list_at db (experiment_key experiment_name mrn_ protocol) earlier →
  ∃ db',
    add_experiment_results db experiment_name mrn_ protocol results = Ok db'
    ∧ get_experiment_results db' experiment_name mrn_ protocol
      = match earlier ++ results with
        | r :: _ => Ok r
        | [] => Raise IndexError
        end.
Proof.
  intros Hl.
  destruct (add_experiment_results_list_at results db _ _ _ earlier Hl)
    as (db' & Hrun & Hl' & _).
  exists db'. split; [done|]. unfold get_experiment_results.
  rewrite (redis_lrange_list_at _ _ _ _ _ Hl'), lrange_first.
  cbn [mbind result_bind]. by destruct (earlier ++ results).
Qed.

Lemma get_experiment_results_first_witness :
  ∃ db',
    add_experiment_results other_patient_db "baseline" "1234" "19-410"
      ["run 1"; "run 2"] = Ok db'
    ∧ get_experiment_results db' "baseline" "1234" "19-410" = Ok "run 1".
Proof.
  apply (get_experiment_results_first other_patient_db "baseline" "1234" "19-410"
           [] ["run 1"; "run 2"]).
  reflexivity.
Defined.

(** ** Status counts *)

Lemma dict_incr_lookup (key key' : string) (counts : gmap string Z) :
  dict_incr key counts !! key'
  = if decide (key = key') then Some (default 0 (counts !! key) + 1)
    else counts !! key'.
Proof.
  unfold dict_incr. destruct (decide (key = key')) as [->|Hne].
  - by rewrite lookup_insert_eq.
  - by rewrite lookup_insert_ne.
Qed.

Lemma count_of_cons (P : Criterion → Prop) `{∀ c, Decision (P c)}
    (c : Criterion) (l : list Criterion) :
  count_of P (c :: l) = (if decide (P c) then 1 else 0) + count_of P l.
Proof.
  unfold count_of. destruct (decide (P c)) as [Hp|Hp].
  - rewrite filter_cons_True by done. simpl length. lia.
  - rewrite filter_cons_False by done. lia.
Qed.

Lemma count_criterion_lookups (counts : gmap string Z) (crit : Criterion) (q d u : Z) :
  counts !! "qualifying" = Some q →
  counts !! "disqualifying" = Some d →
  counts !! "unable to determine" = Some u →
  count_criterion counts crit !! "qualifying"
    = Some (q + if decide (qualifying crit) then 1 else 0)
  ∧ count_criterion counts crit !! "disqualifying"
    = Some (d + if decide (disqualifying crit) then 1 else 0)
  ∧ count_criterion counts crit !! "unable to determine"
    = Some (u + if decide (undecided crit) then 1 else 0).
Proof.
  intros Hq Hd Hu. unfold count_criterion, qualifying, disqualifying, undecided.
  cbn zeta.
  destruct (decide (determination crit = Some unable_to_determine));
    destruct (decide ((criterion_type crit = inclusion ∧ determination crit = Some not_met)
                      ∨ (criterion_type crit = exclusion ∧ determination crit = Some met)));
    destruct (decide ((criterion_type crit = inclusion ∧ determination crit = Some met)
                      ∨ (criterion_type crit = exclusion ∧ determination crit = Some not_met)));
    rewrite ?dict_incr_lookup; simpl; rewrite ?dict_incr_lookup; simpl;
    rewrite ?Hq, ?Hd, ?Hu; simpl; rewrite ?Z.add_0_r; done.
Qed.

Lemma count_criteria_fold (l : list Criterion) (counts : gmap string Z) (q d u : Z) :
  counts !! "qualifying" = Some q →
  counts !! "disqualifying" = Some d →
  counts !! "unable to determine" = Some u →
  foldl count_criterion counts l !! "qualifying" = Some (q + count_of qualifying l)
  ∧ foldl count_criterion counts l !! "disqualifying"
    = Some (d + count_of disqualifying l)
  ∧ foldl count_criterion counts l !! "unable to determine"
    = Some (u + count_of undecided l).
Proof.
  revert counts q d u. induction l as [|c l IH]; intros counts q d u Hq Hd Hu.
  - unfold count_of. simpl. by rewrite !Z.add_0_r.
  - destruct (count_criterion_lookups counts c q d u Hq Hd Hu) as (Hq' & Hd' & Hu').
    destruct (IH _ _ _ _ Hq' Hd' Hu') as (Hq2 & Hd2 & Hu2).
    cbn [foldl]. rewrite Hq2, Hd2, Hu2, !count_of_cons.
    split; [f_equal; lia|]. split; f_equal; lia.
Qed.

Lemma status_partition (l : list Criterion) :
  count_of qualifying l + count_of disqualifying l + count_of undecided l
  = count_of determined l.
Proof.
  induction l as [|c l IH]; [done|]. rewrite !count_of_cons, <- IH.
  destruct (decide (qualifying c)) as [Hq|Hq], (decide (disqualifying c)) as [Hd|Hd],
    (decide (undecided c)) as [Hu|Hu], (decide (determined c)) as [Hn|Hn];
    try lia; exfalso;
    unfold qualifying, disqualifying, undecided, determined in *;
    destruct (determination c) as [[]|], (criterion_type c); intuition congruence.
Qed.

(** X7. [count_criteria_statuses] sorts the completed criteria into three
    classes that do not overlap: "qualifying" counts the inclusion criteria
    met and exclusion criteria not met, "disqualifying" the inclusion
    criteria not met and exclusion criteria met, "unable to determine" the
    undecided ones.  The three counts add up to the number of completed
    criteria that have a determination, so a criterion without one is
    counted nowhere. *)
Theorem count_criteria_statuses_partition (state : TrialMatcherState) :
  let counts := count_criteria_statuses state in
  let completed := completed_criteria state in
  counts !! "qualifying" = Some (count_of qualifying completed)
  ∧ counts !! "disqualifying" = Some (count_of disqualifying completed)
  ∧ counts !! "unable to determine" = Some (count_of undecided completed)
  ∧ count_of qualifying completed + count_of disqualifying completed
    + count_of undecided completed = count_of determined completed
  ∧ count_of determined completed ≤ Z.of_nat (length completed).
Proof.
  cbn zeta. unfold count_criteria_statuses.
  destruct (count_criteria_fold (completed_criteria state)
              {[ "qualifying" := 0; "disqualifying" := 0; "unable to determine" := 0 ]}
              0 0 0) as (Hq & Hd & Hu); [done..|].
  rewrite Hq, Hd, Hu, !Z.add_0_l. split; [done|]. split; [done|]. split; [done|].
  split; [apply status_partition|].
  unfold count_of. pose proof (length_filter determined (completed_criteria state)). lia.
Qed.

Lemma disqualifying_count_spec (completed : list Criterion) :
  (∀ state, completed_criteria state = completed →
     count_criteria_statuses state !! "disqualifying"
     = Some (count_of disqualifying completed))
  ∧ 0 ≤ count_of disqualifying completed
  ∧ (0 < count_of disqualifying completed ↔ Exists disqualifying completed).
Proof.
  split; [|split].
  - intros state <-. unfold count_criteria_statuses.
    destruct (count_criteria_fold (completed_criteria state)
                {[ "qualifying" := 0; "disqualifying" := 0; "unable to determine" := 0 ]}
                0 0 0) as (_ & Hd & _); [done..|].
    by rewrite Hd, Z.add_0_l.
  - unfold count_of. lia.
  - unfold count_of. induction completed as [|c l IH].
    + simpl. split; [lia|intros H; inversion H].
    + rewrite Exists_cons. destruct (decide (disqualifying c)) as [Hc|Hc].
      * rewrite filter_cons_True by done. simpl length. split; [by left|lia].
      * rewrite filter_cons_False by done. rewrite IH. tauto.
Qed.

(** X8. The status counts agree with the rule-based verdict: when
    [final_determination_rule_based] returns, the verdict it writes is
    "ineligible" exactly when the "disqualifying" count of the returned
    state is positive, and "eligible" exactly when that count is zero. *)
Theorem rule_based_verdict_matches_counts (state state' : TrialMatcherState) :
  final_determination_rule_based state = Ok state' →
  ∃ n, count_criteria_statuses state' !! "disqualifying" = Some n
       ∧ 0 ≤ n
       ∧ (final_determination state' = Some ineligible ↔ 0 < n)
       ∧ (final_determination state' = Some eligible ↔ n = 0).
Proof.
  unfold final_determination_rule_based. cbn zeta.
  destruct (decide _) as [_|_]; [|discriminate]. intros [= <-].
  destruct (disqualifying_count_spec (completed_criteria state))
    as (Hd & Hpos & Hex).
  exists (count_of disqualifying (completed_criteria state)).
  split; [by apply Hd|]. split; [exact Hpos|]. cbn [final_determination set_final_determination].
  assert (Hin : rule_based_verdict (completed_criteria state) = ineligible
                ↔ 0 < count_of disqualifying (completed_criteria state)).
  { rewrite rule_based_verdict_ineligible. symmetry. exact Hex. }
  split.
  - rewrite <- Hin. split; [by intros [= ->]|by intros ->].
  - destruct (rule_based_verdict (completed_criteria state)) eqn:Hv.
    + split; [|done]. intros _.
      destruct (decide (0 < count_of disqualifying (completed_criteria state)))
        as [Hlt|Hge]; [|lia]. apply Hin in Hlt. discriminate.
    + split; [discriminate|]. intros Hz. assert (Hv' := eq_refl ineligible).
      apply Hin in Hv'. lia.
Qed.

Lemma rule_based_verdict_matches_counts_witness :
  ∃ n, count_criteria_statuses (set_final_determination (Some ineligible) judged_state)
         !! "disqualifying" = Some n
       ∧ 0 ≤ n
       ∧ (Some ineligible = Some ineligible ↔ 0 < n)
       ∧ (Some ineligible = Some eligible ↔ n = 0).
Proof.
  apply (rule_based_verdict_matches_counts judged_state). reflexivity.
Defined.
(** ** The reducer: when it fails *)

Lemma truthy_dict_true (d : option (gmap string string)) :
  truthy_dict d = true ↔ ∃ m, d = Some m ∧ m ≠ ∅.
Proof.
  destruct d as [m|]; simpl.
  - rewrite bool_decide_eq_true. split; [by exists m|by intros (? & [= <-] & ?)].
  - split; [done|by intros (? & ? & ?)].
Qed.

Lemma truthy_dict_false (d : option (gmap string string)) :
  truthy_dict d = false ↔ d = None ∨ d = Some ∅.
Proof.
  destruct d as [m|]; simpl.
  - rewrite bool_decide_eq_false. split.
    + intros Hm. right. f_equal. by apply dec_stable.
    + intros [?|[= ->]]; [done|]. by intros H.
  - split; [by left|done].
Qed.

(** X9. The failures of [active_criterion_reducer], all of them.  It raises
    AttributeError exactly when there is an update but no current value;
    ValueError exactly when the two have the same id and different
    explanations of which one is the empty dict; TypeError exactly when the
    two have the same id and different non-empty explanations and one of
    them has no [rag_docs] list.  It raises nothing else, and in every other
    case it returns. *)
Theorem active_criterion_reducer_failures (current update : option Criterion)
    (e : exn) :
  active_criterion_reducer current update = Raise e
  ↔ (e = AttributeError ∧ current = None ∧ update ≠ None)
    ∨ ∃ c u, current = Some c ∧ update = Some u ∧ id c = id u
             ∧ explanation c ≠ explanation u
             ∧ ((e = ValueError
                 ∧ (explanation c = Some ∅ ∨ explanation u = Some ∅))
                ∨ (e = TypeError
                   ∧ truthy_dict (explanation c) = true
                   ∧ truthy_dict (explanation u) = true
                   ∧ (rag_docs c = None ∨ rag_docs u = None))).
Proof.
  unfold active_criterion_reducer.
  destruct update as [u|]; [|split; [discriminate|naive_solver]].
  destruct current as [c|]; [|split; [intros [= <-]; by left|naive_solver]].
  destruct (decide (id c = id u)) as [Hid|Hid]; [|split; [discriminate|naive_solver]].
  destruct (decide (explanation c = explanation u)) as [Hex|Hex];
    [split; [discriminate|naive_solver]|].
  destruct (explanation c) as [ec|] eqn:Hec, (explanation u) as [eu|] eqn:Heu;
    cbn [truthy_dict is_None andb rag_docs set_explanation];
    repeat case_bool_decide; cbn [andb];
    try destruct (rag_docs c) as [cdocs|] eqn:Hcd;
    try destruct (rag_docs u) as [udocs|] eqn:Hud;
    (split; [try discriminate; try (intros [= <-]; right; exists c, u;
             rewrite ?Hec, ?Heu, ?Hcd, ?Hud;
             cbn [truthy_dict]; rewrite ?bool_decide_eq_true_2 by done;
             naive_solver)
            |try (intros [(_ & ? & _)|(c' & u' & [= <-] & [= <-] & _ & _ & Hcase)];
             [done|]; rewrite ?Hec, ?Heu, ?Hcd, ?Hud in Hcase;
             cbn [truthy_dict] in Hcase; naive_solver)]).
Qed.

(** ** The fan-in of the experts' fragments *)

Lemma consult_agents_zip (names : list string) (answers : list (list Document * string))
    (s : TrialMatcherState) (c : Criterion) :
  active_criterion s = Some c → length names = length answers →
  consult_agents names answers s = Ok (expert_fragment c <$> zip names answers).
Proof.
  intros Hc. revert answers. induction names as [|n names IH]; intros [|[docs a] answers] Hlen;
    try discriminate; [done|].
  cbn [consult_agents]. unfold consult_agent at 1. rewrite Hc. cbn [mbind result_bind].
  rewrite IH by (simpl in Hlen; lia). done.
Qed.

Lemma merged_explanation_lookup (pairs : list (string * (list Document * string)))
    (E : gmap string string) :
  NoDup pairs.*1 →
  (∀ p, p ∈ pairs → merged_explanation E pairs !! p.1 = Some p.2.2)
  ∧ (∀ k, k ∉ pairs.*1 → merged_explanation E pairs !! k = E !! k).
Proof.
  revert E. induction pairs as [|q pairs IH]; intros E Hnd.
  - split; [intros p Hp; inversion Hp|done].
  - rewrite fmap_cons in Hnd. apply NoDup_cons in Hnd as [Hq Hnd].
    unfold merged_explanation. cbn [foldl].
    destruct (IH (dict_or E {[ q.1 := q.2.2 ]}) Hnd) as [Hin Hout]. split.
    + intros p Hp. apply elem_of_cons in Hp as [->|Hp].
      * unfold merged_explanation in Hout. rewrite Hout by done.
        unfold dict_or. rewrite lookup_union_l'; [by rewrite lookup_singleton_eq|].
        rewrite lookup_singleton_eq. by eexists.
      * by apply Hin.
    + intros k Hk. rewrite fmap_cons in Hk. apply not_elem_of_cons in Hk as [Hkq Hk].
      unfold merged_explanation in Hout. rewrite Hout by done.
      unfold dict_or. rewrite lookup_union_r; [done|]. by rewrite lookup_singleton_ne.
Qed.

Lemma merged_explanation_dom (pairs : list (string * (list Document * string)))
    (E : gmap string string) :
  dom (merged_explanation E pairs) = dom E ∪ list_to_set pairs.*1.
Proof.
  revert E. induction pairs as [|q pairs IH]; intros E.
  - simpl. set_solver.
  - unfold merged_explanation in *. cbn [foldl]. rewrite IH. unfold dict_or.
    rewrite dom_union_L, dom_singleton_L, fmap_cons. cbn [list_to_set]. set_solver.
Qed.

Lemma merged_docs_spec (pairs : list (string * (list Document * string)))
    (D : list Document) :
  (∀ d, d ∈ merged_docs D pairs → d ∈ D ∨ ∃ p, p ∈ pairs ∧ d ∈ p.2.1)
  ∧ (∀ d, d ∈ D → d ∈ merged_docs D pairs)
  ∧ (∀ p d, p ∈ pairs → d ∈ p.2.1 → doc_id d ∈ doc_id <$> merged_docs D pairs)
  ∧ (NoDup (doc_id <$> D) → Forall (λ p, NoDup (doc_id <$> p.2.1)) pairs →
     NoDup (doc_id <$> merged_docs D pairs)).
Proof.
  revert D. induction pairs as [|q pairs IH]; intros D.
  - split; [by left|]. split; [done|]. split; [intros p d Hp; inversion Hp|done].
  - unfold merged_docs. cbn [foldl].
    destruct (IH (D ++ filter (λ doc, doc_id doc ∉ doc_id <$> D) q.2.1))
      as (Hfrom & Hkeep & Hids & Hnd). unfold merged_docs in Hfrom, Hkeep, Hids, Hnd.
    split; [|split; [|split]].
    + intros d Hd. apply Hfrom in Hd as [Hd|(p & Hp & Hd)].
      * apply elem_of_app in Hd as [Hd|Hd]; [by left|].
        apply list_elem_of_filter in Hd as [_ Hd]. right. exists q.
        split; [apply elem_of_cons; by left|done].
      * right. exists p. split; [apply elem_of_cons; by right|done].
    + intros d Hd. apply Hkeep. apply elem_of_app. by left.
    + intros p d Hp Hd. apply elem_of_cons in Hp as [->|Hp]; [|by eapply Hids].
      destruct (decide (doc_id d ∈ doc_id <$> D)) as [Hin|Hout].
      * apply list_elem_of_fmap in Hin as (d' & Heq & Hd'). rewrite Heq.
        apply list_elem_of_fmap. exists d'. split; [done|].
        apply Hkeep, elem_of_app. by left.
      * apply list_elem_of_fmap. exists d. split; [done|].
        apply Hkeep, elem_of_app. right. by apply list_elem_of_filter.
    + intros HD Hall. apply Forall_cons in Hall as [Hq Hall].
      apply Hnd; [|done]. by apply merged_ids_NoDup.
Qed.

Lemma apply_update_fragment (s : TrialMatcherState) (a f r : Criterion) :
  active_criterion s = Some a →
  active_criterion_reducer (Some a) (Some f) = Ok (Some r) →
  apply_update s (active_update (Some f)) = Ok (set_active_criterion (Some r) s).
Proof.
  intros Ha Hr. unfold apply_update, active_update. cbn [upd_active_criterion].
  rewrite Ha, Hr. done.
Qed.

Lemma apply_updates_merge (c : Criterion)
    (pairs : list (string * (list Document * string)))
    (s : TrialMatcherState) (a : Criterion) (E : gmap string string)
    (D : list Document) :
  active_criterion s = Some a → id a = id c →
  explanation a = Some E → E ≠ ∅ → rag_docs a = Some D →
  (∀ p, p ∈ pairs → p.1 ∉ dom E) → NoDup pairs.*1 →
  apply_updates s (expert_fragment c <$> pairs)
  = Ok (set_active_criterion
          (Some (set_rag_docs (Some (merged_docs D pairs))
                   (set_explanation (Some (merged_explanation E pairs)) a))) s).
Proof.
  revert s a E D. induction pairs as [|q pairs IH]; intros s a E D Ha Hid HE HEne HD Hfresh Hnd.
  - unfold apply_updates, merged_docs, merged_explanation. simpl. f_equal.
    destruct s, a. simpl in *. by subst.
  - rewrite fmap_cons in Hnd. apply NoDup_cons in Hnd as [Hq Hnd].
    rewrite fmap_cons, apply_updates_cons.
    change (expert_fragment c q) with
      (active_update (Some (set_explanation (Some {[ q.1 := q.2.2 ]})
                              (set_rag_docs (Some q.2.1) c)))).
    assert (Hqdom : q.1 ∉ dom E) by (apply Hfresh, elem_of_cons; by left).
    erewrite apply_update_fragment; [|exact Ha|].
    2:{ apply (reducer_merge a _ E {[ q.1 := q.2.2 ]} D q.2.1); try done.
        intros Heq. apply Hqdom. rewrite Heq, dom_singleton_L. set_solver. }
    cbn [mbind result_bind].
    rewrite (IH _ (set_rag_docs
                     (Some (D ++ filter (λ doc, doc_id doc ∉ doc_id <$> D) q.2.1))
                     (set_explanation (Some (dict_or E {[ q.1 := q.2.2 ]})) a))
               (dict_or E {[ q.1 := q.2.2 ]})
               (D ++ filter (λ doc, doc_id doc ∉ doc_id <$> D) q.2.1)); try done.
    + unfold dict_or. intros Heq. apply (f_equal (λ m, m !! q.1)) in Heq.
      rewrite lookup_union_l', lookup_singleton_eq, lookup_empty in Heq; [done|].
      rewrite lookup_singleton_eq. by eexists.
    + intros p Hp. unfold dict_or. rewrite dom_union_L, dom_singleton_L.
      apply not_elem_of_union. split.
      * apply not_elem_of_singleton. intros Heq. apply Hq. rewrite <- Heq.
        apply list_elem_of_fmap. by exists p.
      * apply Hfresh, elem_of_cons. by right.
Qed.

Lemma zip_lookup_elem {A B} (l : list A) (k : list B) (i : nat) (x : A) (y : B) :
  l !! i = Some x → k !! i = Some y → (x, y) ∈ zip l k.
Proof.
  intros Hx Hy. apply list_elem_of_lookup. exists i.
  apply lookup_zip_with_Some. by exists x, y.
Qed.

Lemma zip_elem_r {A B} (l : list A) (k : list B) (y : B) :
  length l = length k → y ∈ k → ∃ x, (x, y) ∈ zip l k.
Proof.
  intros Hlen Hy. apply list_elem_of_lookup in Hy as [i Hi].
  destruct (lookup_lt_is_Some_2 l i) as [x Hx].
  { rewrite Hlen. by eapply lookup_lt_Some. }
  exists x. by eapply zip_lookup_elem.
Qed.

(** X10. Fan-in of any number of experts.  When the active criterion has no
    explanation yet and experts with distinct names are consulted on it,
    every fragment is merged and none is lost: the state that results
    differs from the one before only in the explanation and the documents
    of the active criterion; the explanation has exactly one entry for each
    expert, with that expert's answer, whatever the order of the experts;
    every merged document was retrieved by some expert, every id an expert
    retrieved is in the merged list, and the merged list has no id twice
    when no expert's list has. *)
Theorem experts_fan_in (names : list string) (answers : list (list Document * string))
    (s : TrialMatcherState) (c : Criterion) :
  active_criterion s = Some c → explanation c = None →
  NoDup names → names ≠ [] → length names = length answers →
  ∃ us s' E D,
    consult_agents names answers s = Ok us
    ∧ apply_updates s us = Ok s'
    ∧ s' = set_active_criterion
             (Some (set_rag_docs (Some D) (set_explanation (Some E) c))) s
    ∧ dom E = list_to_set names
    ∧ (∀ i name da, names !! i = Some name → answers !! i = Some da →
         E !! name = Some da.2)
    ∧ (∀ d, d ∈ D → ∃ da, da ∈ answers ∧ d ∈ da.1)
    ∧ (∀ da d, da ∈ answers → d ∈ da.1 → doc_id d ∈ doc_id <$> D)
    ∧ (Forall (λ da, NoDup (doc_id <$> da.1)) answers → NoDup (doc_id <$> D)).
Proof.
  intros Hc Hex Hnd Hne Hlen.
  destruct names as [|n1 rest]; [done|]. destruct answers as [|[d1 a1] arest]; [done|].
  apply NoDup_cons in Hnd as [Hn1 Hnd]. simpl in Hlen.
  assert (Hlen' : length rest = length arest) by lia.
  set (pairs := zip rest arest).
  assert (Hfst : pairs.*1 = rest) by (apply fst_zip; lia).
  set (f1 := set_explanation (Some {[ n1 := a1 ]}) (set_rag_docs (Some d1) c)).
  exists (expert_fragment c <$> zip (n1 :: rest) ((d1, a1) :: arest)),
    (set_active_criterion
       (Some (set_rag_docs (Some (merged_docs d1 pairs))
                (set_explanation (Some (merged_explanation {[ n1 := a1 ]} pairs)) c))) s),
    (merged_explanation {[ n1 := a1 ]} pairs), (merged_docs d1 pairs).
  split; [apply consult_agents_zip; [done|simpl; lia]|].
  destruct (merged_explanation_lookup pairs {[ n1 := a1 ]}) as [Hin Hout];
    [by rewrite Hfst|].
  destruct (merged_docs_spec pairs d1) as (Hfrom & Hkeep & Hids & Hnodup).
  split; [|split; [done|split; [|split; [|split; [|split]]]]].
  - cbn [zip zip_with fmap list_fmap]. fold pairs.
    change (list_fmap _ _ (expert_fragment c) pairs) with (expert_fragment c <$> pairs).
    rewrite apply_updates_cons.
    change (expert_fragment c (n1, (d1, a1))) with (active_update (Some f1)).
    rewrite (apply_update_fragment s c f1 f1 Hc);
      [|by apply (reducer_fresh_current c f1 {[ n1 := a1 ]}); [| | |apply singleton_ne_empty]].
    cbn [mbind result_bind].
    rewrite (apply_updates_merge c pairs _ f1 {[ n1 := a1 ]} d1); try done.
    + intros p Hp. rewrite dom_singleton_L. apply not_elem_of_singleton.
      intros Heq. apply Hn1. rewrite <- Heq, <- Hfst. apply list_elem_of_fmap. by exists p.
    + by rewrite Hfst.
  - rewrite merged_explanation_dom, dom_singleton_L, Hfst. cbn [list_to_set]. done.
  - intros i name da Hname Hda. destruct i as [|i]; simpl in Hname, Hda.
    + injection Hname as <-. injection Hda as <-.
      rewrite Hout by (by rewrite Hfst). by rewrite lookup_singleton_eq.
    + apply (Hin (name, da)). by eapply zip_lookup_elem.
  - intros d Hd. apply Hfrom in Hd as [Hd|(p & Hp & Hd)].
    + exists (d1, a1). split; [apply elem_of_cons; by left|done].
    + exists p.2. split; [|done]. apply elem_of_cons. right.
      destruct p as [x y]. by eapply elem_of_zip_r.
  - intros da d Hda Hd. apply elem_of_cons in Hda as [->|Hda].
    + apply list_elem_of_fmap. exists d. split; [done|]. by apply Hkeep.
    + destruct (zip_elem_r rest arest da Hlen' Hda) as [x Hx].
      by apply (Hids (x, da) d).
  - intros Hall. apply Forall_cons in Hall as [H1 Hall]. apply Hnodup; [done|].
    apply Forall_forall. intros [x y] Hp. rewrite Forall_forall in Hall.
    apply Hall. by eapply elem_of_zip_r.
Qed.

Lemma experts_fan_in_witness :
  ∃ us s' (E : gmap string string) (D : list Document),
    consult_agents ["cardiology"; "oncology"]
      [([snippet "n1"; snippet "n2"], "no cardiac history");
       ([snippet "n2"; snippet "n3"], "stage II")] awaiting_routing = Ok us
    ∧ apply_updates awaiting_routing us = Ok s'
    ∧ E !! "oncology" = Some "stage II"
    ∧ NoDup (doc_id <$> D).
Proof.
  destruct (experts_fan_in ["cardiology"; "oncology"]
              [([snippet "n1"; snippet "n2"], "no cardiac history");
               ([snippet "n2"; snippet "n3"], "stage II")] awaiting_routing
              (mkCriterion "inclusion criterion 1" "Patient's age must be >= 35 years."
                 inclusion (Some false) (Some false) None None None None))
    as (us & s' & E & D & Hus & Hs' & _ & _ & HE & _ & _ & HD).
  - reflexivity.
  - reflexivity.
  - apply (bool_decide_unpack _). vm_compute. reflexivity.
  - discriminate.
  - reflexivity.
  - exists us, s', E, D. split; [exact Hus|]. split; [exact Hs'|]. split.
    + exact (HE 1%nat "oncology" ([snippet "n2"; snippet "n3"], "stage II")
               eq_refl eq_refl).
    + apply HD. apply (bool_decide_unpack _). vm_compute. reflexivity.
Defined.

(** ** The pipeline: what a stage can change *)

Lemma reducer_static (c u : Criterion) (r : option Criterion) :
  active_criterion_reducer (Some c) (Some u) = Ok r →
  ∃ c', r = Some c' ∧ (static c' = static c ∨ c' = u)
        ∧ (static u = static c → static c' = static c).
Proof.
  unfold active_criterion_reducer. intros Hr.
  destruct (decide (id c = id u)) as [Hid|Hid].
  - repeat match type of Hr with
           | context [decide ?P] => destruct (decide P)
           | context [if ?b then _ else _] => destruct b
           | context [match ?o with Some _ => _ | None => _ end] => destruct o
           end; try discriminate; injection Hr as <-;
      (eexists; split; [reflexivity|]; unfold static; simpl;
       split; [first [by left|by right]|done]).
  - injection Hr as <-. exists u. split; [done|]. split; [by right|done].
Qed.

Lemma set_active_criterion_id (s : TrialMatcherState) :
  set_active_criterion (active_criterion s) s = s.
Proof. by destruct s. Qed.

Lemma apply_update_active_frame (s s' : TrialMatcherState) (c u : Criterion) :
  active_criterion s = Some c →
  apply_update s (active_update (Some u)) = Ok s' →
  ∃ c', s' = set_active_criterion (Some c') s
        ∧ (static u = static c → static c' = static c).
Proof.
  intros Hc. unfold apply_update, active_update. cbn [upd_active_criterion].
  rewrite Hc.
  destruct (active_criterion_reducer (Some c) (Some u)) as [r|] eqn:Hr;
    cbn [mbind result_bind]; [|done].
  apply reducer_static in Hr as (c' & -> & _ & Hst). intros [= <-].
  exists c'. split; [by destruct s|done].
Qed.

Lemma consult_agents_static (names : list string)
    (answers : list (list Document * string)) (s : TrialMatcherState)
    (us : list StateUpdate) (c : Criterion) :
  active_criterion s = Some c →
  consult_agents names answers s = Ok us →
  Forall (λ u, ∃ f, u = active_update (Some f) ∧ static f = static c) us.
Proof.
  intros Hc. revert answers us.
  induction names as [|n names IH]; intros [|[docs a] answers] us; simpl; try discriminate.
  - intros [= <-]. constructor.
  - unfold consult_agent at 1. rewrite Hc. cbn [mbind result_bind].
    destruct (consult_agents names answers s) as [us'|] eqn:Hus;
      cbn [mbind result_bind]; [|done].
    intros [= <-]. constructor; [|by eapply IH]. by eexists.
Qed.

Lemma apply_updates_static (us : list StateUpdate) (s s' : TrialMatcherState)
    (c0 c : Criterion) :
  Forall (λ u, ∃ f, u = active_update (Some f) ∧ static f = static c0) us →
  active_criterion s = Some c → static c = static c0 →
  apply_updates s us = Ok s' →
  ∃ c', s' = set_active_criterion (Some c') s ∧ static c' = static c0.
Proof.
  intros Hus. revert s c. induction Hus as [|u us (f & -> & Hf) _ IH]; intros s c Hc Hst.
  - unfold apply_updates. simpl. intros [= <-]. exists c.
    split; [by rewrite <- Hc, set_active_criterion_id|done].
  - rewrite apply_updates_cons.
    destruct (apply_update s (active_update (Some f))) as [s1|] eqn:H1;
      cbn [mbind result_bind]; [|done].
    apply (apply_update_active_frame _ _ c) in H1 as (c1 & -> & Hc1); [|done].
    intros Hrest.
    apply (IH _ c1) in Hrest as (c' & -> & Hc'); [|done|].
    + exists c'. split; [by destruct s|done].
    + rewrite Hc1; [done|]. by rewrite Hf, Hst.
Qed.

(** Every edge of the graph is of one of four kinds: the bookkeeping stage,
    which completes the active criterion and takes the next one from the
    queue; a stage that works on the active criterion only; the final
    determination; the save. *)
Lemma step_frame (cfg : TrialMatcherConfig) (stores : gmap string Vectorstore)
    (g : Graph) (n n' : Node) (s s' : TrialMatcherState) :
  build_graph cfg stores = Ok g →
  step g (n, s) (n', s') →
  (n = update_current_criterion_node
   ∧ ∃ current a',
       active_criterion s = Some current
       ∧ s' = mkState (trial_id s) (mrn s) (final_determination s)
                (tail (uncompleted_criteria s)) a' (n_total_criteria s)
                (completed_criteria s ++ [current]) (run_config s)
       ∧ match uncompleted_criteria s with
         | [] => a' = None ∧ n' = make_final_determination_node
         | next :: _ =>
           n' = trial_coordinator_node
           ∧ ∃ c', a' = Some c'
                   ∧ (c' = next ∨ (id next = id current ∧ static c' = static current))
         end)
  ∨ (n ≠ update_current_criterion_node ∧ n ≠ make_final_determination_node
     ∧ n ≠ save_results_node ∧ n' ≠ END ∧ (3 ≤ rank n' < rank n)%nat
     ∧ ∃ a', s' = set_active_criterion a' s ∧ same_static (active_criterion s) a')
  ∨ (n = make_final_determination_node ∧ n' = save_results_node
     ∧ ∃ e, s' = set_final_determination (Some e) s)
  ∨ (n = save_results_node ∧ n' = END ∧ s' = s).
Proof.
  intros Hg Hstep. inversion Hstep as
    [s1 u s1' Htop Hco Hap|choices s1 u s1' Htop Hco Hap
    |choices answer s1 s1' names Htop Hrun Hroute
    |names answers s1 us s1' Hus Hap
    |verdict s1 s1' Hrun|check s1 s1' Hrun|s1 s1' Hrun
    |verdict s1 s1' Hfin|s1 document Hsave]; subst.
  - right. left. unfold trial_coordinator in Hco.
    destruct (active_criterion s) as [c|] eqn:Hc; [|done]. injection Hco as <-.
    rewrite apply_update_none in Hap. injection Hap as <-.
    do 4 (split; [done|]). split; [simpl; lia|]. exists (Some c).
    split; [by rewrite <- Hc, set_active_criterion_id|]. done.
  - right. left. unfold trial_coordinator in Hco.
    destruct (active_criterion s) as [c|] eqn:Hc; [|done]. injection Hco as <-.
    rewrite apply_update_none in Hap. injection Hap as <-.
    do 4 (split; [done|]). split; [simpl; lia|]. exists (Some c).
    split; [by rewrite <- Hc, set_active_criterion_id|]. done.
  - right. left. unfold consult_expert in Hrun.
    destruct (active_criterion s) as [c|] eqn:Hc; [|done].
    destruct (ExpertChoice choices answer) as [parsed|]; cbn [mbind result_bind] in Hrun;
      [|done].
    rewrite run_stage_in_place in Hrun. injection Hrun as <-.
    do 4 (split; [done|]). split; [simpl; lia|]. eexists. split; [reflexivity|].
    done.
  - right. left. do 4 (split; [done|]). split; [simpl; lia|].
    destruct (active_criterion s) as [c|] eqn:Hc.
    + pose proof (consult_agents_static _ _ _ _ _ Hc Hus) as Hfr.
      destruct (apply_updates_static us s s' c c Hfr Hc eq_refl Hap) as (c' & -> & Hc').
      exists (Some c'). split; [done|]. done.
    + destruct names as [|nm names], answers as [|[docs a] answers]; simpl in Hus;
        try discriminate.
      * injection Hus as <-. unfold apply_updates in Hap. simpl in Hap.
        injection Hap as <-. exists None.
        split; [by rewrite <- Hc, set_active_criterion_id|]. done.
      * unfold consult_agent in Hus. rewrite Hc in Hus. discriminate.
  - right. left. unfold principal_investigator in Hrun.
    destruct (active_criterion s) as [c|] eqn:Hc; [|done].
    rewrite run_stage_in_place in Hrun. injection Hrun as <-.
    split; [done|]. split; [done|]. split; [done|]. split; [by destruct (checks_explanations g)|].
    split; [destruct (checks_explanations g); simpl; lia|].
    eexists. split; [reflexivity|]. done.
  - right. left. unfold check_explanation in Hrun.
    destruct (active_criterion s) as [c|] eqn:Hc; [|done].
    do 4 (split; [done|]). split; [simpl; lia|].
    destruct check as [|revised].
    + unfold run_stage in Hrun. cbn [mbind result_bind] in Hrun.
      rewrite apply_update_none in Hrun. injection Hrun as <-.
      exists (Some c). split; [by rewrite <- Hc, set_active_criterion_id|]. done.
    + destruct (explanation c) as [e|]; [|done].
      unfold run_stage in Hrun. cbn [mbind result_bind] in Hrun.
      rewrite apply_update_none in Hrun. injection Hrun as <-.
      eexists. split; [reflexivity|]. done.
  - left. split; [done|]. unfold run_stage, update_current_criterion in Hrun.
    destruct (active_criterion s) as [current|] eqn:Hc; [|done].
    exists current. destruct (uncompleted_criteria s) as [|next rest] eqn:Hu.
    + cbn [mbind result_bind] in Hrun. unfold apply_update in Hrun. simpl in Hrun.
      injection Hrun as <-. exists None. split; [done|]. split; [done|]. done.
    + cbn [mbind result_bind] in Hrun. unfold apply_update in Hrun. simpl in Hrun.
      rewrite Hc in Hrun.
      destruct (active_criterion_reducer (Some current) (Some next)) as [r|] eqn:Hr;
        cbn [mbind result_bind] in Hrun; [|done].
      assert (Hid : id next ≠ id current → r = Some next).
      { intros Hneq. rewrite reducer_replace in Hr by congruence. congruence. }
      apply reducer_static in Hr as (c' & -> & Hcases & _). injection Hrun as <-.
      exists (Some c'). split; [done|]. split; [done|]. split; [done|].
      exists c'. split; [done|].
      destruct Hcases as [Hst|Heqn]; [|left; exact Heqn].
      destruct (decide (id next = id current)) as [Heq|Hneq]; [by right|].
      left. specialize (Hid Hneq). congruence.
  - right. right. left. split; [done|]. split; [done|].
    by apply (build_graph_final_node cfg stores g Hg verdict).
  - right. right. right. done.
Qed.

(** ** The pipeline: runs *)

Lemma step_potential (cfg : TrialMatcherConfig) (stores : gmap string Vectorstore)
    (g : Graph) (n n' : Node) (s s' : TrialMatcherState) :
  build_graph cfg stores = Ok g →
  step g (n, s) (n', s') → (potential n' s' < potential n s)%nat.
Proof.
  intros Hg Hstep. unfold potential.
  destruct (step_frame cfg stores g n n' s s' Hg Hstep)
    as [(-> & current & a' & Hc & -> & Hnext)
       |[(_ & _ & _ & _ & Hrank & a' & -> & _)
        |[(-> & -> & e & ->)|(-> & -> & ->)]]]; cbn [uncompleted_criteria rank].
  - destruct (uncompleted_criteria s) as [|next rest].
    + destruct Hnext as [_ ->]. simpl. lia.
    + destruct Hnext as [-> _]. simpl. lia.
  - destruct s. simpl. lia.
  - destruct s. simpl. lia.
  - lia.
Qed.

(** X11. Every run is finite, with a bound that depends only on the queue:
    each edge of the graph lowers a measure that counts six stages for each
    queued criterion plus the distance of the node to the end of its round.
    So a run of [k] edges from the entry node has
    [k <= 6 * len(uncompleted_criteria) + 8], and no edge leaves END. *)
Theorem run_length_bounded (cfg : TrialMatcherConfig)
    (stores : gmap string Vectorstore) (g : Graph) (k : nat)
    (n n' : Node) (s s' : TrialMatcherState) :
  build_graph cfg stores = Ok g →
  nsteps (step g) k (n, s) (n', s') →
  (k + potential n' s' ≤ potential n s)%nat
  ∧ (n = trial_coordinator_node →
     (k ≤ 6 * length (uncompleted_criteria s) + 8)%nat)
  ∧ (∀ x, ¬ step g (END, s') x).
Proof.
  intros Hg Hrun.
  assert (Hpot : (k + potential n' s' ≤ potential n s)%nat).
  { remember (n, s) as x eqn:Hx. remember (n', s') as y eqn:Hy.
    revert n s Hx. induction Hrun as [x|k x [n1 s1] z Hstep Hrun IH]; intros n s Hx.
    - subst. injection Hx as -> ->. lia.
    - subst. specialize (IH eq_refl n1 s1 eq_refl).
      pose proof (step_potential cfg stores g n n1 s s1 Hg Hstep). lia. }
  split; [exact Hpot|]. split.
  - intros ->. unfold potential in Hpot. simpl in Hpot. lia.
  - intros x Hstep. inversion Hstep.
Qed.

Lemma run_length_bounded_witness :
  (1 + potential (expert_nodes ["expert"]) awaiting_routing
   ≤ potential trial_coordinator_node awaiting_routing)%nat
  ∧ (trial_coordinator_node = trial_coordinator_node →
     (1 ≤ 6 * length (uncompleted_criteria awaiting_routing) + 8)%nat)
  ∧ (∀ x, ¬ step single_expert_graph (END, awaiting_routing) x).
Proof.
  apply (run_length_bounded single_expert_config ∅ single_expert_graph 1
           trial_coordinator_node (expert_nodes ["expert"])
           awaiting_routing awaiting_routing).
  - reflexivity.
  - apply nsteps_once.
    apply (step_coordinator_single single_expert_graph awaiting_routing no_update
             awaiting_routing); reflexivity.
Defined.

Lemma step_fields (cfg : TrialMatcherConfig) (stores : gmap string Vectorstore)
    (g : Graph) (n n' : Node) (s s' : TrialMatcherState) :
  build_graph cfg stores = Ok g →
  step g (n, s) (n', s') →
  trial_id s' = trial_id s ∧ mrn s' = mrn s ∧ run_config s' = run_config s
  ∧ n_total_criteria s' = n_total_criteria s
  ∧ completed_criteria s `prefix_of` completed_criteria s'
  ∧ uncompleted_criteria s' `suffix_of` uncompleted_criteria s
  ∧ ((2 ≤ rank n')%nat → (2 ≤ rank n)%nat
                          ∧ final_determination s' = final_determination s).
Proof.
  intros Hg Hstep.
  destruct (step_frame cfg stores g n n' s s' Hg Hstep)
    as [(-> & current & a' & Hc & -> & Hnext)
       |[(Hn1 & Hn2 & Hn3 & _ & Hrank & a' & -> & _)
        |[(-> & -> & e & ->)|(-> & -> & ->)]]]; simpl.
  - do 4 (split; [done|]). split; [by eexists|]. split.
    + destruct (uncompleted_criteria s) as [|next rest]; [done|]. by exists [next].
    + intros _. split; [lia|done].
  - destruct s; simpl. do 6 (split; [done|]). intros _. split; [|done].
    destruct n; simpl in *; try lia; done.
  - destruct s; simpl. do 6 (split; [done|]). lia.
  - do 6 (split; [done|]). lia.
Qed.

(** X12. What no stage does.  Along any run the trial id, the patient, the
    configuration and the total stay what they were; the completed list
    only grows at its end and the queue only shrinks at its front; and the
    final determination is not written before the final-determination
    node. *)
Theorem run_frame (cfg : TrialMatcherConfig) (stores : gmap string Vectorstore)
    (g : Graph) (n n' : Node) (s s' : TrialMatcherState) :
  build_graph cfg stores = Ok g →
  rtc (step g) (n, s) (n', s') →
  trial_id s' = trial_id s ∧ mrn s' = mrn s ∧ run_config s' = run_config s
  ∧ n_total_criteria s' = n_total_criteria s
  ∧ completed_criteria s `prefix_of` completed_criteria s'
  ∧ uncompleted_criteria s' `suffix_of` uncompleted_criteria s
  ∧ (n' ≠ save_results_node → n' ≠ END →
     final_determination s' = final_determination s).
Proof.
  intros Hg Hrun.
  assert (Hgen : trial_id s' = trial_id s ∧ mrn s' = mrn s ∧ run_config s' = run_config s
    ∧ n_total_criteria s' = n_total_criteria s
    ∧ completed_criteria s `prefix_of` completed_criteria s'
    ∧ uncompleted_criteria s' `suffix_of` uncompleted_criteria s
    ∧ ((2 ≤ rank n')%nat → (2 ≤ rank n)%nat
                            ∧ final_determination s' = final_determination s)).
  { remember (n, s) as x eqn:Hx. remember (n', s') as y eqn:Hy.
    revert n s Hx. induction Hrun as [x|x [n1 s1] z Hstep Hrun IH]; intros n s Hx.
    - subst. injection Hx as -> ->. do 6 (split; [done|]). done.
    - subst. specialize (IH eq_refl n1 s1 eq_refl).
      destruct IH as (H1 & H2 & H3 & H4 & H5 & H6 & H7).
      destruct (step_fields cfg stores g n n1 s s1 Hg Hstep)
        as (K1 & K2 & K3 & K4 & K5 & K6 & K7).
      split; [congruence|]. split; [congruence|]. split; [congruence|].
      split; [congruence|]. split; [by etrans|]. split; [by etrans|].
      intros Hr. destruct (H7 Hr) as [Hr1 Hf1]. destruct (K7 Hr1) as [Hr0 Hf0].
      split; [done|congruence]. }
  destruct Hgen as (H1 & H2 & H3 & H4 & H5 & H6 & H7).
  do 6 (split; [done|]). intros Hsave Hend. apply H7.
  destruct n'; simpl; try lia; done.
Qed.

Lemma run_frame_witness :
  trial_id awaiting_routing = trial_id awaiting_routing
  ∧ mrn awaiting_routing = mrn awaiting_routing
  ∧ run_config awaiting_routing = run_config awaiting_routing
  ∧ n_total_criteria awaiting_routing = n_total_criteria awaiting_routing
  ∧ completed_criteria awaiting_routing `prefix_of` completed_criteria awaiting_routing
  ∧ uncompleted_criteria awaiting_routing `suffix_of` uncompleted_criteria awaiting_routing
  ∧ (expert_nodes ["expert"] ≠ save_results_node → expert_nodes ["expert"] ≠ END →
     final_determination awaiting_routing = final_determination awaiting_routing).
Proof.
  apply (run_frame single_expert_config ∅ single_expert_graph
           trial_coordinator_node (expert_nodes ["expert"])
           awaiting_routing awaiting_routing).
  - reflexivity.
  - apply rtc_once.
    apply (step_coordinator_single single_expert_graph awaiting_routing no_update
             awaiting_routing); reflexivity.
Defined.

Lemma all_criteria_set_active (s : TrialMatcherState) (a : option Criterion) :
  all_criteria (set_active_criterion a s)
  = completed_criteria s ++ option_list a ++ uncompleted_criteria s.
Proof. by destruct s. Qed.

Lemma step_keeps_criteria (cfg : TrialMatcherConfig) (stores : gmap string Vectorstore)
    (g : Graph) (n n' : Node) (s s' : TrialMatcherState) :
  build_graph cfg stores = Ok g →
  step g (n, s) (n', s') →
  id <$> all_criteria s' = id <$> all_criteria s
  ∧ (NoDup (id <$> all_criteria s) →
     static <$> all_criteria s' = static <$> all_criteria s).
Proof.
  intros Hg Hstep.
  destruct (step_frame cfg stores g n n' s s' Hg Hstep)
    as [(-> & current & a' & Hc & -> & Hnext)
       |[(_ & _ & _ & _ & _ & a' & -> & Hst)
        |[(-> & -> & e & ->)|(-> & -> & ->)]]].
  - unfold all_criteria. cbn [completed_criteria active_criterion uncompleted_criteria].
    rewrite Hc. destruct (uncompleted_criteria s) as [|next rest].
    + destruct Hnext as [-> _]. simpl. rewrite !app_nil_r. done.
    + destruct Hnext as (_ & c' & -> & Hc'). simpl.
      rewrite <- !app_assoc. simpl.
      destruct Hc' as [->|[Hid Hstat]]; [done|]. split.
      * rewrite !fmap_app. simpl. do 3 f_equal.
        apply (f_equal (λ x, x.1.1.1.1)) in Hstat. simpl in Hstat. congruence.
      * intros Hnd. exfalso. rewrite fmap_app in Hnd.
        apply NoDup_app in Hnd as (_ & _ & Hnd). simpl in Hnd.
        apply NoDup_cons in Hnd as [Hnin _]. apply Hnin. rewrite Hid.
        apply elem_of_cons. by left.
  - rewrite all_criteria_set_active. unfold all_criteria.
    unfold same_static in Hst.
    destruct (active_criterion s) as [c|], a' as [c'|]; try done. simpl.
    rewrite !fmap_app. simpl. split.
    + do 2 f_equal. apply (f_equal (λ x, x.1.1.1.1)) in Hst. done.
    + intros _. by rewrite Hst.
  - by destruct s.
  - done.
Qed.

Lemma rtc_keeps_criteria (cfg : TrialMatcherConfig)
    (stores : gmap string Vectorstore) (g : Graph)
    (n n' : Node) (s s' : TrialMatcherState) :
  build_graph cfg stores = Ok g →
  rtc (step g) (n, s) (n', s') →
  id <$> all_criteria s' = id <$> all_criteria s
  ∧ (NoDup (id <$> all_criteria s) →
     static <$> all_criteria s' = static <$> all_criteria s).
Proof.
  intros Hg Hrun.
  remember (n, s) as x eqn:Hx. remember (n', s') as y eqn:Hy.
  revert n s Hx. induction Hrun as [x|x [n1 s1] z Hstep Hrun IH]; intros n s Hx.
  - subst. injection Hx as -> ->. done.
  - subst. destruct (IH eq_refl n1 s1 eq_refl) as [Hids Hstat].
    destruct (step_keeps_criteria cfg stores g n n1 s s1 Hg Hstep) as [Hids1 Hstat1].
    split; [congruence|]. intros Hnd.
    rewrite Hstat by (by rewrite Hids1). by apply Hstat1.
Qed.

(** X13. No criterion is lost, duplicated or reordered by a run.  Reading
    a state as completed criteria, then the active one, then the queue, the
    sequence of ids is the same at every point of a run; and when the ids
    are distinct, so are the text, the type and the two flags of every
    criterion: a run changes only what is found out about a criterion. *)
Theorem run_keeps_criteria (cfg : TrialMatcherConfig)
    (stores : gmap string Vectorstore) (g : Graph)
    (n n' : Node) (s s' : TrialMatcherState) :
  build_graph cfg stores = Ok g →
  rtc (step g) (n, s) (n', s') →
  id <$> all_criteria s' = id <$> all_criteria s
  ∧ (NoDup (id <$> all_criteria s) →
     static <$> all_criteria s' = static <$> all_criteria s).
Proof.
  intros Hg Hrun.
  remember (n, s) as x eqn:Hx. remember (n', s') as y eqn:Hy.
  revert n s Hx. induction Hrun as [x|x [n1 s1] z Hstep Hrun IH]; intros n s Hx.
  - subst. injection Hx as -> ->. done.
  - subst. destruct (IH eq_refl n1 s1 eq_refl) as [Hids Hstat].
    destruct (step_keeps_criteria cfg stores g n n1 s s1 Hg Hstep) as [Hids1 Hstat1].
    split; [congruence|]. intros Hnd.
    rewrite Hstat by (by rewrite Hids1). by apply Hstat1.
Qed.

Lemma run_keeps_criteria_witness :
  id <$> all_criteria moved_on = id <$> all_criteria awaiting_routing
  ∧ (NoDup (id <$> all_criteria awaiting_routing) →
     static <$> all_criteria moved_on = static <$> all_criteria awaiting_routing).
Proof.
  apply (run_keeps_criteria single_expert_config ∅ single_expert_graph
           update_current_criterion_node trial_coordinator_node
           awaiting_routing moved_on).
  - reflexivity.
  - apply rtc_once.
    apply (step_update_current_criterion single_expert_graph awaiting_routing moved_on).
    vm_compute. reflexivity.
Defined.

(** ** The graph and the initial state *)

Lemma build_graph_cases (cfg : TrialMatcherConfig) (stores : gmap string Vectorstore) :
  match get_final_determination_node (final_determination_method cfg) with
  | Raise e => build_graph cfg stores = Raise e
  | Ok node =>
    build_graph cfg stores
    = Ok (mkGraph
            (if decide (asks_for_experts cfg ∧ stores ≠ ∅)
             then multi_expert_branching (map_to_list stores).*1 else single_rag)
            (truthy_flag (check_explanations cfg)) node)
  end.
Proof.
  unfold build_graph, _build_graph_multi_expert_branching, _build_graph_single_rag.
  destruct (get_final_determination_node (final_determination_method cfg))
    as [node|e] eqn:Hnode; cbn [mbind result_bind].
  - destruct (decide (asks_for_experts cfg ∧ stores ≠ ∅)) as [[Hask Hst]|Hno];
      unfold asks_for_experts in *;
      destruct (split_vectorstore_by_agent cfg) as [kw|]; try done.
    + rewrite decide_False by done. by rewrite decide_False.
    + destruct (decide (kw = ∅)) as [->|Hkw]; [done|].
      destruct (decide (stores = ∅)) as [->|Hst]; [done|]. by destruct Hno.
  - destruct (split_vectorstore_by_agent cfg) as [kw|]; [|done].
    destruct (decide (kw = ∅)); [done|]. by destruct (decide (stores = ∅)).
Qed.

(** X14. What [build_graph] builds.  It fails only when the configuration
    names no final-determination method, and then with ValueError.
    Otherwise it returns a graph whose final node is the one of the
    configured method and which checks explanations exactly when the
    configuration says so.  The graph routes between several experts
    exactly when the configuration asks for them and the patient's store
    gave at least one expert store; when none did, the failure of the
    multi-expert construction is swallowed and the single-expert graph is
    built. *)
Theorem build_graph_spec (cfg : TrialMatcherConfig) (stores : gmap string Vectorstore) :
  (∀ e, build_graph cfg stores = Raise e
        ↔ e = ValueError ∧ final_determination_method cfg = None)
  ∧ (∀ g, build_graph cfg stores = Ok g →
       get_final_determination_node (final_determination_method cfg)
       = Ok (final_determination_node g)
       ∧ checks_explanations g = truthy_flag (check_explanations cfg)
       ∧ (asks_for_experts cfg ∧ stores ≠ ∅ →
          topology g = multi_expert_branching (map_to_list stores).*1)
       ∧ (¬ (asks_for_experts cfg ∧ stores ≠ ∅) → topology g = single_rag)).
Proof.
  pose proof (build_graph_cases cfg stores) as Hcases.
  destruct (final_determination_method cfg) as [m|] eqn:Hm.
  - assert (∃ node, get_final_determination_node (Some m) = Ok node) as [node Hnode]
      by (destruct m; by eexists).
    rewrite Hnode in Hcases. rewrite Hcases. split.
    + intros e. split; [discriminate|]. by intros [_ ?].
    + intros g [= <-]. cbn [final_determination_node checks_explanations topology].
      split; [done|]. split; [done|]. split.
      * intros Hmulti. by rewrite decide_True.
      * intros Hsingle. by rewrite decide_False.
  - cbn [get_final_determination_node] in Hcases. rewrite Hcases. split.
    + intros e. split; [by intros [= <-]|]. by intros [-> _].
    + intros g. discriminate.
Qed.

Lemma initial_state_cases (all_trial_criteria : gmap string (list Criterion))
    (mrn_ trial_id_ : string) (cfg : TrialMatcherConfig) :
  initial_state all_trial_criteria mrn_ trial_id_ cfg
  = match all_trial_criteria !! trial_id_ with
    | None => Raise AssertionError
    | Some criteria =>
      match filter ordinary (debug_slice cfg criteria) with
      | [] => Raise IndexError
      | initial_active :: rest =>
        Ok (mkState trial_id_ mrn_ None rest (Some initial_active)
              (Some (Z.of_nat (length (debug_slice cfg criteria))))
              (resolved <$> filter (λ c, ¬ ordinary c) (debug_slice cfg criteria)) cfg)
      end
    end.
Proof.
  unfold initial_state. destruct (all_trial_criteria !! trial_id_) as [criteria|]; [|done].
  fold (debug_slice cfg criteria). cbn zeta.
  rewrite prepass_partition. cbn [mbind result_bind].
  unfold assert_all_handled. rewrite decide_True by apply prepass_counts.
  cbn [mbind result_bind]. done.
Qed.

(** X15. The failures of the construction of the initial state, all of
    them.  It raises AssertionError exactly when the trial is unknown, so
    the assertion that follows the pre-pass never fails; it raises
    IndexError exactly when the pre-pass leaves no criterion for the
    pipeline, that is when every criterion it works on is vacuous or for
    human review (or there is none); in every other case it returns a state
    whose active criterion is the first criterion left, whose total is the
    number of criteria it worked on and whose final determination is not
    set.  A [debug_first_n] of zero cuts nothing. *)
Theorem initial_state_failures (all_trial_criteria : gmap string (list Criterion))
    (mrn_ trial_id_ : string) (cfg : TrialMatcherConfig) :
  (∀ e, initial_state all_trial_criteria mrn_ trial_id_ cfg = Raise e
        ↔ (e = AssertionError ∧ all_trial_criteria !! trial_id_ = None)
          ∨ (e = IndexError
             ∧ ∃ criteria, all_trial_criteria !! trial_id_ = Some criteria
                           ∧ Forall (λ c, ¬ ordinary c) (debug_slice cfg criteria)))
  ∧ (∀ s0, initial_state all_trial_criteria mrn_ trial_id_ cfg = Ok s0 →
       ∃ criteria,
         all_trial_criteria !! trial_id_ = Some criteria
         ∧ option_list (active_criterion s0) ++ uncompleted_criteria s0
           = filter ordinary (debug_slice cfg criteria)
         ∧ is_Some (active_criterion s0)
         ∧ completed_criteria s0
           = resolved <$> filter (λ c, ¬ ordinary c) (debug_slice cfg criteria)
         ∧ n_total_criteria s0 = Some (Z.of_nat (length (debug_slice cfg criteria)))
         ∧ final_determination s0 = None
         ∧ trial_id s0 = trial_id_ ∧ mrn s0 = mrn_ ∧ run_config s0 = cfg)
  ∧ (debug_first_n cfg = Some 0 → ∀ criteria, debug_slice cfg criteria = criteria).
Proof.
  rewrite initial_state_cases. split; [|split].
  - intros e. destruct (all_trial_criteria !! trial_id_) as [criteria|].
    + destruct (filter ordinary (debug_slice cfg criteria)) as [|a rest] eqn:Hf.
      * split.
        -- intros [= <-]. right. split; [done|]. exists criteria. split; [done|].
           apply Forall_forall. intros c Hc Hord.
           assert (c ∈ filter ordinary (debug_slice cfg criteria)) as Hin
             by (by apply list_elem_of_filter).
           rewrite Hf in Hin. inversion Hin.
        -- intros [[_ ?]|[-> _]]; done.
      * split; [discriminate|]. intros [[_ ?]|[_ (criteria' & [= <-] & Hall)]]; [done|].
        assert (a ∈ filter ordinary (debug_slice cfg criteria)) as Hin
          by (rewrite Hf; apply elem_of_cons; by left).
        apply list_elem_of_filter in Hin as [Hord Hin].
        rewrite Forall_forall in Hall. by destruct (Hall a Hin).
    + split; [intros [= <-]; by left|]. intros [[-> _]|[_ (? & ? & _)]]; done.
  - intros s0. destruct (all_trial_criteria !! trial_id_) as [criteria|]; [|done].
    destruct (filter ordinary (debug_slice cfg criteria)) as [|a rest] eqn:Hf; [done|].
    intros [= <-]. exists criteria. simpl. rewrite Hf. by eauto 10.
  - intros Hzero criteria. unfold debug_slice. rewrite Hzero. by rewrite decide_True.
Qed.

(** ** The pipeline: a run to the end *)

Lemma rtc_reachable_from (g : Graph) (s0 : TrialMatcherState) (n n' : Node)
    (s s' : TrialMatcherState) :
  reachable g s0 n s → rtc (step g) (n, s) (n', s') → reachable g s0 n' s'.
Proof.
  intros Hreach Hrun. remember (n, s) as x eqn:Hx. remember (n', s') as y eqn:Hy.
  revert n s Hx Hreach. induction Hrun as [x|x [n1 s1] z Hstep Hrun IH];
    intros n s Hx Hreach.
  - subst. by injection Hx as -> ->.
  - subst. apply (IH eq_refl n1 s1 eq_refl). by eapply reachable_step.
Qed.

Lemma rtc_reachable (g : Graph) (s0 : TrialMatcherState) (n : Node)
    (s : TrialMatcherState) :
  rtc (step g) (trial_coordinator_node, s0) (n, s) → reachable g s0 n s.
Proof. apply rtc_reachable_from. constructor. Qed.

Lemma resolved_determined (c : Criterion) : ¬ ordinary c → determined (resolved c).
Proof.
  unfold ordinary, resolved, determined. intros Hno.
  destruct (truthy_flag (vacuous c)) eqn:Hv; [done|].
  destruct (truthy_flag (requires_human_review c)) eqn:Hh; [done|].
  by destruct Hno.
Qed.

Lemma step_verdict_invariant (cfg : TrialMatcherConfig)
    (stores : gmap string Vectorstore) (g : Graph)
    (n n' : Node) (s s' : TrialMatcherState) :
  build_graph cfg stores = Ok g →
  step g (n, s) (n', s') →
  verdict_invariant cfg n s → verdict_invariant cfg n' s'.
Proof.
  intros Hg Hstep (Hdet & Hact & Hend & Hverdict).
  assert (Hnode : get_final_determination_node (final_determination_method cfg)
                  = Ok (final_determination_node g)).
  { pose proof (build_graph_cases cfg stores) as Hc. rewrite Hg in Hc.
    destruct (get_final_determination_node _) as [node|]; [|done]. by injection Hc as ->. }
  assert (Hjudged : n' = check_explanation_node ∨ n' = update_current_criterion_node →
                    ∃ c, active_criterion s' = Some c ∧ determined c).
  { intros Hn'. inversion Hstep as
      [s1 u s1' Htop Hco Hap|choices s1 u s1' Htop Hco Hap
      |choices answer s1 s1' names Htop Hrun Hroute
      |names answers s1 us s1' Hus Hap
      |verdict s1 s1' Hrun|check s1 s1' Hrun|s1 s1' Hrun
      |verdict s1 s1' Hfin|s1 document Hsave]; subst;
      try (destruct Hn' as [?|?]; discriminate).
    - unfold principal_investigator in Hrun.
      destruct (active_criterion s) as [c|] eqn:Hc; [|done].
      rewrite run_stage_in_place in Hrun. injection Hrun as <-.
      eexists. split; [reflexivity|]. done.
    - destruct Hact as (c & Hc & Hdc); [by left|].
      unfold check_explanation in Hrun. rewrite Hc in Hrun.
      destruct check as [|revised].
      + unfold run_stage in Hrun. cbn [mbind result_bind] in Hrun.
        rewrite apply_update_none in Hrun. injection Hrun as <-. by exists c.
      + destruct (explanation c) as [e|]; [|done].
        unfold run_stage in Hrun. cbn [mbind result_bind] in Hrun.
        rewrite apply_update_none in Hrun. injection Hrun as <-.
        eexists. split; [reflexivity|]. done.
    - unfold check_if_done in Hn'.
      destruct (active_criterion s'); destruct Hn' as [?|?]; discriminate. }
  destruct (step_frame cfg stores g n n' s s' Hg Hstep)
    as [(-> & current & a' & Hc & -> & Hnext)
       |[(Hn1 & Hn2 & Hn3 & _ & Hrank & a' & -> & Hst)
        |[(-> & -> & e & ->)|(-> & -> & ->)]]].
  - destruct Hact as (c & Hc' & Hdc); [by right|].
    assert (c = current) as -> by congruence.
    split; [|split; [done|split]].
    + cbn [completed_criteria]. apply Forall_app. split; [done|by constructor].
    + cbn [uncompleted_criteria active_criterion].
      destruct (uncompleted_criteria s) as [|next rest].
      * by destruct Hnext as [-> _].
      * destruct Hnext as [-> _]. simpl. lia.
    + destruct (uncompleted_criteria s) as [|next rest].
      * destruct Hnext as [_ ->]. simpl. lia.
      * destruct Hnext as [-> _]. simpl. lia.
  - split; [by destruct s|]. split; [done|]. split; intros ?; lia.
  - destruct (Hend ltac:(simpl; lia)) as [Hu Ha].
    split; [by destruct s|]. split; [done|]. split; [by destruct s|].
    intros _. exists e. split; [by destruct s|]. intros Hrule.
    inversion Hstep as [| | | | | | |verdict s1 s1' Hfin|]; subst.
    rewrite Hrule in Hnode. cbn [get_final_determination_node] in Hnode.
    injection Hnode as Hnode. rewrite <- Hnode in Hfin.
    unfold final_determination_rule_based in Hfin. cbn zeta in Hfin.
    destruct (decide _) in Hfin; [|done]. injection Hfin as Hfin.
    destruct s. simpl in *. congruence.
  - split; [done|]. split; [done|]. split; [intros _; apply Hend; simpl; lia|].
    intros _. apply Hverdict. simpl. lia.
Qed.

Lemma rtc_verdict_invariant (cfg : TrialMatcherConfig)
    (stores : gmap string Vectorstore) (g : Graph)
    (n n' : Node) (s s' : TrialMatcherState) :
  build_graph cfg stores = Ok g →
  rtc (step g) (n, s) (n', s') →
  verdict_invariant cfg n s → verdict_invariant cfg n' s'.
Proof.
  intros Hg Hrun.
  remember (n, s) as x eqn:Hx. remember (n', s') as y eqn:Hy.
  revert n s Hx. induction Hrun as [x|x [n1 s1] z Hstep Hrun IH]; intros n s Hx Hinv.
  - subst. by injection Hx as -> ->.
  - subst. apply (IH eq_refl n1 s1 eq_refl).
    by eapply step_verdict_invariant.
Qed.

(** X16. A run that reaches END has judged the whole trial.  From the
    initial state of a known trial, when a run arrives at END: nothing is
    queued or active; the completed list has as many criteria as the total,
    each with a determination; its ids are those the pre-pass settled
    followed by the others in the order of the trial, so they are the ids
    of the trial's criteria up to order; and a final determination is set,
    which under the rule-based method is the rule-based verdict on the
    completed list. *)
Theorem run_to_END (all_trial_criteria : gmap string (list Criterion))
    (mrn_ trial_id_ : string) (cfg : TrialMatcherConfig)
    (stores : gmap string Vectorstore) (g : Graph) (s0 s : TrialMatcherState) :
  initial_state all_trial_criteria mrn_ trial_id_ cfg = Ok s0 →
  build_graph cfg stores = Ok g →
  rtc (step g) (trial_coordinator_node, s0) (END, s) →
  ∃ criteria,
    all_trial_criteria !! trial_id_ = Some criteria
    ∧ uncompleted_criteria s = [] ∧ active_criterion s = None
    ∧ n_total_criteria s = Some (Z.of_nat (length (completed_criteria s)))
    ∧ length (completed_criteria s) = length (debug_slice cfg criteria)
    ∧ Forall determined (completed_criteria s)
    ∧ id <$> completed_criteria s
      = id <$> (filter (λ c, ¬ ordinary c) (debug_slice cfg criteria)
                ++ filter ordinary (debug_slice cfg criteria))
    ∧ id <$> completed_criteria s ≡ₚ id <$> debug_slice cfg criteria
    ∧ ∃ e, final_determination s = Some e
           ∧ (final_determination_method cfg = Some rule_based →
              e = rule_based_verdict (completed_criteria s)).
Proof.
  intros Hinit Hg Hrun.
  pose proof (initial_state_invariant _ _ _ _ _ Hinit) as Hinv0.
  pose proof (reachable_invariant cfg stores g s0 END s Hg Hinv0
                (rtc_reachable g s0 END s Hrun)) as (Hbucket & _ & _).
  rewrite initial_state_cases in Hinit.
  destruct (all_trial_criteria !! trial_id_) as [criteria|]; [|done].
  destruct (filter ordinary (debug_slice cfg criteria)) as [|a rest] eqn:Hf; [done|].
  injection Hinit as <-. exists criteria. split; [done|].
  set (s0 := mkState _ _ _ _ _ _ _ _) in *.
  assert (Hv0 : verdict_invariant cfg trial_coordinator_node s0).
  { split; [|split; [|split]].
    - simpl. apply Forall_fmap, Forall_forall. intros c Hc.
      apply list_elem_of_filter in Hc as [Hc _]. by apply resolved_determined.
    - intros [?|?]; discriminate.
    - simpl. lia.
    - simpl. lia. }
  destruct (rtc_verdict_invariant cfg stores g _ _ _ _ Hg Hrun Hv0)
    as (Hdet & _ & Hend & Hverdict).
  destruct (Hend ltac:(simpl; lia)) as [Hu Ha].
  destruct (rtc_keeps_criteria cfg stores g _ _ _ _ Hg Hrun) as [Hids _].
  unfold all_criteria in Hids. rewrite Hu, Ha in Hids. simpl in Hids.
  rewrite !app_nil_r in Hids.
  assert (Hids' : id <$> completed_criteria s
            = id <$> (filter (λ c, ¬ ordinary c) (debug_slice cfg criteria)
                      ++ a :: rest)).
  { rewrite Hids, !fmap_app. f_equal. rewrite <- list_fmap_compose.
    apply list_fmap_ext. intros i c _. simpl. unfold resolved.
    destruct (truthy_flag (vacuous c)); [done|].
    by destruct (truthy_flag (requires_human_review c)). }
  assert (Hperm : filter (λ c, ¬ ordinary c) (debug_slice cfg criteria) ++ a :: rest
                  ≡ₚ debug_slice cfg criteria).
  { rewrite <- Hf. rewrite Permutation_app_comm. apply filter_app_complement. }
  assert (Hlen : length (completed_criteria s) = length (debug_slice cfg criteria)).
  { rewrite <- (length_fmap id (completed_criteria s)), Hids', length_fmap.
    by rewrite Hperm. }
  split; [done|]. split; [done|]. split.
  { unfold bucket_conservation, bucket_count in Hbucket. rewrite Hbucket, Hu, Ha.
    simpl. f_equal; lia. }
  split; [done|]. split; [done|]. split; [by rewrite Hf|]. split.
  { rewrite Hids'. by rewrite Hperm. }
  apply Hverdict. simpl. lia.
Qed.

Lemma run_to_END_witness :
  ∃ criteria,
    trials !! "19-410" = Some criteria
    ∧ uncompleted_criteria finished = [] ∧ active_criterion finished = None
    ∧ n_total_criteria finished = Some (Z.of_nat (length (completed_criteria finished)))
    ∧ length (completed_criteria finished)
      = length (debug_slice single_expert_config criteria)
    ∧ Forall determined (completed_criteria finished)
    ∧ id <$> completed_criteria finished
      = id <$> (filter (λ c, ¬ ordinary c) (debug_slice single_expert_config criteria)
                ++ filter ordinary (debug_slice single_expert_config criteria))
    ∧ id <$> completed_criteria finished
      ≡ₚ id <$> debug_slice single_expert_config criteria
    ∧ ∃ e, final_determination finished = Some e
           ∧ (final_determination_method single_expert_config = Some rule_based →
              e = rule_based_verdict (completed_criteria finished)).
Proof.
  eapply (run_to_END trials "1234" "19-410" single_expert_config ∅ single_expert_graph).
  - vm_compute. reflexivity.
  - reflexivity.
  - eapply rtc_l.
    { eapply (step_coordinator_single _ _ no_update); reflexivity. }
    eapply rtc_l.
    { eapply (step_experts _ ["expert"] [([snippet "n1"], "aged 61")]);
        vm_compute; reflexivity. }
    eapply rtc_l.
    { eapply (step_adjudicate_unchecked _ met); [reflexivity|vm_compute; reflexivity]. }
    eapply rtc_l.
    { eapply step_update_current_criterion. vm_compute. reflexivity. }
    eapply rtc_l.
    { eapply (step_coordinator_single _ _ no_update); reflexivity. }
    eapply rtc_l.
    { eapply (step_experts _ ["expert"] [([snippet "n2"], "pregnant")]);
        vm_compute; reflexivity. }
    eapply rtc_l.
    { eapply (step_adjudicate_unchecked _ met); [reflexivity|vm_compute; reflexivity]. }
    eapply rtc_l.
    { eapply step_update_current_criterion. vm_compute. reflexivity. }
    eapply rtc_l.
    { eapply (step_make_final_determination _ eligible). vm_compute. reflexivity. }
    eapply rtc_l.
    { eapply step_save_results. vm_compute. reflexivity. }
    apply rtc_refl.
Defined.

(** ** Retry: edges and the time slept *)

(** X17. The edges of the retry wrapper.  With a negative [max_retries] the
    wrapped function is never called and the wrapper returns [None] without
    raising.  With [max_retries = 0] it is called exactly once and never
    retried: what it returns or raises is the wrapper's outcome.  With at
    least one retry allowed and a base wait that [time.sleep] refuses, the
    first rate-limit error ends, after one call and no sleep, in the
    exception of [time.sleep]: OverflowError when [base_wait] is beyond
    [sleep_max] seconds either way, ValueError when it is negative and
    within. *)
Theorem retry_edges {A} (max_retries_ base_wait_ : Z) (func : nat → outcome A) :
  (max_retries_ < 0 →
   retry_with_exponential_backoff max_retries_ base_wait_ func
   = (ReturnedNone, mkEffects 0 []))
  ∧ (max_retries_ = 0 →
     retry_with_exponential_backoff max_retries_ base_wait_ func
     = (match func 0%nat with Returns v => Returned v | Raises e => Raised e end,
        mkEffects 1 []))
  ∧ (0 < max_retries_ →
     ∀ tag, func 0%nat = Raises (RateLimitError tag) →
     (base_wait_ < - sleep_max ∨ sleep_max < base_wait_ →
      retry_with_exponential_backoff max_retries_ base_wait_ func
      = (Raised OverflowError, mkEffects 1 []))
     ∧ (- sleep_max ≤ base_wait_ < 0 →
        retry_with_exponential_backoff max_retries_ base_wait_ func
        = (Raised ValueError, mkEffects 1 []))).
Proof.
  unfold retry_with_exponential_backoff. split; [|split].
  - intros Hneg. cbn [retry_loop]. by rewrite decide_False by lia.
  - intros ->. cbn [retry_loop]. rewrite decide_True by lia. cbn [calls sleeps].
    destruct (func 0%nat) as [v|e]; [done|].
    destruct (is_rate_limit e); [|done]. by rewrite decide_True by lia.
  - intros Hpos tag Hf. cbn [retry_loop]. rewrite decide_True by lia.
    cbn [calls sleeps]. rewrite Hf. cbn [is_rate_limit].
    rewrite decide_False by lia.
    replace (0 + 1 - 1) with 0 by lia. rewrite Z.pow_0_r, Z.mul_1_r.
    split; intros Hbase.
    + assert (Hsleep : time_sleep base_wait_ = Raise OverflowError)
        by (apply time_sleep_Raise; by left).
      by rewrite Hsleep.
    + assert (Hsleep : time_sleep base_wait_ = Raise ValueError)
        by (apply time_sleep_Raise; by right).
      by rewrite Hsleep.
Qed.

Lemma waits_sum (base_wait_ : Z) (len n : nat) :
  foldr Z.add 0 (waits base_wait_ n len)
  = base_wait_ * 2 ^ Z.of_nat n * (2 ^ Z.of_nat len - 1).
Proof.
  revert n. induction len as [|len IH]; intros n.
  - simpl. lia.
  - rewrite waits_cons. cbn [foldr]. rewrite IH.
    replace (Z.of_nat (S n)) with (Z.of_nat n + 1) by lia.
    replace (Z.of_nat (S len)) with (Z.of_nat len + 1) by lia.
    rewrite !Z.pow_add_r by lia. lia.
Qed.

(** X18. How long a model call can wait.  When the configuration has
    [max_retries >= 0] and [base_wait >= 0], [chat_completions_parse] makes
    at most [max_retries + 1] calls and the time it sleeps in total is
    [base_wait * (2 ^ (calls - 1) - 1)], which is at most
    [base_wait * (2 ^ max_retries - 1)].  Every single sleep is a length
    [time.sleep] accepted, between 0 and [sleep_max] seconds: a wait beyond
    that ends the call with OverflowError instead of being slept. *)
Theorem chat_completions_parse_total_sleep {A} (run_config_ : TrialMatcherConfig)
    (parse : nat → outcome A) :
  0 ≤ max_retries run_config_ → 0 ≤ base_wait run_config_ →
  let eff := (chat_completions_parse run_config_ parse).2 in
  1 ≤ Z.of_nat (calls eff) ≤ max_retries run_config_ + 1
  ∧ total_sleep eff = base_wait run_config_ * (2 ^ (Z.of_nat (calls eff) - 1) - 1)
  ∧ 0 ≤ total_sleep eff ≤ base_wait run_config_ * (2 ^ max_retries run_config_ - 1)
  ∧ Forall (λ wait_time, 0 ≤ wait_time ≤ sleep_max) (sleeps eff).
Proof.
  intros Hmax Hbase eff. subst eff. unfold chat_completions_parse.
  destruct (retry_with_exponential_backoff _ _ parse) as [res eff] eqn:Hrun.
  cbn [snd]. unfold retry_with_exponential_backoff in Hrun.
  apply (retry_loop_spec _ _ _ _ 0 []) in Hrun
    as (_ & Hcalls & Hbound & Hsl & Hretried & _); [|lia|lia].
  split; [lia|]. unfold total_sleep. rewrite Hsl. cbn [app].
  assert (1 ≤ 2 ^ (Z.of_nat (calls eff) - 1)) by (apply Z.pow_le_mono_r with (b := 0); lia).
  assert (2 ^ (Z.of_nat (calls eff) - 1) ≤ 2 ^ max_retries run_config_)
    by (apply Z.pow_le_mono_r; lia).
  split; [|split].
  - rewrite waits_sum.
    replace (Z.of_nat (calls eff - 1 - 0)) with (Z.of_nat (calls eff) - 1) by lia.
    simpl (2 ^ Z.of_nat 0). lia.
  - rewrite waits_sum.
    replace (Z.of_nat (calls eff - 1 - 0)) with (Z.of_nat (calls eff) - 1) by lia.
    simpl (2 ^ Z.of_nat 0). split; nia.
  - unfold waits. apply Forall_fmap, Forall_forall. intros j Hj.
    apply elem_of_seq in Hj. cbn beta.
    apply time_sleep_Ok, Hretried. lia.
Qed.

Lemma chat_completions_parse_total_sleep_witness :
  1 ≤ Z.of_nat (calls (chat_completions_parse single_expert_config throttled).2) ≤ 5 + 1
  ∧ total_sleep (chat_completions_parse single_expert_config throttled).2
    = 1 * (2 ^ (Z.of_nat (calls (chat_completions_parse single_expert_config throttled).2)
                - 1) - 1)
  ∧ 0 ≤ total_sleep (chat_completions_parse single_expert_config throttled).2
      ≤ 1 * (2 ^ 5 - 1)
  ∧ Forall (λ wait_time, 0 ≤ wait_time ≤ sleep_max)
      (sleeps (chat_completions_parse single_expert_config throttled).2).
Proof.
  apply (chat_completions_parse_total_sleep single_expert_config throttled).
  - vm_compute. discriminate.
  - vm_compute. discriminate.
Defined.

(** ** Ids and the order of the saved criteria *)

Lemma digit_of_pretty_N_char (d : N) :
  (d < 10)%N → digit_of (pretty_N_char d) = Some (Z.of_N d).
Proof.
  intros Hd.
  assert (d = 0 ∨ d = 1 ∨ d = 2 ∨ d = 3 ∨ d = 4 ∨ d = 5 ∨ d = 6 ∨ d = 7 ∨ d = 8
          ∨ d = 9)%N as Hcases by lia.
  repeat (destruct Hcases as [->|Hcases]; [reflexivity|]). by subst.
Qed.

Lemma parse_digits_pretty_N_go (x : N) (s : string) (after_digit : bool) :
  (0 < x)%N →
  parse_digits (String.list_ascii_of_string (pretty_N_go x s)) 0 after_digit
  = parse_digits (String.list_ascii_of_string s) (Z.of_N x) true.
Proof.
  revert s after_digit. induction (N.lt_wf_0 x) as [x _ IH]; intros s b Hx.
  rewrite pretty_N_go_step by done.
  assert (Hmod : (x `mod` 10 < 10)%N) by (apply N.mod_lt; lia).
  destruct (decide (x `div` 10 = 0)%N) as [Hz|Hnz].
  - rewrite Hz, pretty_N_go_0. cbn [String.list_ascii_of_string parse_digits].
    rewrite digit_of_pretty_N_char by done.
    f_equal. pose proof (N.div_mod x 10). lia.
  - rewrite IH; [|apply N.div_lt; lia|by apply N.neq_0_lt_0].
    cbn [String.list_ascii_of_string parse_digits].
    rewrite digit_of_pretty_N_char by done.
    f_equal. pose proof (N.div_mod x 10). lia.
Qed.

Lemma parse_digits_pretty_N (x : N) :
  parse_digits (String.list_ascii_of_string (pretty x)) 0 false = Some (Z.of_N x).
Proof.
  unfold pretty, pretty_N. destruct (decide (x = 0)%N) as [->|Hx]; [done|].
  rewrite parse_digits_pretty_N_go by lia. done.
Qed.

Lemma pretty_N_go_head (x : N) (s : string) :
  (0 < x)%N →
  ∃ d rest, (d < 10)%N ∧ pretty_N_go x s = String (pretty_N_char d) rest.
Proof.
  revert s. induction (N.lt_wf_0 x) as [x _ IH]; intros s Hx.
  rewrite pretty_N_go_step by done.
  destruct (decide (x `div` 10 = 0)%N) as [Hz|Hnz].
  - rewrite Hz, pretty_N_go_0. exists (x `mod` 10)%N, s.
    split; [apply N.mod_lt; lia|done].
  - apply IH; [apply N.div_lt; lia|by apply N.neq_0_lt_0].
Qed.

Lemma pretty_N_head (x : N) :
  ∃ d rest, (d < 10)%N ∧ pretty x = String (pretty_N_char d) rest.
Proof.
  unfold pretty, pretty_N. destruct (decide (x = 0)%N) as [->|Hx].
  - by exists 0%N, "".
  - apply pretty_N_go_head. lia.
Qed.

Lemma pretty_N_char_plain (d : N) :
  (d < 10)%N →
  pretty_N_char d ≠ "-"%char ∧ pretty_N_char d ≠ "+"%char
  ∧ is_space (pretty_N_char d) = false.
Proof.
  intros Hd.
  assert (d = 0 ∨ d = 1 ∨ d = 2 ∨ d = 3 ∨ d = 4 ∨ d = 5 ∨ d = 6 ∨ d = 7 ∨ d = 8
          ∨ d = 9)%N as Hcases by lia.
  repeat (destruct Hcases as [->|Hcases]; [by repeat split|]). subst. by repeat split.
Qed.

(** [int(str(n)) == n] *)
Lemma python_int_pretty (n : Z) :
  python_int (String.list_ascii_of_string (pretty n)) = Ok n.
Proof.
  destruct n as [|p|p]; [done| |].
  - unfold pretty, pretty_Z, pretty, pretty_positive.
    destruct (pretty_N_head (N.pos p)) as (d & rest & Hd & Heq).
    pose proof (parse_digits_pretty_N (N.pos p)) as Hparse.
    rewrite Heq in Hparse |- *. cbn [String.list_ascii_of_string] in *.
    destruct (pretty_N_char_plain d Hd) as (Hminus & Hplus & _).
    unfold python_int. rewrite decide_False by done. rewrite decide_False by done.
    by rewrite Hparse.
  - unfold pretty, pretty_Z.
    change ("-" +:+ pretty p) with (String "-" (pretty p)).
    cbn [String.list_ascii_of_string]. unfold python_int. rewrite decide_True by done.
    unfold pretty, pretty_positive. rewrite parse_digits_pretty_N. done.
Qed.

Lemma list_ascii_of_string_app (a b : string) :
  String.list_ascii_of_string (a +:+ b)
  = String.list_ascii_of_string a ++ String.list_ascii_of_string b.
Proof. induction a as [|c a IH]; [done|]. simpl. by rewrite IH. Qed.

Lemma split_go_no_space (ds tok : list ascii) (acc : list (list ascii)) :
  Forall (λ c, is_space c = false) ds →
  split_go ds tok acc = if tok ++ ds is [] then acc else acc ++ [tok ++ ds].
Proof.
  intros Hds. revert tok. induction Hds as [|d ds Hd _ IH]; intros tok.
  - simpl. rewrite app_nil_r. done.
  - cbn [split_go]. rewrite Hd, IH. rewrite <- app_assoc. simpl.
    destruct tok; done.
Qed.

Lemma split_go_last (cs ds tok : list ascii) (acc : list (list ascii)) :
  ds ≠ [] → Forall (λ c, is_space c = false) ds →
  last (split_go (cs ++ " "%char :: ds) tok acc) = Some ds.
Proof.
  intros Hne Hds. revert tok acc. induction cs as [|c cs IH]; intros tok acc.
  - cbn [app split_go]. change (is_space " ") with true. cbn match.
    rewrite split_go_no_space by done. simpl.
    destruct ds; [done|]. by rewrite last_snoc.
  - cbn [app split_go]. destruct (is_space c); apply IH.
Qed.

Lemma pretty_N_go_chars (P : ascii → Prop) (x : N) (s : string) :
  (∀ d, (d < 10)%N → P (pretty_N_char d)) →
  Forall P (String.list_ascii_of_string s) →
  Forall P (String.list_ascii_of_string (pretty_N_go x s)).
Proof.
  intros Hchar. revert s. induction (N.lt_wf_0 x) as [x _ IH]; intros s Hs.
  destruct (decide (x = 0)%N) as [->|Hx]; [by rewrite pretty_N_go_0|].
  rewrite pretty_N_go_step by (by apply N.neq_0_lt_0).
  apply IH; [apply N.div_lt; [by apply N.neq_0_lt_0|lia]|].
  simpl. constructor; [|done]. apply Hchar, N.mod_lt. lia.
Qed.

Lemma pretty_Z_no_space (n : Z) :
  Forall (λ c, is_space c = false) (String.list_ascii_of_string (pretty n)).
Proof.
  assert (∀ x : N, Forall (λ c, is_space c = false)
                     (String.list_ascii_of_string (pretty x))) as HN.
  { intros x. unfold pretty, pretty_N. destruct (decide (x = 0)%N); [by repeat constructor|].
    apply pretty_N_go_chars; [|constructor]. intros d Hd.
    by destruct (pretty_N_char_plain d Hd) as (_ & _ & ?). }
  destruct n as [|p|p]; unfold pretty, pretty_Z.
  - by repeat constructor.
  - apply HN.
  - change ("-" +:+ pretty p) with (String "-" (pretty p)). simpl.
    constructor; [done|apply HN].
Qed.

Lemma numeric_suffix_chars (ident : string) (cs : list ascii) (n : Z) :
  String.list_ascii_of_string ident
  = cs ++ " "%char :: String.list_ascii_of_string (pretty n) →
  numeric_suffix ident = Ok n.
Proof.
  intros Hid. unfold numeric_suffix, split. rewrite Hid, split_go_last.
  - apply python_int_pretty.
  - intros Hnil. pose proof (pretty_Z_nonempty n) as Hlen.
    destruct (pretty n); [simpl in Hlen; lia|done].
  - apply pretty_Z_no_space.
Qed.

Lemma build_criterion_static (vac hr : gmap string string) (type : CriterionType)
    (c : Z) (text : string) :
  id (build_criterion vac hr type c text) = type_name type +:+ " criterion " +:+ pretty c
  ∧ criterion_text (build_criterion vac hr type c text) = text
  ∧ criterion_type (build_criterion vac hr type c text) = type
  ∧ vacuous (build_criterion vac hr type c text)
    = Some (bool_decide (is_Some (vac !! text)))
  ∧ requires_human_review (build_criterion vac hr type c text)
    = Some (bool_decide (is_Some (hr !! text)))
  ∧ determination (build_criterion vac hr type c text) = None
  ∧ explanation (build_criterion vac hr type c text) = None.
Proof.
  unfold build_criterion. cbn zeta.
  destruct (decide (is_Some (vac !! text))) as [Hv|Hv],
    (decide (is_Some (hr !! text))) as [Hh|Hh]; cbn;
    rewrite ?(bool_decide_eq_true_2 _ Hv), ?(bool_decide_eq_false_2 _ Hv),
      ?(bool_decide_eq_true_2 _ Hh), ?(bool_decide_eq_false_2 _ Hh); done.
Qed.

Lemma build_criterion_sort_key (vac hr : gmap string string) (type : CriterionType)
    (c : Z) (text : string) :
  numeric_suffix (id (build_criterion vac hr type c text)) = Ok c
  ∧ sort_key (build_criterion vac hr type c text)
    = Ok (if decide (type = inclusion) then -1 else 0, c).
Proof.
  destruct (build_criterion_static vac hr type c text) as (Hid & _ & Hty & _).
  assert (Hn : numeric_suffix (id (build_criterion vac hr type c text)) = Ok c).
  { apply (numeric_suffix_chars _
             (String.list_ascii_of_string (type_name type +:+ " criterion"))).
    rewrite Hid, !list_ascii_of_string_app. rewrite <- app_assoc. done. }
  split; [done|]. unfold sort_key. rewrite Hn. cbn [mbind result_bind]. by rewrite Hty.
Qed.

(** X19. Reading back the number of an id.  The key that orders the saved
    criteria parses the last blank-separated piece of the id as an integer;
    for an id that ends in a blank followed by the decimal text of [n] it
    finds [n], whatever comes before.  So the ids the trial module builds,
    "inclusion criterion c" and "exclusion criterion c", have the keys
    [(-1, c)] and [(0, c)]. *)
Theorem numeric_suffix_round_trip (prefix : string) (n : Z) :
  numeric_suffix (prefix +:+ " " +:+ pretty n) = Ok n
  ∧ ∀ vac hr type text,
      sort_key (build_criterion vac hr type n text)
      = Ok (if decide (type = inclusion) then -1 else 0, n).
Proof.
  split.
  - apply (numeric_suffix_chars _ (String.list_ascii_of_string prefix)).
    by rewrite !list_ascii_of_string_app.
  - intros vac hr type text. apply build_criterion_sort_key.
Qed.

Lemma sort_key_static (c : Criterion) (k : Z * Z) :
  sort_key c = Ok k → k = static_key (static c).
Proof.
  unfold sort_key, static_key, static. cbn [fst snd].
  destruct (numeric_suffix (id c)) as [n|]; cbn [mbind result_bind]; [|done].
  by intros [= <-].
Qed.

Lemma static_numeric_suffix (c c' : Criterion) :
  static c = static c' → numeric_suffix (id c) = numeric_suffix (id c').
Proof. unfold static. by intros [= -> _ _ _ _]. Qed.

Lemma StronglySorted_lookup_2 {A} (R : relation A) (l : list A) :
  (∀ i j a b, (i < j)%nat → l !! i = Some a → l !! j = Some b → R a b) →
  StronglySorted R l.
Proof.
  induction l as [|x l IH]; intros Hl; constructor.
  - apply IH. intros i j a b Hij Ha Hb. by apply (Hl (S i) (S j)); [lia|..].
  - apply Forall_forall. intros y Hy. apply list_elem_of_lookup in Hy as [j Hj].
    by apply (Hl 0%nat (S j)); [lia|..].
Qed.

Lemma StronglySorted_take {A} (R : relation A) (l : list A) (k : nat) :
  StronglySorted R l → StronglySorted R (take k l).
Proof.
  intros Hl. rewrite <- (take_drop k l) in Hl. by apply StronglySorted_app_1_l in Hl.
Qed.

Lemma strict_sorted_eq {A} (R : relation A) (l : list A) (a b : A) :
  StronglySorted R l → a ∈ l → b ∈ l → ¬ R a b → ¬ R b a → a = b.
Proof.
  induction 1 as [|x l Hl IH Hx]; intros Ha Hb Hab Hba; [inversion Ha|].
  rewrite Forall_forall in Hx.
  apply elem_of_cons in Ha as [->|Ha], Hb as [->|Hb]; [done| | |by apply IH].
  - by destruct Hab; apply Hx.
  - by destruct Hba; apply Hx.
Qed.

Lemma enumerate_from_1_lookup (texts : list string) (i : nat) :
  enumerate_from_1 texts !! i = (λ text, (Z.of_nat i + 1, text)) <$> texts !! i.
Proof. unfold enumerate_from_1. by rewrite list_lookup_imap. Qed.

Lemma build_trial_lookup (vac hr : gmap string string) (trialcrit : TrialTexts)
    (i : nat) (c : Criterion) :
  build_trial vac hr trialcrit !! i = Some c →
  (∃ text, (i < length (inclusion_texts trialcrit))%nat
           ∧ c = build_criterion vac hr inclusion (Z.of_nat i + 1) text)
  ∨ (∃ text, (length (inclusion_texts trialcrit) ≤ i)%nat
             ∧ c = build_criterion vac hr exclusion
                     (Z.of_nat (i - length (inclusion_texts trialcrit)) + 1) text).
Proof.
  unfold build_trial. cbn zeta. intros Hi.
  apply lookup_app_Some in Hi as [Hi|[Hlen Hi]].
  - left. rewrite list_lookup_fmap, enumerate_from_1_lookup in Hi.
    destruct (inclusion_texts trialcrit !! i) as [text|] eqn:Ht; [|done].
    injection Hi as <-. exists text. split; [by eapply lookup_lt_Some|done].
  - right. rewrite length_fmap in Hlen, Hi. unfold enumerate_from_1 in Hlen, Hi.
    rewrite length_imap in Hlen, Hi. fold (enumerate_from_1 (exclusion_texts trialcrit)) in Hi.
    rewrite list_lookup_fmap, enumerate_from_1_lookup in Hi.
    destruct (exclusion_texts trialcrit !! _) as [text|] eqn:Ht; [|done].
    injection Hi as <-. exists text. split; [done|done].
Qed.

Lemma build_criterion_static_key (vac hr : gmap string string) (type : CriterionType)
    (c : Z) (text : string) :
  static_key (static (build_criterion vac hr type c text))
  = (if decide (type = inclusion) then -1 else 0, c).
Proof.
  destruct (build_criterion_sort_key vac hr type c text) as [_ Hk].
  by apply sort_key_static in Hk.
Qed.

Lemma build_trial_sorted (vac hr : gmap string string) (trialcrit : TrialTexts) :
  StronglySorted static_lt (static <$> build_trial vac hr trialcrit).
Proof.
  apply StronglySorted_lookup_2. intros i j a b Hij Ha Hb.
  rewrite list_lookup_fmap in Ha, Hb.
  destruct (build_trial vac hr trialcrit !! i) as [ca|] eqn:Hca; [|done].
  destruct (build_trial vac hr trialcrit !! j) as [cb|] eqn:Hcb; [|done].
  injection Ha as <-. injection Hb as <-.
  apply build_trial_lookup in Hca as [(ta & Hia & ->)|(ta & Hia & ->)],
    Hcb as [(tb & Hib & ->)|(tb & Hib & ->)];
    unfold static_lt; rewrite !build_criterion_static_key; apply key_lt_spec;
    cbn [fst snd]; simpl; lia.
Qed.

Lemma build_trial_keys (vac hr : gmap string string) (trialcrit : TrialTexts) :
  Forall (λ c, is_ok (numeric_suffix (id c))) (build_trial vac hr trialcrit).
Proof.
  apply Forall_forall. intros c Hc. apply list_elem_of_lookup in Hc as [i Hi].
  apply build_trial_lookup in Hi as [(t & _ & ->)|(t & _ & ->)];
    by rewrite (proj1 (build_criterion_sort_key _ _ _ _ _)).
Qed.

Lemma keyed_static_sorted (ks : list ((Z * Z) * Criterion)) :
  Forall (λ p, sort_key p.2 = Ok p.1) ks →
  StronglySorted keyed_le ks → StronglySorted static_le (static <$> ks.*2).
Proof.
  intros Hks Hs. induction Hs as [|p ks Hs IH Hp]; [constructor|].
  apply Forall_cons in Hks as [Hk Hks]. rewrite !fmap_cons. constructor; [by apply IH|].
  apply Forall_fmap, Forall_fmap. rewrite Forall_forall in Hp, Hks |- *.
  intros q Hq. simpl. unfold static_le.
  rewrite <- (sort_key_static _ _ Hk), <- (sort_key_static _ _ (Hks q Hq)).
  by apply Hp.
Qed.

(** Sorting puts any arrangement of criteria whose keys are all different
    back into the one ascending arrangement. *)
Lemma sorted_completed_criteria_restores (l cs : list Criterion) :
  Forall (λ c, is_ok (numeric_suffix (id c))) l →
  StronglySorted static_lt (static <$> l) →
  static <$> cs ≡ₚ static <$> l →
  ∃ sorted,
    sorted_completed_criteria cs = Ok sorted
    ∧ sorted ≡ₚ cs
    ∧ static <$> sorted = static <$> l.
Proof.
  intros Hkeys Hsorted Hperm.
  assert (Hcs : Forall (λ c, is_ok (numeric_suffix (id c))) cs).
  { apply Forall_forall. intros c Hc.
    assert (static c ∈ static <$> l) as Hin
      by (rewrite <- Hperm; apply list_elem_of_fmap; by exists c).
    apply list_elem_of_fmap in Hin as (c' & Heq & Hc').
    rewrite (static_numeric_suffix _ _ Heq).
    rewrite Forall_forall in Hkeys. by apply Hkeys. }
  destruct (sort_keys_ok cs Hcs) as (ks & Hks & Hsnd & Hall).
  exists (sorted_by_key ks).*2.
  assert (Hp : (sorted_by_key ks).*2 ≡ₚ cs).
  { rewrite <- Hsnd. apply fmap_Permutation, sorted_by_key_Permutation. }
  split; [unfold sorted_completed_criteria; by rewrite Hks|]. split; [done|].
  apply (StronglySorted_unique_strong static_le).
  - intros x1 x2 Hx1 Hx2 H12 H21.
    apply (strict_sorted_eq static_lt (static <$> l)); [done| |done| |].
    + rewrite <- Hperm. by rewrite <- Hp.
    + unfold static_lt. unfold static_le, key_le in H21. by rewrite H21.
    + unfold static_lt. unfold static_le, key_le in H12. by rewrite H12.
  - apply keyed_static_sorted; [|apply sorted_by_key_sorted].
    rewrite <- (sorted_by_key_Permutation ks) in Hall. done.
  - apply (StronglySorted_weaken static_lt static_le (λ _, True));
      [|by apply Forall_true|exact Hsorted].
    intros a b _ _ Hab. unfold static_lt in Hab. unfold static_le. by apply key_lt_le.
  - by rewrite Hp.
Qed.

(** X20. Saving puts the criteria back into the order of the trial.  When
    the completed criteria of a state are, up to order and up to what the
    run found out, the first [k] criteria of a trial as the trial module
    builds it, [save_results] succeeds and the criteria it serialises are
    those criteria in the order of the trial: inclusion 1, 2, ... and then
    exclusion 1, 2, ...  Nothing is dropped or added. *)
Theorem save_results_restores_trial_order (vac hr : gmap string string)
    (trialcrit : TrialTexts) (k : nat) (state : TrialMatcherState) :
  static <$> completed_criteria state
    ≡ₚ static <$> take k (build_trial vac hr trialcrit) →
  ∃ document,
    save_results state = Ok document
    ∧ completed_criteria document ≡ₚ completed_criteria state
    ∧ static <$> completed_criteria document
      = static <$> take k (build_trial vac hr trialcrit).
Proof.
  intros Hperm.
  destruct (sorted_completed_criteria_restores
              (take k (build_trial vac hr trialcrit)) (completed_criteria state))
    as (sorted & Hrun & Hp & Hst); [| |done|].
  - apply Forall_take, build_trial_keys.
  - rewrite fmap_take. apply StronglySorted_take, build_trial_sorted.
  - exists (set_completed_criteria sorted state).
    split; [unfold save_results; by rewrite Hrun|]. by destruct state.
Qed.

Lemma save_results_restores_trial_order_witness :
  ∃ document,
    save_results saved_out_of_order = Ok document
    ∧ completed_criteria document ≡ₚ completed_criteria saved_out_of_order
    ∧ static <$> completed_criteria document
      = static <$> take 3 (build_trial example_vacuous ∅ example_texts).
Proof.
  apply (save_results_restores_trial_order example_vacuous ∅ example_texts 3
           saved_out_of_order).
  apply perm_swap.
Defined.

Lemma debug_slice_take (cfg : TrialMatcherConfig) (l : list Criterion) :
  ∃ k, debug_slice cfg l = take k l.
Proof.
  unfold debug_slice, slice_to. destruct (debug_first_n cfg) as [n|].
  - destruct (decide (n = 0)); [exists (length l); by rewrite firstn_all|].
    destruct (decide (0 ≤ n)); by eexists.
  - exists (length l). by rewrite firstn_all.
Qed.

Lemma build_trial_ids_NoDup (vac hr : gmap string string) (trialcrit : TrialTexts) :
  NoDup (id <$> build_trial vac hr trialcrit).
Proof.
  apply NoDup_alt. intros i j x Hi Hj. rewrite list_lookup_fmap in Hi, Hj.
  destruct (build_trial vac hr trialcrit !! i) as [ci|] eqn:Hci; [|done].
  destruct (build_trial vac hr trialcrit !! j) as [cj|] eqn:Hcj; [|done].
  injection Hi as Hi. injection Hj as Hj. rewrite <- Hj in Hi. clear Hj.
  apply build_trial_lookup in Hci as [(ti & Hli & ->)|(ti & Hli & ->)],
    Hcj as [(tj & Hlj & ->)|(tj & Hlj & ->)];
    rewrite !(proj1 (build_criterion_static _ _ _ _ _)) in Hi; simpl in Hi.
  - injection Hi as Hi. do 2 (apply (String.app_inj _) in Hi || idtac).
    repeat (injection Hi as Hi). apply pretty_Z_inj in Hi. lia.
  - discriminate.
  - discriminate.
  - injection Hi as Hi. repeat (injection Hi as Hi). apply pretty_Z_inj in Hi. lia.
Qed.

Lemma static_resolved (c : Criterion) : static (resolved c) = static c.
Proof.
  unfold resolved. destruct (truthy_flag (vacuous c)); [done|].
  by destruct (truthy_flag (requires_human_review c)).
Qed.

Lemma NoDup_take_prefix {A} (l : list A) (k : nat) : NoDup l → NoDup (take k l).
Proof.
  intros Hl. rewrite <- (take_drop k l) in Hl. by apply NoDup_app in Hl as [? _].
Qed.

(** X21. The document of a finished run lists the trial in the trial's
    order.  For the criteria the trial module builds: when a run from the
    initial state of a trial arrives at END, [save_results] succeeds on its
    state, and the criteria it serialises are exactly the criteria the run
    worked on (the trial's list, cut by [debug_first_n]), with their ids,
    texts, types and flags, in the order of the trial, each with a
    determination. *)
Theorem saved_document_in_trial_order (vac hr : gmap string string)
    (_trial_criteria : gmap string TrialTexts) (mrn_ trial_id_ : string)
    (cfg : TrialMatcherConfig) (stores : gmap string Vectorstore) (g : Graph)
    (s0 s : TrialMatcherState) :
  initial_state (build_all_trial_criteria vac hr _trial_criteria) mrn_ trial_id_ cfg
    = Ok s0 →
  build_graph cfg stores = Ok g →
  rtc (step g) (trial_coordinator_node, s0) (END, s) →
  ∃ trialcrit document,
    _trial_criteria !! trial_id_ = Some trialcrit
    ∧ save_results s = Ok document
    ∧ static <$> completed_criteria document
      = static <$> debug_slice cfg (build_trial vac hr trialcrit)
    ∧ Forall determined (completed_criteria document).
Proof.
  intros Hinit Hg Hrun. rewrite initial_state_cases in Hinit.
  unfold build_all_trial_criteria in Hinit. rewrite lookup_fmap in Hinit.
  destruct (_trial_criteria !! trial_id_) as [trialcrit|]; [|done].
  cbn [fmap option_fmap option_map] in Hinit.
  set (l := debug_slice cfg (build_trial vac hr trialcrit)) in *.
  destruct (filter ordinary l) as [|a rest] eqn:Hf; [done|].
  injection Hinit as <-. set (s0 := mkState _ _ _ _ _ _ _ _) in *.
  exists trialcrit.
  destruct (debug_slice_take cfg (build_trial vac hr trialcrit)) as [k Hk]. fold l in Hk.
  assert (Hperm : filter (λ c, ¬ ordinary c) l ++ a :: rest ≡ₚ l).
  { rewrite <- Hf. rewrite Permutation_app_comm. apply filter_app_complement. }
  assert (Hall0 : static <$> all_criteria s0
                  = static <$> (filter (λ c, ¬ ordinary c) l ++ a :: rest)).
  { unfold all_criteria. simpl. rewrite !fmap_app. f_equal.
    rewrite <- list_fmap_compose. apply list_fmap_ext. intros i c _. apply static_resolved. }
  assert (Hnd : NoDup (id <$> all_criteria s0)).
  { replace (id <$> all_criteria s0) with ((λ st, st.1.1.1.1) <$> (static <$> all_criteria s0))
      by (rewrite <- list_fmap_compose; done).
    rewrite Hall0, <- list_fmap_compose, Hperm, Hk.
    change ((λ st, st.1.1.1.1) ∘ static) with id.
    rewrite fmap_take. apply NoDup_take_prefix. apply build_trial_ids_NoDup. }
  assert (Hv0 : verdict_invariant cfg trial_coordinator_node s0).
  { split; [|split; [|split]].
    - simpl. apply Forall_fmap, Forall_forall. intros c Hc.
      apply list_elem_of_filter in Hc as [Hc _]. by apply resolved_determined.
    - intros [?|?]; discriminate.
    - simpl. lia.
    - simpl. lia. }
  destruct (rtc_verdict_invariant cfg stores g _ _ _ _ Hg Hrun Hv0)
    as (Hdet & _ & Hend & _).
  destruct (Hend ltac:(simpl; lia)) as [Hu Ha].
  destruct (rtc_keeps_criteria cfg stores g _ _ _ _ Hg Hrun) as [_ Hstat].
  specialize (Hstat Hnd). rewrite Hall0 in Hstat.
  unfold all_criteria in Hstat. rewrite Hu, Ha in Hstat. simpl in Hstat.
  rewrite app_nil_r in Hstat.
  destruct (sorted_completed_criteria_restores l (completed_criteria s))
    as (sorted & Hsave & Hp & Hst).
  - rewrite Hk. apply Forall_take, build_trial_keys.
  - rewrite Hk, fmap_take. apply StronglySorted_take, build_trial_sorted.
  - rewrite Hstat. by rewrite Hperm.
  - exists (set_completed_criteria sorted s).
    split; [done|]. split; [unfold save_results; by rewrite Hsave|].
    split; [by destruct s|]. destruct s. simpl in *. by rewrite Hp.
Qed.

Lemma saved_document_in_trial_order_witness :
  ∃ trialcrit document,
    example_trials !! "19-410" = Some trialcrit
    ∧ save_results saved_out_of_order = Ok document
    ∧ static <$> completed_criteria document
      = static <$> debug_slice single_expert_config
                     (build_trial example_vacuous ∅ trialcrit)
    ∧ Forall determined (completed_criteria document).
Proof.
  eapply (saved_document_in_trial_order example_vacuous ∅ example_trials "1234" "19-410"
            single_expert_config ∅ single_expert_graph).
  - vm_compute. reflexivity.
  - reflexivity.
  - eapply rtc_l.
    { eapply (step_coordinator_single _ _ no_update); reflexivity. }
    eapply rtc_l.
    { eapply (step_experts _ ["expert"] [([snippet "n1"], "aged 61")]);
        vm_compute; reflexivity. }
    eapply rtc_l.
    { eapply (step_adjudicate_unchecked _ met); [reflexivity|vm_compute; reflexivity]. }
    eapply rtc_l.
    { eapply step_update_current_criterion. vm_compute. reflexivity. }
    eapply rtc_l.
    { eapply (step_coordinator_single _ _ no_update); reflexivity. }
    eapply rtc_l.
    { eapply (step_experts _ ["expert"] [([snippet "n2"], "not pregnant")]);
        vm_compute; reflexivity. }
    eapply rtc_l.
    { eapply (step_adjudicate_unchecked _ not_met);
        [reflexivity|vm_compute; reflexivity]. }
    eapply rtc_l.
    { eapply step_update_current_criterion. vm_compute. reflexivity. }
    eapply rtc_l.
    { eapply (step_make_final_determination _ eligible). vm_compute. reflexivity. }
    eapply rtc_l.
    { eapply step_save_results. vm_compute. reflexivity. }
    apply rtc_refl.
Defined.

(** ** Saving: failures and a second save *)

Lemma sort_keys_keyed (ks : list ((Z * Z) * Criterion)) :
  Forall (λ p, sort_key p.2 = Ok p.1) ks → sort_keys ks.*2 = Ok ks.
Proof.
  induction 1 as [|[k c] ks Hk _ IH]; [done|].
  rewrite fmap_cons. cbn [sort_keys snd]. simpl in Hk. rewrite Hk.
  cbn [mbind result_bind]. rewrite IH. done.
Qed.

Lemma sorted_by_key_sorted_id (ks : list ((Z * Z) * Criterion)) :
  StronglySorted keyed_le ks → sorted_by_key ks = ks.
Proof.
  induction 1 as [|p ks Hs IH Hp]; [done|].
  unfold sorted_by_key in *. cbn [foldr]. rewrite IH.
  destruct ks as [|q rest]; [done|]. cbn [insert_by_key].
  apply Forall_cons in Hp as [Hpq _]. unfold keyed_le, key_le in Hpq. by rewrite Hpq.
Qed.

Lemma sort_keys_failure (l : list Criterion) (e : exn) :
  sort_keys l = Raise e
  ↔ ∃ before c after,
      l = before ++ c :: after
      ∧ Forall (λ c, is_ok (numeric_suffix (id c))) before
      ∧ numeric_suffix (id c) = Raise e.
Proof.
  induction l as [|x l IH].
  - split; [done|]. intros (before & c & after & Hl & _). by destruct before.
  - cbn [sort_keys]. unfold sort_key at 1.
    destruct (numeric_suffix (id x)) as [n|e'] eqn:Hx; cbn [mbind result_bind].
    + destruct (sort_keys l) as [ks|e'] eqn:Hl; cbn [mbind result_bind].
      * split; [done|]. intros (before & c & after & Heq & Hb & Hc).
        destruct before as [|b before]; simpl in Heq; injection Heq as -> ->.
        -- congruence.
        -- apply Forall_cons in Hb as [_ Hb].
           assert (Habs : Ok ks = Raise e :> result (list ((Z * Z) * Criterion)))
             by (apply IH; by exists before, c, after).
           discriminate Habs.
      * split.
        -- intros Heq. apply IH in Heq as (before & c & after & -> & Hb & Hc).
           exists (x :: before), c, after. split; [done|].
           split; [constructor; [by rewrite Hx|done]|done].
        -- intros (before & c & after & Heq & Hb & Hc).
           destruct before as [|b before]; simpl in Heq; injection Heq as -> ->.
           ++ congruence.
           ++ apply Forall_cons in Hb as [_ Hb]. apply IH. by exists before, c, after.
    + split.
      * intros [= <-]. exists [], x, l. by repeat split.
      * intros (before & c & after & Heq & Hb & Hc).
        destruct before as [|b before]; simpl in Heq; injection Heq as -> ->.
        -- congruence.
        -- apply Forall_cons in Hb as [Hb _]. by rewrite Hx in Hb.
Qed.

Lemma sort_keys_Ok_inv (l : list Criterion) (ks : list ((Z * Z) * Criterion)) :
  sort_keys l = Ok ks → ks.*2 = l ∧ Forall (λ p, sort_key p.2 = Ok p.1) ks.
Proof.
  revert ks. induction l as [|x l IH]; intros ks.
  - intros [= <-]. by split.
  - cbn [sort_keys]. destruct (sort_key x) as [k|] eqn:Hk; cbn [mbind result_bind]; [|done].
    destruct (sort_keys l) as [ks'|] eqn:Hl; cbn [mbind result_bind]; [|done].
    intros [= <-]. destruct (IH ks' eq_refl) as [Hsnd Hall].
    split; [by rewrite fmap_cons, Hsnd|]. by constructor.
Qed.

(** X22. The failures of the ordering statement of [save_results],
    [sorted(state.completed_criteria, key=...)], and a second sort.  It
    raises exactly when some completed criterion has an id whose last
    blank-separated piece is not an integer, and then with the error of the
    first such criterion: IndexError for an id with no piece at all,
    ValueError otherwise.  When it succeeds, sorting its result again gives
    the same list: the order it leaves is a fixed point.  (What else
    [save_results] does, the cost estimate, the timestamp and the writes,
    is not part of the statement.) *)
Theorem sorted_completed_criteria_failures (completed : list Criterion) :
  (∀ e, sorted_completed_criteria completed = Raise e
        ↔ ∃ before c after,
            completed = before ++ c :: after
            ∧ Forall (λ c, is_ok (numeric_suffix (id c))) before
            ∧ numeric_suffix (id c) = Raise e)
  ∧ (∀ c e, numeric_suffix (id c) = Raise e →
       (e = IndexError ∧ split (id c) = []) ∨ (e = ValueError ∧ split (id c) ≠ []))
  ∧ (∀ sorted, sorted_completed_criteria completed = Ok sorted →
       sorted_completed_criteria sorted = Ok sorted).
Proof.
  split; [|split].
  - intros e. rewrite <- sort_keys_failure.
    unfold sorted_completed_criteria.
    destruct (sort_keys completed) as [ks|e'];
      cbn [mbind result_bind]; [done|]. split; by intros [= <-].
  - intros c e. unfold numeric_suffix.
    destruct (split (id c)) as [|t ts] eqn:Hs using rev_ind.
    + intros [= <-]. by left.
    + rewrite last_snoc. unfold python_int.
      destruct (match t with [] => _ | _ => _ end) as [neg body].
      destruct (parse_digits body 0 false); [done|]. intros [= <-]. right.
      split; [done|]. by destruct ts.
  - intros sorted. unfold sorted_completed_criteria.
    destruct (sort_keys completed) as [ks|] eqn:Hks;
      cbn [mbind result_bind]; [|done].
    intros [= <-]. destruct (sort_keys_Ok_inv _ _ Hks) as [_ Hall].
    assert (Hall' : Forall (λ p, sort_key p.2 = Ok p.1) (sorted_by_key ks))
      by (by rewrite (sorted_by_key_Permutation ks)).
    rewrite (sort_keys_keyed _ Hall'). cbn [mbind result_bind].
    by rewrite (sorted_by_key_sorted_id _ (sorted_by_key_sorted ks)).
Qed.

(** ** The criteria of the trials *)

Lemma build_criterion_dom (vac vac' hr hr' : gmap string string)
    (type : CriterionType) (c : Z) (text : string) :
  dom vac = dom vac' → dom hr = dom hr' →
  build_criterion vac hr type c text = build_criterion vac' hr' type c text.
Proof.
  intros Hv Hh. unfold build_criterion. cbn zeta.
  assert (is_Some (vac !! text) ↔ is_Some (vac' !! text)) as Hv'
    by (by rewrite <- !elem_of_dom, Hv).
  assert (is_Some (hr !! text) ↔ is_Some (hr' !! text)) as Hh'
    by (by rewrite <- !elem_of_dom, Hh).
  destruct (decide (is_Some (vac !! text))), (decide (is_Some (vac' !! text)));
    destruct (decide (is_Some (hr !! text))), (decide (is_Some (hr' !! text)));
    try done; tauto.
Qed.

(** X23. What the trial module builds.  A trial gets one criterion for
    each of its texts, the inclusion texts first, and the ids are pairwise
    distinct.  A criterion is vacuous exactly when its text is a key of
    [vacuous_criteria] and is for human review exactly when its text is a
    key of [requires_human_review]; the trial ids these dicts hold as
    values play no part, so an entry flags its text in every trial.  No
    criterion has a determination or an explanation, and a criterion is
    left to the pipeline exactly when its text is a key of neither dict. *)
Theorem build_trial_spec (vac hr : gmap string string) (trialcrit : TrialTexts) :
  (criterion_text <$> build_trial vac hr trialcrit)
    = inclusion_texts trialcrit ++ exclusion_texts trialcrit
  ∧ (criterion_type <$> build_trial vac hr trialcrit)
    = replicate (length (inclusion_texts trialcrit)) inclusion
      ++ replicate (length (exclusion_texts trialcrit)) exclusion
  ∧ NoDup (id <$> build_trial vac hr trialcrit)
  ∧ Forall (λ c,
       (vacuous c = Some true ↔ criterion_text c ∈ dom vac)
       ∧ (requires_human_review c = Some true ↔ criterion_text c ∈ dom hr)
       ∧ (ordinary c ↔ (criterion_text c ∉ dom vac) ∧ (criterion_text c ∉ dom hr))
       ∧ determination c = None ∧ explanation c = None)
      (build_trial vac hr trialcrit)
  ∧ (∀ vac' hr', dom vac' = dom vac → dom hr' = dom hr →
       build_trial vac' hr' trialcrit = build_trial vac hr trialcrit).
Proof.
  split; [|split; [|split; [|split]]].
  - unfold build_trial, enumerate_from_1. cbn zeta. rewrite fmap_app.
    rewrite <- !list_fmap_compose, !fmap_imap. f_equal.
    + rewrite <- (list_fmap_id (inclusion_texts trialcrit)) at 2.
      rewrite <- imap_const. apply imap_ext. intros i x _. simpl.
      apply (build_criterion_static vac hr inclusion).
    + rewrite <- (list_fmap_id (exclusion_texts trialcrit)) at 2.
      rewrite <- imap_const. apply imap_ext. intros i x _. simpl.
      apply (build_criterion_static vac hr exclusion).
  - unfold build_trial, enumerate_from_1. cbn zeta. rewrite fmap_app.
    rewrite <- !list_fmap_compose, !fmap_imap. f_equal.
    + apply list_eq. intros i. rewrite list_lookup_imap.
      destruct (inclusion_texts trialcrit !! i) as [x|] eqn:Hi; simpl.
      * rewrite lookup_replicate_2 by (by eapply lookup_lt_Some).
        f_equal. apply (build_criterion_static vac hr inclusion).
      * symmetry. apply lookup_replicate_None. by apply lookup_ge_None.
    + apply list_eq. intros i. rewrite list_lookup_imap.
      destruct (exclusion_texts trialcrit !! i) as [x|] eqn:Hi; simpl.
      * rewrite lookup_replicate_2 by (by eapply lookup_lt_Some).
        f_equal. apply (build_criterion_static vac hr exclusion).
      * symmetry. apply lookup_replicate_None. by apply lookup_ge_None.
  - apply build_trial_ids_NoDup.
  - apply Forall_forall. intros c Hc. apply list_elem_of_lookup in Hc as [i Hi].
    assert (∃ type n text, c = build_criterion vac hr type n text) as (type & n & text & ->).
    { apply build_trial_lookup in Hi as [(t & _ & ->)|(t & _ & ->)]; by eauto. }
    destruct (build_criterion_static vac hr type n text)
      as (_ & -> & _ & Hv & Hh & Hd & He).
    unfold ordinary. rewrite Hv, Hh, Hd, He, !elem_of_dom. cbn [truthy_flag].
    destruct (decide (is_Some (vac !! text))) as [Hvt|Hvt],
      (decide (is_Some (hr !! text))) as [Hht|Hht];
      rewrite ?(bool_decide_eq_true_2 _ Hvt), ?(bool_decide_eq_false_2 _ Hvt),
        ?(bool_decide_eq_true_2 _ Hht), ?(bool_decide_eq_false_2 _ Hht);
      (split; [|split; [|split; [|done]]]); split; try done; try tauto;
      try (by intros [? ?]); try (by intros [= ?]).
  - intros vac' hr' Hv Hh. unfold build_trial. cbn zeta.
    f_equal; apply list_fmap_ext; intros i p _; simpl; by apply build_criterion_dom.
Qed.

(** ** The store: outputs that wait for a human *)

Section unannotated_facts.

Variable model_validate_json : string → result (option Eligibility * option Eligibility).

Lemma elem_of_range_from (start stop e : Z) :
  e ∈ range_from start stop ↔ start ≤ e < stop.
Proof.
  unfold range_from. rewrite list_elem_of_fmap. split.
  - intros (i & -> & Hi). apply elem_of_seq in Hi. lia.
  - intros He. exists (Z.to_nat (e - start)). split; [lia|]. apply elem_of_seq. lia.
Qed.

Lemma epoch_task_true (db : redis) (incorrect_only : bool) (iteration : option Z)
    (m p : string) (e : Z) :
  epoch_task model_validate_json db incorrect_only iteration m p e = Ok true →
  db !! _human_key m p e = None
  ∧ (∀ it, iteration = Some it → e = it)
  ∧ (incorrect_only = true →
     ∃ json final truth,
       db !! _ai_key m p e = Some (RString json)
       ∧ model_validate_json json = Ok (Some final, Some truth)
       ∧ final ≠ truth).
Proof.
  unfold epoch_task.
  destruct iteration as [it|].
  - destruct (bool_decide (e ≠ it)) eqn:Hit; [done|].
    apply bool_decide_eq_false in Hit. apply dec_stable in Hit. revert Hit.
    generalize it. clear it. intros it Hit. revert Hit.
    unfold redis_get.
    destruct (db !! _human_key m p e) as [[]|] eqn:Hh; cbn [mbind result_bind];
      try done.
    intros Hit Hrun. split; [done|]. split; [by intros it' [= <-]|].
    intros ->.
    destruct (db !! _ai_key m p e) as [[json| |]|]; cbn [mbind result_bind] in Hrun;
      try done.
    destruct (model_validate_json json) as [[[f|] [t|]]|] eqn:Hv;
      cbn [mbind result_bind] in Hrun; try done.
    destruct (decide (f = t)); [done|]. by exists json, f, t.
  - unfold redis_get.
    destruct (db !! _human_key m p e) as [[]|] eqn:Hh; cbn [mbind result_bind];
      try done.
    intros Hrun. split; [done|]. split; [done|].
    intros ->.
    destruct (db !! _ai_key m p e) as [[json| |]|]; cbn [mbind result_bind] in Hrun;
      try done.
    destruct (model_validate_json json) as [[[f|] [t|]]|] eqn:Hv;
      cbn [mbind result_bind] in Hrun; try done.
    destruct (decide (f = t)); [done|]. by exists json, f, t.
Qed.

Lemma epoch_tasks_sound (db : redis) (incorrect_only : bool) (iteration : option Z)
    (m p : string) (epochs : list Z) (task : Task) :
  task ∈ (epoch_tasks model_validate_json db incorrect_only iteration m p epochs).1 →
  ∃ e, task = (m, p, e) ∧ e ∈ epochs
       ∧ epoch_task model_validate_json db incorrect_only iteration m p e = Ok true.
Proof.
  induction epochs as [|e epochs IH]; cbn [epoch_tasks]; [by intros ?%elem_of_nil|].
  destruct (epoch_task model_validate_json db incorrect_only iteration m p e)
    as [[]|] eqn:He.
  - destruct (epoch_tasks _ _ _ _ _ _ epochs) as [tasks err]. cbn [fst] in *.
    intros [->|Hin]%elem_of_cons.
    + exists e. split; [done|]. split; [apply elem_of_cons; by left|done].
    + destruct (IH Hin) as (e' & -> & He' & Hrun). exists e'.
      split; [done|]. split; [apply elem_of_cons; by right|done].
  - intros Hin. destruct (IH Hin) as (e' & -> & He' & Hrun). exists e'.
    split; [done|]. split; [apply elem_of_cons; by right|done].
  - by intros ?%elem_of_nil.
Qed.

Lemma master_key_tasks_sound (db : redis) (incorrect_only : bool)
    (iteration : option Z) (master_key : string) (task : Task) :
  task ∈ (master_key_tasks model_validate_json db incorrect_only iteration master_key).1 →
  waits_for_human model_validate_json db incorrect_only iteration master_key task.
Proof.
  unfold master_key_tasks, redis_hget.
  destruct (db !! master_key) as [[s|h|l]|] eqn:Hdb; try (by intros ?%elem_of_nil).
  destruct (h !! "ai_count") as [ai|] eqn:Hai; [|by intros ?%elem_of_nil].
  destruct (h !! "human_count") as [hc|] eqn:Hhc; [|by intros ?%elem_of_nil].
  destruct (decide (ai > hc)); [|by intros ?%elem_of_nil]. cbn zeta.
  destruct (split_once (string_drop 7 master_key)) as [[m p]|] eqn:Hsplit;
    [|by intros ?%elem_of_nil].
  intros Hin. apply epoch_tasks_sound in Hin as (e & -> & He & Hrun).
  apply elem_of_range_from in He. apply epoch_task_true in Hrun as (Hh & Hit & Hinc).
  unfold waits_for_human. exists h, ai, hc. rewrite Hsplit.
  split; [done|]. split; [done|]. split; [done|]. split; [lia|]. by split.
Qed.

Lemma generator_sound (db : redis) (master_keys : list string) (incorrect_only : bool)
    (iteration : option Z) (task : Task) :
  task ∈ (_unannotated_task_generator model_validate_json db master_keys
            incorrect_only iteration).1 →
  ∃ master_key, master_key ∈ master_keys
    ∧ waits_for_human model_validate_json db incorrect_only iteration master_key task.
Proof.
  induction master_keys as [|k rest IH]; cbn [_unannotated_task_generator];
    [by intros ?%elem_of_nil|].
  destruct (master_key_tasks model_validate_json db incorrect_only iteration k)
    as [tasks [err|]] eqn:Hk.
  - cbn [fst]. intros Hin. exists k. split; [apply elem_of_cons; by left|].
    apply master_key_tasks_sound. by rewrite Hk.
  - destruct (_unannotated_task_generator _ _ rest _ _) as [tasks' err'].
    cbn [fst] in *. intros [Hin|Hin]%elem_of_app.
    + exists k. split; [apply elem_of_cons; by left|].
      apply master_key_tasks_sound. by rewrite Hk.
    + destruct (IH Hin) as (k' & Hk' & Hw). exists k'.
      split; [apply elem_of_cons; by right|done].
Qed.

(** X24. What the task generator yields, and how the two readers use it.
    Every task [(mrn, protocol, epoch)] that [unannotated_tasks] lists or
    [get_next_unannotated_task] returns comes from a master key of the
    reply whose hash has both counters, with
    [human_count < epoch <= ai_count]; the pair is the text after "master:"
    cut at its first underscore; no human output is stored for the epoch;
    the epoch is the requested iteration when one is given; and with
    [incorrect_only] the stored AI output validates with a final
    determination and a ground truth that differ.  When listing succeeds,
    [get_next_unannotated_task] returns the first task of the list, [None]
    for the empty list; and when [get_next_unannotated_task] raises, listing
    raises the same exception. *)
Theorem unannotated_tasks_sound (db : redis) (master_keys : list string)
    (incorrect_only : bool) (iteration : option Z) :
  (∀ tasks task,
     unannotated_tasks model_validate_json db master_keys incorrect_only iteration
       = Ok tasks →
     task ∈ tasks →
     ∃ master_key, master_key ∈ master_keys
       ∧ waits_for_human model_validate_json db incorrect_only iteration master_key task)
  ∧ (∀ task,
       get_next_unannotated_task model_validate_json db master_keys incorrect_only
         iteration = Ok (Some task) →
       ∃ master_key, master_key ∈ master_keys
         ∧ waits_for_human model_validate_json db incorrect_only iteration master_key task)
  ∧ (∀ tasks,
       unannotated_tasks model_validate_json db master_keys incorrect_only iteration
         = Ok tasks →
       get_next_unannotated_task model_validate_json db master_keys incorrect_only
         iteration = Ok (head tasks))
  ∧ (∀ e,
       get_next_unannotated_task model_validate_json db master_keys incorrect_only
         iteration = Raise e →
       unannotated_tasks model_validate_json db master_keys incorrect_only iteration
         = Raise e).
Proof.
  unfold unannotated_tasks, get_next_unannotated_task.
  pose proof (generator_sound db master_keys incorrect_only iteration) as Hsound.
  destruct (_unannotated_task_generator model_validate_json db master_keys
              incorrect_only iteration) as [ts [err|]]; cbn [fst] in Hsound.
  - split; [done|]. split; [|split; [done|]].
    + intros task. destruct ts as [|t ts]; [done|]. intros [= <-].
      apply Hsound, elem_of_cons. by left.
    + intros e. destruct ts; [by intros [= ->]|done].
  - split; [|split; [|split]].
    + intros tasks task [= <-]. apply Hsound.
    + intros task. destruct ts as [|t ts]; [done|]. intros [= <-].
      apply Hsound, elem_of_cons. by left.
    + intros tasks [= <-]. by destruct ts.
    + intros e. by destruct ts.
Qed.

End unannotated_facts.

Lemma string_app_assoc (a b c : string) : (a +:+ b) +:+ c = a +:+ (b +:+ c).
Proof.
  induction a as [|x a IH]; [done|].
  change (String x ((a +:+ b) +:+ c) = String x (a +:+ (b +:+ c))). by rewrite IH.
Qed.

Lemma split_once_Some (s x y : string) :
  split_once s = Some (x, y) → s = x +:+ "_" +:+ y ∧ split_once x = None.
Proof.
  revert x y. induction s as [|c s IH]; intros x y; [done|]. cbn [split_once].
  destruct (decide (c = "_"%char)) as [->|Hc].
  - intros [= <- <-]. done.
  - destruct (split_once s) as [[x' y']|]; cbn; [|done]. intros [= <- <-].
    destruct (IH x' y' eq_refl) as [-> Hx]. split; [done|]. cbn [split_once].
    rewrite decide_False by done. by rewrite Hx.
Qed.

Lemma split_once_app (a b : string) :
  split_once (a +:+ "_" +:+ b)
  = match split_once a with
    | None => Some (a, b)
    | Some (x, y) => Some (x, y +:+ "_" +:+ b)
    end.
Proof.
  induction a as [|c a IH]; [done|].
  change (String c a +:+ "_" +:+ b) with (String c (a +:+ "_" +:+ b)).
  cbn [split_once].
  destruct (decide (c = "_"%char)); [done|]. rewrite IH.
  by destruct (split_once a) as [[x y]|].
Qed.

Lemma pair_keys_regenerate (m p mrn_ protocol : string) (e : Z) :
  m +:+ "_" +:+ p = mrn_ +:+ "_" +:+ protocol →
  _human_key m p e = _human_key mrn_ protocol e
  ∧ _ai_key m p e = _ai_key mrn_ protocol e
  ∧ _master_key m p = _master_key mrn_ protocol.
Proof.
  intros Heq. unfold _human_key, _ai_key, _master_key.
  assert (∀ rest, m +:+ "_" +:+ p +:+ rest = mrn_ +:+ "_" +:+ protocol +:+ rest) as H.
  { intros rest.
    rewrite <- (string_app_assoc "_" p rest), <- (string_app_assoc m _ rest).
    rewrite <- (string_app_assoc "_" protocol rest), <- (string_app_assoc mrn_ _ rest).
    by rewrite Heq. }
  rewrite !H. by rewrite Heq.
Qed.

Section unannotated_pair.

Variable model_validate_json : string → result (option Eligibility * option Eligibility).

Lemma epoch_tasks_all (db : redis) (iteration : option Z) (m p : string)
    (epochs : list Z) :
  (∀ e, e ∈ epochs → db !! _human_key m p e = None) →
  epoch_tasks model_validate_json db false iteration m p epochs
  = ((λ e, (m, p, e)) <$> filter (requested iteration) epochs, None).
Proof.
  induction epochs as [|e epochs IH]; intros Hfree; [done|].
  cbn [epoch_tasks]. rewrite IH by (intros e' He'; apply Hfree, elem_of_cons; by right).
  unfold epoch_task, redis_get.
  rewrite (Hfree e) by (apply elem_of_cons; by left). cbn [mbind result_bind].
  destruct iteration as [it|]; cbn [requested].
  - destruct (decide (e = it)) as [->|Hne].
    + rewrite bool_decide_eq_false_2 by (by intros H).
      rewrite filter_cons_True by done. done.
    + rewrite bool_decide_eq_true_2 by done.
      rewrite filter_cons_False by done. done.
  - rewrite filter_cons_True by done. done.
Qed.

Lemma pair_state_tasks (db0 db : redis) (mrn_ protocol : string)
    (ais humans : list string) (iteration : option Z) (m p : string) :
  (∀ i, db0 !! _human_key mrn_ protocol i = None) →
  pair_state db0 db mrn_ protocol ais humans →
  split_once (mrn_ +:+ "_" +:+ protocol) = Some (m, p) →
  unannotated_tasks model_validate_json db [_master_key mrn_ protocol] false iteration
  = Ok ((λ e, (m, p, e))
          <$> filter (requested iteration)
                (range_from (Z.of_nat (length humans)) (Z.of_nat (length ais)))).
Proof.
  intros Hfresh (Hm & Ha & Hh & Hframe) Hsplit.
  unfold unannotated_tasks. cbn [_unannotated_task_generator].
  assert (Hempty : (length ais ≤ length humans)%nat →
          range_from (Z.of_nat (length humans)) (Z.of_nat (length ais)) = []).
  { intros Hle. unfold range_from.
    by replace (Z.to_nat (Z.of_nat (length ais) - Z.of_nat (length humans))) with 0%nat
      by lia. }
  unfold master_key_tasks, redis_hget.
  destruct Hm as [(Hn & Hn' & Hdb)|(h & Hdb & Hca & Hch)].
  - rewrite Hdb. rewrite Hempty by lia. done.
  - rewrite Hdb, Hca, Hch.
    destruct (decide (Z.of_nat (length ais) - 1 > Z.of_nat (length humans) - 1))
      as [Hgt|Hle]; [|by rewrite Hempty by lia].
    cbn zeta. change (string_drop 7 (_master_key mrn_ protocol))
      with (mrn_ +:+ "_" +:+ protocol). rewrite Hsplit.
    replace (Z.of_nat (length humans) - 1 + 1) with (Z.of_nat (length humans)) by lia.
    replace (Z.of_nat (length ais) - 1 + 1) with (Z.of_nat (length ais)) by lia.
    apply split_once_Some in Hsplit as [Heq _].
    rewrite epoch_tasks_all; [by rewrite app_nil_r|].
    intros e He. apply elem_of_range_from in He.
    destruct (pair_keys_regenerate m p mrn_ protocol e (eq_sym Heq)) as (-> & _ & _).
    rewrite Hframe; [apply Hfresh|apply _human_key_not_master| |].
    + intros i _ Hk. symmetry in Hk. by apply _ai_key_not_human in Hk.
    + intros i Hi Hk. apply _human_key_inj in Hk. lia.
Qed.

(** X25. The tasks of a pair.  For a store that held nothing of a pair and
    whose reply to [KEYS master:*] is the pair's master key, after any
    interleaving of additions [unannotated_tasks] (with [incorrect_only]
    off) lists the indices of the AI outputs from the number of human
    outputs upward, in ascending order, or only the requested iteration of
    them.  Each task names the pair as read back from the master key: the
    text before its first underscore and the text after it.  That is the
    pair itself when the MRN has no underscore; otherwise it is another
    pair with the same keys. *)
Theorem unannotated_tasks_of_pair (db : redis) (mrn_ protocol : string)
    (os : list output) (iteration : option Z) :
  db !! _master_key mrn_ protocol = None →
  (∀ i, db !! _human_key mrn_ protocol i = None) →
  ∃ indices db' m p,
    add_outputs db mrn_ protocol os = Ok (indices, db')
    ∧ unannotated_tasks model_validate_json db' [_master_key mrn_ protocol] false
        iteration
      = Ok ((λ e, (m, p, e))
              <$> filter (requested iteration)
                    (range_from (Z.of_nat (length (human_results os)))
                                (Z.of_nat (length (ai_results os)))))
    ∧ split_once (mrn_ +:+ "_" +:+ protocol) = Some (m, p)
    ∧ m +:+ "_" +:+ p = mrn_ +:+ "_" +:+ protocol
    ∧ split_once m = None
    ∧ (split_once mrn_ = None → m = mrn_ ∧ p = protocol)
    ∧ (split_once mrn_ ≠ None → m ≠ mrn_)
    ∧ (∀ e, _ai_key m p e = _ai_key mrn_ protocol e
            ∧ _human_key m p e = _human_key mrn_ protocol e).
Proof.
  intros Hdb Hfresh.
  destruct (add_outputs_state os db db mrn_ protocol [] [] (pair_state_start _ _ _ Hdb))
    as (db' & Hrun & Hst). simpl in Hst.
  assert (∃ m p, split_once (mrn_ +:+ "_" +:+ protocol) = Some (m, p)) as (m & p & Hsplit).
  { rewrite split_once_app. destruct (split_once mrn_) as [[x y]|]; by eauto. }
  exists (own_counts 0 0 os), db', m, p. split; [exact Hrun|].
  split; [by apply (pair_state_tasks db db')|]. split; [done|].
  destruct (split_once_Some _ _ _ Hsplit) as [Heq Hm]. split; [done|]. split; [done|].
  split; [|split].
  - intros Hnone. rewrite split_once_app, Hnone in Hsplit. by injection Hsplit as <- <-.
  - intros Hsome Hmm. subst m. done.
  - intros e. destruct (pair_keys_regenerate m p mrn_ protocol e (eq_sym Heq)) as (? & ? & _).
    done.
Qed.

End unannotated_pair.

Lemma unannotated_tasks_of_pair_witness :
  ∃ indices db' m p,
    add_outputs ∅ "1234" "19-410"
      [ai_output "first"; human_output "review"; ai_output "second"; ai_output "third"]
      = Ok (indices, db')
    ∧ unannotated_tasks (λ _, Raise ValidationError) db' ["master:1234_19-410"] false None
      = Ok [(m, p, 1); (m, p, 2)]
    ∧ m = "1234" ∧ p = "19-410".
Proof.
  destruct (unannotated_tasks_of_pair (λ _, Raise ValidationError) ∅ "1234" "19-410"
              [ai_output "first"; human_output "review"; ai_output "second";
               ai_output "third"] None)
    as (indices & db' & m & p & Hrun & Htasks & _ & _ & _ & Hsame & _).
  - reflexivity.
  - intros i. apply lookup_empty.
  - exists indices, db', m, p. split; [exact Hrun|]. split; [exact Htasks|].
    apply Hsame. reflexivity.
Defined.
